(** * scan-exporter: the per-target scan engine and its metrics sink

    A shallow embedding of package [scan] (target runtime, scheduler,
    planner, worker, probes, aggregator, port-range and period parsers,
    port sorter) and of package [metrics] (result handling, ICMP down-host
    tracking, Redis client initialisation, and the [Updater] of its
    [Server] variant), with the properties of the specification, and
    further properties of the code, stated over the embedded code.

    Conventions.
    - Go [int] and [time.Duration] are 64-bit: they are embedded as [Z] and
      the arithmetic of the source on them goes through [wrap64].
    - Go strings are byte strings: [string].
    - A Go function returning [(T, error)] returns [result T]; a run-time
      panic (division by zero, index out of range) is the third outcome.
    - Go maps are [gmap]; reading a missing key yields the zero value, which
      is written [default zero (m !! k)].
    - Channels are FIFO queues (lists); each goroutine is embedded as the
      function that handles one received message. *)

From Stdlib Require Import Ascii String.
From stdpp Require Import base numbers option list gmap strings sorting
  relations.

Local Open Scope Z_scope.

(** ** Outcomes of Go calls *)

(** The arguments of a format string ([fmt.Errorf], [Msgf]) are kept
    unrendered next to the format. *)
Inductive error : Type :=
  | ErrSyntax (fn : string) (input : string)      (* strconv.ErrSyntax *)
  | ErrRange (fn : string) (input : string)       (* strconv.ErrRange *)
  | Errorf (format : string) (args : list arg)    (* fmt.Errorf *)
  | ErrExternal (what : string)                   (* an error of a library call *)
with arg : Type :=
  | AStr (s : string)
  | AInt (z : Z)
  | AStrs (l : list string)
  | ADuration (d : Z)
  | AErr (e : error).

Inductive result (A : Type) : Type :=
  | Ok (a : A)
  | Err (e : error)
  | Panic (why : string).
Arguments Ok {A} a.
Arguments Err {A} e.
Arguments Panic {A} why.

(** Sequencing stops at the first error or panic; [x ← r; k] is stdpp's
    notation for [mbind]. *)
Global Instance result_bind : MBind result := λ A B k r,
  match r with
  | Ok a => k a
  | Err e => Err e
  | Panic why => Panic why
  end.
Global Instance result_ret : MRet result := λ A a, Ok a.

Definition is_Ok {A} (r : result A) : bool :=
  match r with Ok _ => true | _ => false end.

(** ** 64-bit integers *)

Definition int_min : Z := - 2 ^ 63.
Definition int_max : Z := 2 ^ 63 - 1.

Definition wrap64 (z : Z) : Z := (z + 2 ^ 63) `mod` 2 ^ 64 - 2 ^ 63.

(** The built-in [len]. *)
Definition len {A} (l : list A) : Z := Z.of_nat (length l).

(** ** The parts of Go's standard library the source calls *)

Module Go.

Definition byte_eqb (a b : ascii) : bool := Ascii.eqb a b.

(** [strings.Split(s, sep)] for the one-byte separators of the source
    ([","], ["-"], ["d"]): the substrings between the separators; the
    result is never empty, [Split("", sep)] is [[""]]. *)
Fixpoint Split (s : string) (sep : ascii) : list string :=
  match s with
  | EmptyString => [EmptyString]
  | String c s' =>
      if byte_eqb c sep then EmptyString :: Split s' sep
      else match Split s' sep with
           | [] => [String c EmptyString]
           | tok :: rest => String c tok :: rest
           end
  end.

(** [strings.Contains(s, sub)] for a one-byte [sub]. *)
Fixpoint Contains (s : string) (c : ascii) : bool :=
  match s with
  | EmptyString => false
  | String c' s' => byte_eqb c' c || Contains s' c
  end.

(** [strings.ContainsAny(s, chars)]. *)
Fixpoint ContainsAny (s : string) (chars : string) : bool :=
  match s with
  | EmptyString => false
  | String c s' => Contains chars c || ContainsAny s' chars
  end.

(** The value of a decimal digit, [ch -= '0'; ch > 9] being an error. *)
Definition digit (c : ascii) : option Z :=
  let n := Z.of_N (N_of_ascii c) in
  if (48 <=? n) && (n <=? 57) then Some (n - 48) else None.

(** The digit loop of [strconv.Atoi]: [n = n*10 + int(ch)]. *)
Fixpoint digits (s : string) (n : Z) : option Z :=
  match s with
  | EmptyString => Some n
  | String c s' =>
      match digit c with
      | Some d => digits s' (n * 10 + d)
      | None => None
      end
  end.

(** [strconv.Atoi] on a 64-bit platform: an optional sign, at least one
    decimal digit and nothing else ([ErrSyntax] otherwise); a value that
    does not fit [int] is [ErrRange]. *)
Definition Atoi (s : string) : result Z :=
  match s with
  | EmptyString => Err (ErrSyntax "Atoi" s)
  | String c rest =>
      let neg := byte_eqb c "-" in
      let body := if neg || byte_eqb c "+" then rest else s in
      match body with
      | EmptyString => Err (ErrSyntax "Atoi" s)
      | _ =>
          match digits body 0 with
          | None => Err (ErrSyntax "Atoi" s)
          | Some n =>
              let v := if neg then - n else n in
              if (int_min <=? v) && (v <=? int_max) then Ok v
              else Err (ErrRange "Atoi" s)
          end
      end
  end.

Definition digitChar (d : Z) : ascii := ascii_of_N (Z.to_N (48 + d)).

(** The digits of [u], least significant first, pushed in front of [acc]
    (what [strconv.formatBits] does in base 10). A 64-bit value has at
    most 20 digits, which is the fuel [Itoa] gives. *)
Fixpoint formatBits (fuel : nat) (u : Z) (acc : string) : string :=
  match fuel with
  | O => acc
  | S fuel' =>
      let acc' := String (digitChar (u `mod` 10)) acc in
      if u <? 10 then acc' else formatBits fuel' (u `div` 10) acc'
  end.

(** [strconv.Itoa]. *)
Definition Itoa (i : Z) : string :=
  if i <? 0 then String "-" (formatBits 20 (- i) EmptyString)
  else formatBits 20 i EmptyString.

(** [sort.Ints]: the ascending rearrangement of the slice. *)
Definition SortInts (l : list Z) : list Z := merge_sort Z.le l.

(** [strings.HasPrefix(s, prefix)]. *)
Fixpoint HasPrefix (s prefix : string) : bool :=
  match prefix, s with
  | EmptyString, _ => true
  | String _ _, EmptyString => false
  | String a prefix', String c s' => byte_eqb c a && HasPrefix s' prefix'
  end.

(** [strings.Contains(s, substr)] for any [substr]: some suffix of [s]
    starts with it. *)
Fixpoint ContainsString (s substr : string) : bool :=
  HasPrefix s substr ||
  match s with
  | EmptyString => false
  | String _ s' => ContainsString s' substr
  end.

(** [time.NewTicker(d)] as far as the caller sees it at the call: the
    ticker of period [d], or a panic when [d] is not positive. *)
Definition NewTicker (d : Z) : result Z :=
  if 0 <? d then Ok d else Panic "non-positive interval for NewTicker".

End Go.

(** ** Package common (its files are not among the sources) *)

Module common.

(** Modelled from the spec: [common.StringInSlice] is called by the
    sources but its file is missing; it is the membership test the
    accordance computation ("open \ expected") and the down-set lookup
    ("in down-set") of the specification describe. *)
Definition StringInSlice (a : string) (l : list string) : bool :=
  bool_decide (a ∈ l).

(** Modelled from the spec: [common.CompareStringSlices] is called by
    [metrics.Handle] but its file is missing; the specification gives
    the diff as the size of the symmetric difference of the two port
    sets. *)
Definition CompareStringSlices (a b : list string) : Z :=
  let A : gset string := list_to_set a in
  let B : gset string := list_to_set b in
  Z.of_nat (size ((A ∖ B) ∪ (B ∖ A))).

End common.

(** ** Logging and time *)

(** A [zerolog] event: level, format string and the arguments of [Msgf],
    kept unrendered. *)
Inductive level : Type := DebugLevel | InfoLevel | WarnLevel | ErrorLevel.

Record logEntry : Type := Msgf { lvl : level; format : string; args : list arg }.

(** [time.Time] as the nanoseconds elapsed since the zero instant, so that
    [Time{}] is [0]; [time.Duration] is a number of nanoseconds. *)
Definition Time : Type := Z.
Definition zeroTime : Time := 0.
Definition IsZero (t : Time) : bool := t =? 0.
Definition Hour : Z := 3600 * 1000000000.

(** ** Package metrics: data *)

Module metrics.

Record ResMsg : Type := mkResMsg {
  Name : string;
  IP : string;
  Protocol : string;
  OpenPorts : list string;
  UnexpectedPorts : list string;
  ClosedPorts : list string
}.

(** A Redis client handle and the options it was built from. *)
Record Options : Type := mkOptions { url : string }.
Record Client : Type := mkClient { options : Options }.

(** The package-level variables: the two gauges, the four gauge vectors
    (indexed by their label values), [notRespondingList] and [rdb], a
    pointer that is [nil] ([None]) until something assigns it. *)
Record pkg : Type := mkPkg {
  numOfTargets : Z;
  numOfDownTargets : Z;
  unexpectedPorts : gmap (string * string) Z;
  openPorts : gmap (string * string) Z;
  closedPorts : gmap (string * string) Z;
  diffPorts : gmap (string * string) Z;
  notRespondingList : list string;
  rdb : option Client
}.

(** The values the [var (...)] block gives them. *)
Definition pkg_init : pkg :=
  mkPkg 0 0 ∅ ∅ ∅ ∅ [] None.

(** What lies outside the process: the environment and the Redis
    library with its server. A call on the client pointer takes the
    pointer as it is, [nil] included. *)
Record world : Type := mkWorld {
  Getenv : string → string;
  ParseURL : string → result Options;
  NewClient : Options → Client;
  Ping : Client → result string;
  SMembers : option Client → string → result (list string);
  Del : option Client → string → result unit;
  SAdd : option Client → string → string → result unit
}.

(** ** Package metrics: functions *)

Definition set_down (g : Z) (l : list string) (s : pkg) : pkg :=
  mkPkg (numOfTargets s) g (unexpectedPorts s) (openPorts s) (closedPorts s)
    (diffPorts s) l (rdb s).

(** The [for index := range notRespondingList] loop of
    [icmpNotResponding]. The range expression is evaluated once, so the
    loop visits the [todo] indices the list had on entry, whereas
    [notRespondingList[index]] reads the list as it is now, [l], and
    panics when [index] is not below its current length. *)
Fixpoint remove_loop (IP : string) (todo : nat) (index : nat) (l : list string)
  : result (list string) :=
  match todo with
  | O => Ok l
  | S todo' =>
      match l !! index with
      | None => Panic "index out of range"
      | Some x =>
          if String.eqb x IP then
            match l !! (length l - 1)%nat with
            | None => Panic "index out of range"
            | Some final =>
                let l1 := <[index := final]> l in
                let l2 := <[(length l1 - 1)%nat := ""%string]> l1 in
                remove_loop IP todo' (S index) (take (length l2 - 1) l2)
            end
          else remove_loop IP todo' (S index) l
      end
  end.

(** The gauge is a [float64] moved by [Inc] and [Dec] in steps of one;
    it is embedded as an integer. *)
Definition icmpNotResponding (ports : list string) (IP : string) (s : pkg)
  : result pkg :=
  let isResponding := negb (len ports =? 0) in
  let alreadyNotResponding := common.StringInSlice IP (notRespondingList s) in
  if isResponding && alreadyNotResponding then
    l ← remove_loop IP (length (notRespondingList s)) 0 (notRespondingList s);
    Ok (set_down (numOfDownTargets s - 1) l s)
  else if negb isResponding && negb alreadyNotResponding then
    Ok (set_down (numOfDownTargets s + 1) (notRespondingList s ++ [IP]) s)
  else Ok s.

Definition readSet (w : world) (rdb : option Client) (setName : string)
  : result (list string) :=
  SMembers w rdb setName.

Definition wipeSet (w : world) (rdb : option Client) (setName : string)
  : result unit :=
  match Del w rdb setName with
  | Panic why => Panic why
  | _ => Ok ()
  end.

Fixpoint writeSet (w : world) (rdb : option Client) (setName : string)
    (items : list string) : result unit :=
  match items with
  | [] => Ok ()
  | item :: items' => _ ← SAdd w rdb setName item; writeSet w rdb setName items'
  end.

(** [Handle] returns its [error] next to the package state it leaves. *)
Definition Handle (w : world) (res : ResMsg) (s : pkg)
  : result (pkg * option error) :=
  if String.eqb (Protocol res) "icmp" then
    s' ← icmpNotResponding (OpenPorts res) (IP res) s; Ok (s', None)
  else
    let setName := (IP res +:+ "/" +:+ Protocol res)%string in
    let key := (Protocol res, Name res) in
    let s := mkPkg (numOfTargets s) (numOfDownTargets s)
               (<[key := len (UnexpectedPorts res)]> (unexpectedPorts s))
               (<[key := len (OpenPorts res)]> (openPorts s))
               (<[key := len (ClosedPorts res)]> (closedPorts s))
               (diffPorts s) (notRespondingList s) (rdb s) in
    match readSet w (rdb s) setName with
    | Panic why => Panic why
    | Err err => Ok (s, Some err)
    | Ok prev =>
        let diff := common.CompareStringSlices prev (OpenPorts res) in
        let s := mkPkg (numOfTargets s) (numOfDownTargets s) (unexpectedPorts s)
                   (openPorts s) (closedPorts s) (<[key := diff]> (diffPorts s))
                   (notRespondingList s) (rdb s) in
        _ ← wipeSet w (rdb s) setName;
        match writeSet w (rdb s) setName (OpenPorts res) with
        | Panic why => Panic why
        | Err err => Ok (s, Some err)
        | Ok _ => Ok (s, None)
        end
    end.

(** [initRedisClient] returns its [error] next to the package state it
    leaves. [client] is the variable the [:=] of the source declares. *)
Definition initRedisClient (w : world) (s : pkg) : result (pkg * option error) :=
  let redisURL := Getenv w "REDIS_URL" in
  let redisURL := if String.eqb redisURL "" then "redis://localhost:6379/0"%string
                  else redisURL in
  match ParseURL w redisURL with
  | Ok opt =>
      let client := NewClient w opt in
      match Ping w client with
      | Ok _ => Ok (s, None)
      | Err err => Ok (s, Some err)
      | Panic why => Panic why
      end
  | Err err => Ok (s, Some err)
  | Panic why => Panic why
  end.

(** [StartServ] up to the call of [ListenAndServe], which blocks: the
    package state it leaves and what it logs. *)
Definition StartServ (w : world) (nTargets : Z) (s : pkg)
  : result (pkg * list logEntry) :=
  let s := mkPkg nTargets 0 (unexpectedPorts s) (openPorts s) (closedPorts s)
             (diffPorts s) (notRespondingList s) (rdb s) in
  '(s, err) ← initRedisClient w s;
  match err with
  | Some err => Ok (s, [Msgf ErrorLevel "redis init error : %v" [AErr err]])
  | None => Ok (s, [])
  end.

End metrics.

(** ** Package scan *)

Module scan.

Import metrics.

Record protocol : Type := mkProtocol {
  period : string;
  rng : string;
  expected : string
}.

Definition protocol_zero : protocol := mkProtocol "" "" "".

Record jobMsg : Type := mkJobMsg {
  j_id : string;
  j_jobCount : Z;
  j_ip : string;
  j_protocol : string;
  j_ports : list string
}.

(** [Target], without its logger and metrics manager, which are output
    sinks and live in [runtime] below. *)
Record Target : Type := mkTarget {
  t_name : string;
  t_ip : string;
  t_workers : Z;
  t_protos : gmap string protocol;
  t_startTime : gmap string Time;
  t_portsToScan : gmap string (list string)
}.

(** *** readPortsRange *)

(** [for i := lo; i <= hi; i++ { ports = append(ports, strconv.Itoa(i)) }] *)
Definition portsFromTo (lo hi : Z) : list string :=
  Go.Itoa <$> seqZ lo (hi - lo + 1).

(** The [default] branch of the switch, up to the two bound checks:
    the pair [(min, max)] the token denotes. *)
Definition readBounds (spec : string) : result (Z * Z) :=
  let decomposedRange :=
    if negb (Go.Contains spec "-") then [spec; spec] else Go.Split spec "-" in
  match decomposedRange !! 0%nat, last decomposedRange with
  | Some first, Some final =>
      min ← Go.Atoi first;
      max ← Go.Atoi final;
      if max <? min then
        Err (Errorf "lower port %d is higher than high port %d" [AInt min; AInt max])
      else if 65535 <? max then
        Err (Errorf "port %d is higher than max port" [AInt max])
      else Ok (min, max)
  | _, _ => Panic "index out of range"
  end.

(** The body of the loop over [parts], [ports] being the slice built so
    far. *)
Fixpoint readPortsRange_loop (parts : list string) (ports : list string)
  : result (list string) :=
  match parts with
  | [] => Ok ports
  | spec :: parts' =>
      if String.eqb spec "" then readPortsRange_loop parts' ports
      else if String.eqb spec "all" then
        readPortsRange_loop parts' (ports ++ portsFromTo 1 65535)
      else if String.eqb spec "reserved" then
        readPortsRange_loop parts' (ports ++ portsFromTo 1 1023)
      else
        '(min, max) ← readBounds spec;
        readPortsRange_loop parts' (ports ++ portsFromTo min max)
  end.

Definition readPortsRange (ranges : string) : result (list string) :=
  readPortsRange_loop (Go.Split ranges ",") [].

(** *** New, setPorts *)

Definition setPorts (proto period rng exp : string) (t : Target) : result Target :=
  if negb (common.StringInSlice proto ["udp"; "tcp"; "icmp"]%string) then
    Err (Errorf "unsupported protocol %q for target %s" [AStr proto; AStr (t_name t)])
  else
    ports ← readPortsRange rng;
    Ok (mkTarget (t_name t) (t_ip t) (t_workers t)
          (<[proto := mkProtocol period rng exp]> (t_protos t))
          (t_startTime t)
          (<[proto := ports]> (t_portsToScan t))).

(** [New] applied to [WithPorts] options; [validIP] is the verdict of
    [net.ParseIP] on [ip]. *)
Fixpoint applyPorts (o : list (string * string * string * string)) (t : Target)
  : result Target :=
  match o with
  | [] => Ok t
  | (proto, period, rng, exp) :: o' =>
      t' ← setPorts proto period rng exp t; applyPorts o' t'
  end.

Definition New (validIP : bool) (name ip : string) (workers : Z)
    (o : list (string * string * string * string)) : result Target :=
  if negb validIP then Err (Errorf "unable to parse IP address %s" [AStr ip])
  else applyPorts o (mkTarget name ip workers ∅ ∅ ∅).

Definition setTimeTo (proto : string) (time : Time) (t : Target) : Target :=
  mkTarget (t_name t) (t_ip t) (t_workers t) (t_protos t)
    (<[proto := time]> (t_startTime t)) (t_portsToScan t).

(** *** createJobs *)

(** The slice expression [s[lo:hi]]; out of [0 <= lo <= hi <= len(s)]
    it panics. *)
Definition slice {A} (s : list A) (lo hi : Z) : result (list A) :=
  if (0 <=? lo) && (lo <=? hi) && (hi <=? len s) then
    Ok (take (Z.to_nat (hi - lo)) (drop (Z.to_nat lo) s))
  else Panic "slice bounds out of range".

(** The [for] loop of [createJobs]. [i] counts up to [t.workers];
    [todo] is the number of values of [i] still to visit, so that
    [i < t.workers] holds exactly while [todo] is not [O]. *)
Fixpoint createJobs_loop (t : Target) (proto : string) (ports : list string)
    (numBigger : Z) (todo : nat) (i idx size : Z) (jobs : list jobMsg)
  : result (list jobMsg) :=
  match todo with
  | O => Ok jobs
  | S todo' =>
      let size := if i =? numBigger then wrap64 (size - 1) else size in
      if (i =? numBigger) && (size =? 0) then Ok jobs (* 0 ports left to scan *)
      else
        chunk ← slice ports idx (wrap64 (idx + size));
        createJobs_loop t proto ports numBigger todo'
          (wrap64 (i + 1)) (wrap64 (idx + size)) size
          (jobs ++ [mkJobMsg "" 0 (t_ip t) proto chunk])
  end.

Definition createJobs (t : Target) (proto : string) : result (list jobMsg) :=
  match t_portsToScan t !! proto with
  | None => Err (Errorf "no such protocol %q in current protocol list" [AStr proto])
  | Some ports =>
      if String.eqb proto "icmp" then Ok [mkJobMsg "" 0 (t_ip t) proto []]
      else if t_workers t =? 0 then Panic "integer divide by zero"
      else
        let defSize := wrap64 (len ports ÷ t_workers t) in
        let numBigger := wrap64 (len ports - wrap64 (defSize * t_workers t)) in
        let size := wrap64 (defSize + 1) in
        createJobs_loop t proto ports numBigger (Z.to_nat (t_workers t)) 0 0 size []
  end.

(** *** sortPorts, checkAccordance, recap *)

(** The first loop of [sortPorts]: every port through [strconv.Atoi],
    the first failure being returned. *)
Fixpoint atoiAll (ports : list string) : result (list Z) :=
  match ports with
  | [] => Ok []
  | p :: ports' => pint ← Go.Atoi p; holder ← atoiAll ports'; Ok (pint :: holder)
  end.

Definition sortPorts (ports : list string) : result (list string) :=
  holder ← atoiAll ports;
  Ok (Go.Itoa <$> Go.SortInts holder).

Definition checkAccordance (t : Target) (proto : string) (open : list string)
  : list string * list string * option error :=
  match readPortsRange (expected (default protocol_zero (t_protos t !! proto))) with
  | Ok expected =>
      (filter (λ port, common.StringInSlice port expected = false) open,
       filter (λ port, common.StringInSlice port open = false) expected,
       None)
  | Err e => ([], [], Some e)
  | Panic _ => ([], [], None) (* never taken: [readPortsRange] does not panic *)
  end.

(** The lines [recap] writes to the log. When sorting the unexpected
    ports fails, [sorted] stays [nil]; for the closed ports it falls
    back to the unsorted list. *)
Definition recap (name : string) (unexpected closed : list string) : list logEntry :=
  (if 0 <? len unexpected then
     match sortPorts unexpected with
     | Ok sorted => [Msgf WarnLevel "[%s] %s unexpected" [AStr name; AStrs sorted]]
     | _ => [Msgf ErrorLevel "[%s] error sorting unexpected ports" [AStr name];
             Msgf WarnLevel "[%s] %s unexpected" [AStr name; AStrs []]]
     end
   else []) ++
  (if 0 <? len closed then
     match sortPorts closed with
     | Ok sorted => [Msgf WarnLevel "[%s] %s closed" [AStr name; AStrs sorted]]
     | _ => [Msgf ErrorLevel "[%s] error sorting closed ports" [AStr name];
             Msgf WarnLevel "[%s] %s closed" [AStr name; AStrs closed]]
     end
   else []).

(** *** getDuration *)

(** [ParseDuration] stands for [time.ParseDuration], a library function
    whose verdict is taken as given. *)
Definition getDuration (ParseDuration : string → result Z) (period : string)
  : result Z :=
  if Go.ContainsAny period "hms" then
    t ← ParseDuration period; Ok t
  else
    match Go.Split period "d" !! 0%nat with
    | Some sep0 =>
        days ← Go.Atoi sep0;
        Ok (wrap64 (wrap64 (days * Hour) * 24))
    | None => Panic "index out of range"
    end.

(** *** The target runtime

    What [Run] sets up: the target, its log, the four channels and the
    two maps local to [receiver]. [running] turns false when [Run]
    returns. *)
Record runtime : Type := mkRuntime {
  tgt : Target;
  logger : list logEntry;
  trigger : list string;
  jobsChan : list jobMsg;
  resChan : list jobMsg;
  postScan : list ResMsg;
  recv_openPorts : gmap string (list string);
  recv_jobsStarted : gmap string Z;
  running : bool
}.

(** The runtime when [Run] enters its trigger loop. Its log is taken
    from there on: the line [Run] writes just before the loop, "%d
    workers started" at info level, is not part of it. *)
Definition start (t : Target) : runtime :=
  mkRuntime t [] [] [] [] [] ∅ ∅ true.

Definition set_tgt (t : Target) (r : runtime) : runtime :=
  mkRuntime t (logger r) (trigger r) (jobsChan r) (resChan r) (postScan r)
    (recv_openPorts r) (recv_jobsStarted r) (running r).
Definition log (es : list logEntry) (r : runtime) : runtime :=
  mkRuntime (tgt r) (logger r ++ es) (trigger r) (jobsChan r) (resChan r)
    (postScan r) (recv_openPorts r) (recv_jobsStarted r) (running r).
Definition set_trigger (q : list string) (r : runtime) : runtime :=
  mkRuntime (tgt r) (logger r) q (jobsChan r) (resChan r) (postScan r)
    (recv_openPorts r) (recv_jobsStarted r) (running r).
Definition set_jobsChan (q : list jobMsg) (r : runtime) : runtime :=
  mkRuntime (tgt r) (logger r) (trigger r) q (resChan r) (postScan r)
    (recv_openPorts r) (recv_jobsStarted r) (running r).
Definition set_resChan (q : list jobMsg) (r : runtime) : runtime :=
  mkRuntime (tgt r) (logger r) (trigger r) (jobsChan r) q (postScan r)
    (recv_openPorts r) (recv_jobsStarted r) (running r).
Definition set_postScan (q : list ResMsg) (r : runtime) : runtime :=
  mkRuntime (tgt r) (logger r) (trigger r) (jobsChan r) (resChan r) q
    (recv_openPorts r) (recv_jobsStarted r) (running r).
Definition set_recv (o : gmap string (list string)) (j : gmap string Z)
    (r : runtime) : runtime :=
  mkRuntime (tgt r) (logger r) (trigger r) (jobsChan r) (resChan r)
    (postScan r) o j (running r).
Definition stop (r : runtime) : runtime :=
  mkRuntime (tgt r) (logger r) (trigger r) (jobsChan r) (resChan r)
    (postScan r) (recv_openPorts r) (recv_jobsStarted r) false.

(** One firing of [ticker] (the first one or a later tick), [now] being
    [time.Now()]: [t.setTimeTo(proto, time.Now()); trigger <- proto]. *)
Definition ticker (now : Time) (proto : string) (r : runtime) : runtime :=
  set_trigger (trigger r ++ [proto]) (set_tgt (setTimeTo proto now (tgt r)) r).

(** The body of the trigger loop of [Run] for one received [proto];
    [jobID] is what [common.GenerateRandomString(10)] returns. *)
Definition Run_trigger (jobID : string) (proto : string) (r : runtime)
  : result runtime :=
  if IsZero (default zeroTime (t_startTime (tgt r) !! proto)) then
    Ok (log [Msgf WarnLevel "%s: a scan already started" [AStr (t_name (tgt r))]] r)
  else
    match createJobs (tgt r) proto with
    | Ok jobs =>
        Ok (set_jobsChan
              (jobsChan r ++
               ((λ j, mkJobMsg jobID (len jobs) (j_ip j) (j_protocol j) (j_ports j))
                  <$> jobs)) r)
    | Err _ => Ok (stop (log [Msgf ErrorLevel "error creating jobs" []] r))
    | Panic why => Panic why
    end.

(** [Run] takes the next trigger, if there is one and it has not
    returned. *)
Definition Run_step (jobID : string) (r : runtime) : result runtime :=
  match trigger r with
  | proto :: q => if running r then Run_trigger jobID proto (set_trigger q r) else Ok r
  | [] => Ok r
  end.

(** *** worker

    The three probes talk to the network; what they return is taken as
    given, as Go pairs [(success, err)]. ([tcpScan] returns once its
    retries on file-descriptor exhaustion are over.) *)
Record probes : Type := mkProbes {
  tcpScan : string → string → bool;
  udpScan : string → string → bool * option error;
  icmpScan : string → bool * option error
}.

(** [for _, p := range job.ports] of the ["tcp"] case: [open] is
    [res.ports], [lg] what has been logged. *)
Fixpoint worker_tcp (pr : probes) (ip proto : string) (ports : list string)
    (open : list string) (lg : list logEntry) : list string * list logEntry :=
  match ports with
  | [] => (open, lg)
  | p :: ports' =>
      if tcpScan pr ip p then
        worker_tcp pr ip proto ports' (open ++ [p])
          (lg ++ [Msgf DebugLevel "%s/%s open" [AStr p; AStr proto]])
      else worker_tcp pr ip proto ports' open lg
  end.

(** The same loop of the ["udp"] case; its [continue] goes to the next
    port. *)
Fixpoint worker_udp (pr : probes) (ip proto : string) (ports : list string)
    (open : list string) (lg : list logEntry) : list string * list logEntry :=
  match ports with
  | [] => (open, lg)
  | p :: ports' =>
      match udpScan pr ip p with
      | (_, Some err) =>
          worker_udp pr ip proto ports' open
            (lg ++ [Msgf WarnLevel "error while scanning udp: %v" [AErr err]])
      | (true, None) =>
          worker_udp pr ip proto ports' (open ++ [p])
            (lg ++ [Msgf DebugLevel "%s/%s open" [AStr p; AStr proto]])
      | (false, None) => worker_udp pr ip proto ports' open lg
      end
  end.

(** The body of the worker loop for one received [job]: what it logs
    and what it sends on [resChan], if anything. In the ["icmp"] case
    the [continue] is that of the enclosing [for]: the worker goes back
    to waiting for a job. A protocol the [switch] does not list sends
    nothing. *)
Definition worker_job (pr : probes) (name : string) (job : jobMsg)
  : list logEntry * option jobMsg :=
  let res ports := mkJobMsg (j_id job) (j_jobCount job) (j_ip job) (j_protocol job) ports in
  if String.eqb (j_protocol job) "tcp" then
    let '(open, lg) := worker_tcp pr (j_ip job) (j_protocol job) (j_ports job) [] [] in
    (lg, Some (res open))
  else if String.eqb (j_protocol job) "udp" then
    let '(open, lg) := worker_udp pr (j_ip job) (j_protocol job) (j_ports job) [] [] in
    (lg, Some (res open))
  else if String.eqb (j_protocol job) "icmp" then
    match icmpScan pr (j_ip job) with
    | (_, Some err) =>
        ([Msgf WarnLevel "error while scanning tcp: %v" [AErr err]], None)
    | (true, None) =>
        ([Msgf DebugLevel "%s responds" [AStr (j_protocol job)]], Some (res ["1"%string]))
    | (false, None) =>
        ([Msgf WarnLevel "%s/%s doesn't responds" [AStr name; AStr (j_protocol job)]],
         Some (res []))
    end
  else ([], None).

(** A worker takes the next job, if there is one. *)
Definition worker_step (pr : probes) (r : runtime) : runtime :=
  match jobsChan r with
  | job :: q =>
      let '(lg, sent) := worker_job pr (t_name (tgt r)) job in
      let r := log lg (set_jobsChan q r) in
      match sent with
      | Some res => set_resChan (resChan r ++ [res]) r
      | None => r
      end
  | [] => r
  end.

(** *** receiver *)

(** [time.Since(start)] read at instant [now]; [Time.Sub] saturates. *)
Definition Since (now start : Time) : Z :=
  Z.max int_min (Z.min int_max (now - start)).

(** The body of the receiver loop for one received [res], [now] being
    the clock at that moment. *)
Definition receiver_result (now : Time) (res : jobMsg) (r : runtime) : runtime :=
  let started := wrap64 (default 0 (recv_jobsStarted r !! j_id res) + 1) in
  let open := default [] (recv_openPorts r !! j_id res) ++ j_ports res in
  let r := set_recv (<[j_id res := open]> (recv_openPorts r))
                    (<[j_id res := started]> (recv_jobsStarted r)) r in
  if started =? j_jobCount res then
    let t := tgt r in
    let icmp := String.eqb (j_protocol res) "icmp" in
    let r :=
      if icmp then r
      else log [Msgf InfoLevel "%s/%s scan duration %s"
                  [AStr (t_name t); AStr (j_protocol res);
                   ADuration (Since now (default zeroTime (t_startTime t !! j_protocol res)))]] r in
    let r := set_tgt (setTimeTo (j_protocol res) zeroTime t) r in
    let '(unexpectedPorts, closedPorts, err) :=
      if icmp then ([], [], None) else checkAccordance t (j_protocol res) open in
    let r :=
      match err with
      | Some e => log [Msgf ErrorLevel "error occured while checking port accordance: %s" [AErr e]] r
      | None => r
      end in
    let r := log (recap (t_name t) unexpectedPorts closedPorts) r in
    set_postScan
      (postScan r ++
       [mkResMsg (t_name t) (j_ip res) (j_protocol res) open unexpectedPorts closedPorts]) r
  else r.

(** The receiver takes the next partial result, if there is one. *)
Definition receiver_step (now : Time) (r : runtime) : runtime :=
  match resChan r with
  | res :: q => receiver_result now res (set_resChan q r)
  | [] => r
  end.

(** The receiver handling a sequence of partial results, each with the
    clock at its arrival. *)
Definition receiver_run (arrivals : list (Time * jobMsg)) (r : runtime) : runtime :=
  foldl (λ r a, receiver_result a.1 a.2 r) r arrivals.

(** *** getWantedProto *)

Definition getWantedProto (t : Target) : list string :=
  let period_of proto := period (default protocol_zero (t_protos t !! proto)) in
  let protoList := [] in
  let protoList :=
    if negb (String.eqb (period_of "tcp"%string) "") then protoList ++ ["tcp"%string]
    else protoList in
  let protoList :=
    if negb (String.eqb (period_of "udp"%string) "") then protoList ++ ["udp"%string]
    else protoList in
  let protoList :=
    if negb (String.eqb (period_of "icmp"%string) "") then protoList ++ ["icmp"%string]
    else protoList in
  protoList.

(** *** scheduler

    The three cases of the switch differ in the name of the ticker
    variable only. On an error of [getDuration] the frequency is the zero
    duration it returns next to the error. What [scheduler] leaves is its
    log lines and the tickers it started, each with its protocol and its
    period, in the order of the [go t.ticker(...)] statements. *)
Fixpoint scheduler (ParseDuration : string → result Z) (t : Target)
    (protocols : list string) : result (list logEntry * list (string * Z)) :=
  match protocols with
  | [] => Ok ([], [])
  | proto :: protocols' =>
      if String.eqb proto "tcp" || String.eqb proto "udp" || String.eqb proto "icmp" then
        match getDuration ParseDuration
                (period (default protocol_zero (t_protos t !! proto))) with
        | Panic why => Panic why
        | got =>
            let freq := match got with Ok d => d | _ => 0 end in
            let lg :=
              match got with
              | Err err =>
                  [Msgf ErrorLevel "error getting %s frequency in scheduler: %s"
                     [AStr proto; AErr err]]
              | _ => []
              end in
            protTicker ← Go.NewTicker freq;
            '(lg', tickers) ← scheduler ParseDuration t protocols';
            Ok (lg ++ lg', (proto, protTicker) :: tickers)
        end
      else scheduler ParseDuration t protocols'
  end.

(** *** tcpScan, udpScan against the network *)

(** What [net.DialTimeout] answers: a connection, or an error with its
    message. *)
Inductive dialAnswer : Type :=
  | Connected
  | DialError (msg : string).

(** [tcpScan], given the answers its successive dials get. It returns
    whether the port responds and how many times it slept two seconds
    before; [None] when the answers listed run out while it is still
    retrying. *)
Fixpoint tcpScan_net (answers : list dialAnswer) : option (bool * nat) :=
  match answers with
  | [] => None
  | Connected :: _ => Some (true, O)
  | DialError msg :: answers' =>
      if Go.ContainsString msg "too many open files" then
        '(responds, slept) ← tcpScan_net answers'; Some (responds, S slept)
      else Some (false, O)
  end.

(** What the network answers to one [udpScan]: the errors of
    [net.ResolveUDPAddr] and [net.DialUDP], if any, and of each of the
    writes. *)
Record udpAnswers : Type := mkUdpAnswers {
  resolve_err : option error;
  dial_err : option error;
  write_err : nat → option error
}.

(** The [for i := 0; i < 3; i++] loop of [udpScan]: [i] counts up to 3,
    [todo] is the number of writes still to do. *)
Fixpoint udpScan_writes (n : udpAnswers) (todo : nat) (i : nat) (errorCount : Z) : Z :=
  match todo with
  | O => errorCount
  | S todo' =>
      match write_err n i with
      | Some _ => udpScan_writes n todo' (S i) (wrap64 (errorCount + 1))
      | None => udpScan_writes n todo' (S i) errorCount
      end
  end.

(** [udpScan]: its two results, and whether the deferred [conn.Close()]
    ran. *)
Definition udpScan_net (n : udpAnswers) : (bool * option error) * bool :=
  match resolve_err n with
  | Some err => ((false, Some err), false)
  | None =>
      match dial_err n with
      | Some err => ((false, Some err), false)
      | None => ((udpScan_writes n 3 0 0 <=? 0, None), true)
      end
  end.

(** *** icmpScan against the network *)



(** *** The goroutines of a target, side by side

    [Run] starts [t.workers] workers and one receiver, which run side by
    side. A worker holds one job at a time, taken from the head of
    [jobsChan]: the jobs in the hands of the workers are among the first
    [t.workers] jobs that are queued and not done, and any of them may
    be the next one done; the worker then logs and sends what
    [worker_step] does for a job at the head of the queue. With no
    worker ([t.workers] at most 0) no job is ever taken. The receiver
    takes the head of [resChan]; [now] is the clock at that moment. The
    capacity of the channels (3 × [t.workers]) is left out: a full
    channel makes a sender wait and changes nothing else. *)
Inductive scan_step (pr : probes) : runtime → runtime → Prop :=
  | worker_completes r q1 job q2 :
      jobsChan r = q1 ++ job :: q2 →
      len q1 < t_workers (tgt r) →
      scan_step pr r (worker_step pr (set_jobsChan (job :: q1 ++ q2) r))
  | receiver_takes r now :
      resChan r ≠ [] →
      scan_step pr r (receiver_step now r).

End scan.

(** ** Package metrics, the [Server] variant *)

Module server.

(** [NewMetrics], what transits between scan and metrics. *)
Record NewMetrics : Type := mkNewMetrics {
  Name : string;
  IP : string;
  Diff : Z;
  Open : list string;
  Closed : list string;
  Expected : list string
}.

(** The gauges and gauge vectors of [Server]; the vectors are indexed by
    their label values [(name, ip)]. *)
Record Server : Type := mkServer {
  notRespondingList : gmap string bool;
  numOfTargets : Z;
  numOfDownTargets : Z;
  uptime : Z;
  unexpectedPorts : gmap (string * string) Z;
  openPorts : gmap (string * string) Z;
  closedPorts : gmap (string * string) Z;
  diffPorts : gmap (string * string) Z
}.

(** The state of the [Updater] loop: the server and the two slices
    declared before the loop. *)
Record updater : Type := mkUpdater {
  srv : Server;
  loc_unexpectedPorts : list string;
  loc_closedPorts : list string;
  srv_log : list logEntry
}.

(** [for _, port := range l { if !common.StringInSlice(port, other) {
    acc = append(acc, port) } }] *)
Fixpoint appendMissing (l other acc : list string) : list string :=
  match l with
  | [] => acc
  | port :: l' =>
      if common.StringInSlice port other then appendMissing l' other acc
      else appendMissing l' other (acc ++ [port])
  end.

(** The body of the [Updater] loop for one received [nm]. *)
Definition Updater_msg (nm : NewMetrics) (u : updater) : updater :=
  let key := (Name nm, IP nm) in
  let s := srv u in
  let diffPorts := <[key := Diff nm]> (diffPorts s) in
  let lg := srv_log u ++
            [Msgf InfoLevel "%s (%s) open ports: %s"
               [AStr (Name nm); AStr (IP nm); AStrs (Open nm)]] in
  let openPorts := <[key := len (Open nm)]> (openPorts s) in
  let unexpected := appendMissing (Open nm) (Expected nm) (loc_unexpectedPorts u) in
  let unexpectedPorts := <[key := len unexpected]> (unexpectedPorts s) in
  let lg :=
    if negb (len unexpected =? 0) then
      lg ++ [Msgf InfoLevel "%s (%s) unexpected open ports: %s"
               [AStr (Name nm); AStr (IP nm); AStrs unexpected]]
    else lg in
  let closed := appendMissing (Expected nm) (Open nm) (loc_closedPorts u) in
  let closedPorts := <[key := len closed]> (closedPorts s) in
  let lg :=
    if negb (len closed =? 0) then
      lg ++ [Msgf InfoLevel "%s (%s) unexpected closed ports: %s"
               [AStr (Name nm); AStr (IP nm); AStrs closed]]
    else lg in
  mkUpdater
    (mkServer (notRespondingList s) (numOfTargets s) (numOfDownTargets s) (uptime s)
       unexpectedPorts openPorts closedPorts diffPorts)
    [] [] lg.

(** [Updater] started on server [s] and handling the messages [nms] in
    turn. *)
Definition Updater (s : Server) (nms : list NewMetrics) : updater :=
  foldl (λ u nm, Updater_msg nm u) (mkUpdater s [] [] []) nms.

End server.

(** ** Vocabulary of the specification

    The notions the properties below are stated with. Those named
    [spec_...] follow the words of the specification; the others name a
    part of the embedded code or describe what it accepts. *)

Module spec.

Import scan metrics.

(** *** Port-range expressions *)

(** "a single integer in [1,65535]" *)
Definition spec_single (tok : string) : bool :=
  negb (Go.Contains tok "-") &&
  match Go.Atoi tok with
  | Ok n => (1 <=? n) && (n <=? 65535)
  | _ => false
  end.

(** "lo-hi with 1 ≤ lo ≤ hi ≤ 65535" *)
Definition spec_range (tok : string) : bool :=
  match Go.Split tok "-" with
  | [a; b] =>
      match Go.Atoi a, Go.Atoi b with
      | Ok lo, Ok hi => (1 <=? lo) && (lo <=? hi) && (hi <=? 65535)
      | _, _ => false
      end
  | _ => false
  end.

(** "Each token is either the literal all, the literal reserved, a
    single integer, or lo-hi." *)
Definition spec_token (tok : string) : bool :=
  String.eqb tok "all" || String.eqb tok "reserved" || spec_single tok || spec_range tok.

(** "Empty tokens are skipped." *)
Definition spec_accepts (expr : string) : bool :=
  forallb (λ tok, String.eqb tok "" || spec_token tok) (Go.Split expr ",").

(** The dash-separated fields of a token; a token without a dash is its
    own only field. *)
Definition fields (tok : string) : list string :=
  if Go.Contains tok "-" then Go.Split tok "-" else [tok].

(** The bounds a token is read as: its first and its last field, each
    as [strconv.Atoi] reads it. *)
Definition reads_as (tok : string) (lo hi : Z) : Prop :=
  ∃ first final,
    head (fields tok) = Some first ∧ last (fields tok) = Some final ∧
    Go.Atoi first = Ok lo ∧ Go.Atoi final = Ok hi.

(** The tokens [readPortsRange] accepts. *)
Definition accepted_token (tok : string) : Prop :=
  tok = "all"%string ∨ tok = "reserved"%string ∨
  ∃ lo hi, reads_as tok lo hi ∧ 0 ≤ lo ≤ hi ≤ 65535.

(** A token [readPortsRange] lets through: an empty one, which it skips,
    or one it accepts. *)
Definition token_ok (tok : string) : Prop := tok = ""%string ∨ accepted_token tok.

(** *** Job planning *)

(** The job [createJobs] makes of a slice of the port list. *)
Definition job_of (t : Target) (proto : string) (chunk : list string) : jobMsg :=
  mkJobMsg "" 0 (t_ip t) proto chunk.

(** "let d = len(ports) / workers, r = len(ports) − d·workers; produce
    r slices of size d+1 followed by workers − r slices of size d.
    Slices of size zero are omitted." *)
Definition spec_sizes (n workers : Z) : list Z :=
  let d := n ÷ workers in
  let r := n - d * workers in
  replicate (Z.to_nat r) (d + 1) ++
  (if d =? 0 then [] else replicate (Z.to_nat (workers - r)) d).

(** *** Periods *)

Definition is_numeric (c : ascii) : bool := Go.Contains "0123456789." c.

Fixpoint has_numeric (s : string) : bool :=
  match s with
  | EmptyString => false
  | String c s' => is_numeric c || has_numeric s'
  end.

(** The unit suffix of a period: what follows its last digit. *)
Fixpoint unit_suffix (s : string) : string :=
  match s with
  | EmptyString => EmptyString
  | String c s' =>
      if has_numeric s' then unit_suffix s'
      else if is_numeric c then s' else s
  end.

(** "unit suffixes h, m, s ... or <n>d" *)
Definition spec_suffix (period : string) : bool :=
  bool_decide (unit_suffix period ∈ ["h"; "m"; "s"; "d"]%string).

(** *** Aggregation *)

(** A list of ports in numeric-ascending order: every port reads as an
    integer, and the integers ascend. *)
Definition numeric_ascending (ports : list string) : Prop :=
  ∃ holder, atoiAll ports = Ok holder ∧ Sorted Z.le holder.

(** The counter [receiver] holds for the scan of [res] once [res] is
    counted, and the ports it then holds for that scan. *)
Definition started_after (res : jobMsg) (r : runtime) : Z :=
  wrap64 (default 0 (recv_jobsStarted r !! j_id res) + 1).

Definition open_after (res : jobMsg) (r : runtime) : list string :=
  default [] (recv_openPorts r !! j_id res) ++ j_ports res.

(** The two accordance lists [receiver] puts in an outcome. *)
Definition accordance (t : Target) (proto : string) (open : list string)
  : list string * list string :=
  if String.eqb proto "icmp" then ([], [])
  else ((checkAccordance t proto open).1.1, (checkAccordance t proto open).1.2).

(** The partial results of one scan, each with the clock at its
    arrival: all tagged [sid], all carrying the number of jobs of the
    scan, which is the number of partials. *)
Definition partials_of (sid : string) (arrivals : list (Time * jobMsg)) : Prop :=
  Forall (λ a, j_id a.2 = sid ∧ j_jobCount a.2 = len arrivals) arrivals.

(** The receiver has not seen the scan identifier yet. *)
Definition unseen (sid : string) (r : runtime) : Prop :=
  recv_jobsStarted r !! sid = None ∧ recv_openPorts r !! sid = None.

(** The port lists of the partials, one after the other. *)
Definition ports_of (arrivals : list (Time * jobMsg)) : list string :=
  mjoin (j_ports ∘ snd <$> arrivals).

(** *** ICMP down-host tracking *)

(** "ICMP down-gauge equals the cardinality of the down-host set", the
    set holding no host twice. *)
Definition down_consistent (s : pkg) : Prop :=
  numOfDownTargets s = len (notRespondingList s) ∧ NoDup (notRespondingList s).

(** *** The Redis client *)

(** The states the package variables go through while the process
    lives: the initial ones, and those a completed call of an exported
    function leaves. *)
Inductive reachable (w : world) : pkg → Prop :=
  | reach_init : reachable w pkg_init
  | reach_StartServ s n s' lg :
      reachable w s → StartServ w n s = Ok (s', lg) → reachable w s'
  | reach_Handle s res s' err :
      reachable w s → Handle w res s = Ok (s', err) → reachable w s'.

(** Two worlds that answer alike whenever the client pointer is [nil]. *)
Definition same_on_nil (w w' : world) : Prop :=
  (∀ k, SMembers w None k = SMembers w' None k) ∧
  (∀ k, Del w None k = Del w' None k) ∧
  (∀ k v, SAdd w None k v = SAdd w' None k v).

(** *** Ports, options and configured targets *)

(** A port as [readPortsRange] writes it: the decimal form of an integer
    between 0 and 65535. *)
Definition port_string (p : string) : Prop :=
  ∃ n, 0 ≤ n ≤ 65535 ∧ p = Go.Itoa n.

(** The protocols [setPorts] takes. *)
Definition known_protocols : list string := ["udp"; "tcp"; "icmp"]%string.

(** An option [New] goes through: a protocol [setPorts] takes and a
    range [readPortsRange] reads. *)
Definition option_ok (opt : string * string * string * string) : Prop :=
  let '(proto, _, rng, _) := opt in
  proto ∈ known_protocols ∧ is_Ok (readPortsRange rng) = true.

(** What [setPorts] leaves in the two maps of a target: a protocol has a
    configuration exactly when it has a port list, the protocol is one
    of the three, and the port list is what its range reads as. *)
Definition configured (t : Target) : Prop :=
  ∀ proto,
    match t_protos t !! proto with
    | Some pr =>
        proto ∈ known_protocols ∧
        ∃ ports, t_portsToScan t !! proto = Some ports ∧
                 readPortsRange (rng pr) = Ok ports
    | None => t_portsToScan t !! proto = None
    end.

(** [t.protos[proto].period]. *)
Definition period_of (t : Target) (proto : string) : string :=
  period (default protocol_zero (t_protos t !! proto)).

(** A protocol [scheduler] can start a ticker for: when it is one of
    the three, its period reads as a positive duration. *)
Definition schedulable (ParseDuration : string → result Z) (t : Target)
    (proto : string) : Prop :=
  proto ∈ ["tcp"; "udp"; "icmp"]%string →
  ∃ d, getDuration ParseDuration (period_of t proto) = Ok d ∧ 0 < d.

(** *** Probes *)

(** A dial that fails for want of file descriptors. *)
Definition exhausted (a : dialAnswer) : Prop :=
  match a with
  | Connected => False
  | DialError msg => Go.ContainsString msg "too many open files" = true
  end.

Definition connected (a : dialAnswer) : bool :=
  match a with Connected => true | DialError _ => false end.

(** Whether a worker counts port [p] as open: for ["tcp"] the verdict
    of [tcpScan], otherwise that of [udpScan] when it comes with no
    error. *)
Definition responds (pr : probes) (proto ip p : string) : bool :=
  if String.eqb proto "tcp" then tcpScan pr ip p
  else match udpScan pr ip p with (true, None) => true | _ => false end.

(** What a worker logs for port [p]. *)
Definition port_log (pr : probes) (proto ip p : string) : list logEntry :=
  if String.eqb proto "tcp" then
    if tcpScan pr ip p then [Msgf DebugLevel "%s/%s open" [AStr p; AStr proto]] else []
  else
    match udpScan pr ip p with
    | (_, Some err) => [Msgf WarnLevel "error while scanning udp: %v" [AErr err]]
    | (true, None) => [Msgf DebugLevel "%s/%s open" [AStr p; AStr proto]]
    | (false, None) => []
    end.

(** The partial result a worker sends for a TCP or UDP job. *)
Definition worker_res (pr : probes) (job : jobMsg) : jobMsg :=
  mkJobMsg (j_id job) (j_jobCount job) (j_ip job) (j_protocol job)
    (filter (λ p, responds pr (j_protocol job) (j_ip job) p = true) (j_ports job)).

(** *** One scan, from the tick to the outcome *)

(** Nothing is queued and [Run] has not returned. *)
Definition idle (r : runtime) : Prop :=
  trigger r = [] ∧ jobsChan r = [] ∧ resChan r = [] ∧ running r = true.

(** No job is waiting or in the hands of a worker, and no partial
    result is waiting for the receiver. *)
Definition quiescent (r : runtime) : Prop :=
  jobsChan r = [] ∧ resChan r = [].

(** The partial results the workers send for [jobs], job by job: what
    [worker_job] sends for each, if anything. *)
Definition sent_for (pr : probes) (name : string) (jobs : list jobMsg) : list jobMsg :=
  omap (λ job, (worker_job pr name job).2) jobs.

(** What the receiver reads and writes of the runtime. *)
Definition recv_view (r : runtime)
  : Target * list ResMsg * gmap string (list string) * gmap string Z :=
  (tgt r, postScan r, recv_openPorts r, recv_jobsStarted r).


(** *** Results handled in turn *)

(** [Handle] called on each message in turn, the error it returns being
    left to the caller. *)
Fixpoint Handle_all (w : world) (msgs : list ResMsg) (s : pkg) : result pkg :=
  match msgs with
  | [] => Ok s
  | res :: msgs' => '(s', _) ← Handle w res s; Handle_all w msgs' s'
  end.

(** Whether the latest ICMP result about [ip] among [msgs] had no open
    port; [down] when there is none. *)
Definition reported_down (msgs : list ResMsg) (ip : string) (down : bool) : bool :=
  foldl (λ down res,
           if String.eqb (Protocol res) "icmp" && String.eqb (IP res) ip
           then bool_decide (OpenPorts res = []) else down) down msgs.

(** *** The gauges of the [Server] variant *)

(** The ports of [nm] that are open and not expected, and those
    expected and not open. *)
Definition unexpected_of (nm : server.NewMetrics) : list string :=
  filter (λ port, port ∉ server.Expected nm) (server.Open nm).
Definition closed_of (nm : server.NewMetrics) : list string :=
  filter (λ port, port ∉ server.Open nm) (server.Expected nm).

(** The values of the four gauge vectors of [s] for the labels [k]. *)
Definition gauges (s : server.Server) (k : string * string)
  : option Z * option Z * option Z * option Z :=
  (server.diffPorts s !! k, server.openPorts s !! k,
   server.unexpectedPorts s !! k, server.closedPorts s !! k).

(** *** Scans in flight together *)

(** The partial results of scan [sid] among [arrivals]. *)
Definition of_scan (sid : string) (arrivals : list (Time * jobMsg))
  : list (Time * jobMsg) :=
  filter (λ a, j_id a.2 = sid) arrivals.

(** *** Concrete inputs *)

(** A target scanning TCP ports 1337 and 23 with two workers and
    expecting 80 and 22 to be open. *)
Definition web : Target :=
  mkTarget "web" "10.0.0.1" 2
    (<["tcp"%string := mkProtocol "1h" "1337,23" "80,22"]> ∅) ∅
    (<["tcp"%string := ["1337"; "23"]%string]> ∅).

(** A target scanning TCP ports 1 to 10 with three workers. *)
Definition wide : Target :=
  mkTarget "wide" "10.0.0.2" 3
    (<["tcp"%string := mkProtocol "1h" "1-10" ""]> ∅) ∅
    (<["tcp"%string := Go.Itoa <$> seqZ 1 10]> ∅).

(** A world with a Redis server that answers; a call through a [nil]
    client dereferences it. *)
Definition live : world :=
  mkWorld (λ _, ""%string) (λ u, Ok (mkOptions u)) mkClient (λ _, Ok "PONG"%string)
    (λ c _, match c with Some _ => Ok [] | None => Panic "nil pointer dereference" end)
    (λ c _, match c with Some _ => Ok () | None => Panic "nil pointer dereference" end)
    (λ c _ _, match c with Some _ => Ok () | None => Panic "nil pointer dereference" end).


(** A target whose UDP range is empty. *)
Definition quiet : Target :=
  mkTarget "quiet" "10.0.0.3" 4
    (<["udp"%string := mkProtocol "1h" "" ""]> ∅) ∅
    (<["udp"%string := []]> ∅).

(** A target that is pinged. *)
Definition gateway : Target :=
  mkTarget "gateway" "10.0.0.4" 1
    (<["icmp"%string := mkProtocol "30s" "" ""]> ∅) ∅
    (<["icmp"%string := []]> ∅).

(** A target whose expected ports do not read as a port expression. *)
Definition mistyped : Target :=
  mkTarget "mistyped" "10.0.0.5" 1
    (<["tcp"%string := mkProtocol "1h" "80" "http"]> ∅) ∅
    (<["tcp"%string := ["80"%string]]> ∅).

(** A network on which port 23 alone answers, and ping is answered. *)
Definition only23 : probes :=
  mkProbes (λ _ p, String.eqb p "23") (λ _ _, (false, None)) (λ _, (true, None)).

End spec.

(** * Properties *)

Lemma wrap64_id z : int_min ≤ z ≤ int_max → wrap64 z = z.
Proof.
  unfold wrap64, int_min, int_max. intros H.
  rewrite Z.mod_small; lia.
Qed.

Lemma bind_Ok {A B} (a : A) (k : A → result B) : (Ok a ≫= k) = k a.
Proof. reflexivity. Qed.

Lemma bind_ret {A} (r : result A) : (a ← r; Ok a) = r.
Proof. by destruct r. Qed.

(** ** The library functions *)

Module GoFacts.

Import Go.

Example Split_ex : Split "22,80,,1000-1002" "," = ["22"; "80"; ""; "1000-1002"]%string.
Proof. reflexivity. Qed.

Example Atoi_ex :
  Atoi "+65535" = Ok 65535 ∧ Atoi "-" = Err (ErrSyntax "Atoi" "-") ∧
  Atoi "9223372036854775808" = Err (ErrRange "Atoi" "9223372036854775808") ∧
  Atoi "-9223372036854775808" = Ok int_min.
Proof. repeat split. Qed.

Example Itoa_ex :
  Itoa 0 = "0"%string ∧ Itoa (-120) = "-120"%string ∧
  Itoa int_max = "9223372036854775807"%string ∧
  Itoa int_min = "-9223372036854775808"%string.
Proof. repeat split. Qed.

(** *** Split, Contains, ContainsAny *)

Lemma Split_cons s sep : ∃ tok rest, Split s sep = tok :: rest.
Proof.
  induction s as [|c s (tok & rest & IH)]; simpl; [by eauto|].
  destruct (byte_eqb c sep); [by eauto|]. rewrite IH. by eauto.
Qed.

Lemma Split_no_sep s sep : Forall (λ tok, Contains tok sep = false) (Split s sep).
Proof.
  induction s as [|c s IH]; simpl; [by repeat constructor|].
  destruct (byte_eqb c sep) eqn:Hc; [by constructor|].
  destruct (Split s sep) as [|tok rest]; [by repeat constructor; simpl; rewrite Hc|].
  inversion_clear IH. constructor; [|done]. simpl. by rewrite Hc.
Qed.

Lemma Split_absent s sep : Contains s sep = false → Split s sep = [s].
Proof.
  induction s as [|c s IH]; simpl; [done|].
  intros [-> Hs]%orb_false_elim. by rewrite IH.
Qed.

Lemma Split_app_sep s1 s2 sep :
  Contains s1 sep = false →
  Split (s1 +:+ String sep s2) sep = s1 :: Split s2 sep.
Proof.
  induction s1 as [|c s1 IH]; simpl.
  - intros _. unfold byte_eqb. by rewrite Ascii.eqb_refl.
  - intros [-> Hs]%orb_false_elim. by rewrite IH.
Qed.

Lemma Contains_cons a s c : Contains (String a s) c = byte_eqb a c || Contains s c.
Proof. reflexivity. Qed.

Lemma ContainsAny_app s1 s2 chars :
  ContainsAny (s1 +:+ s2) chars = ContainsAny s1 chars || ContainsAny s2 chars.
Proof. induction s1 as [|c1 s1 IH]; simpl; [done|]. by rewrite IH, orb_assoc. Qed.

Lemma ContainsAny_false s chars :
  (∀ c, Contains chars c = true → Contains s c = false) → ContainsAny s chars = false.
Proof.
  induction s as [|c s IH]; simpl; [done|]. intros Hs.
  rewrite IH.
  - destruct (Contains chars c) eqn:Hc; [|done].
    specialize (Hs c Hc). simpl in Hs. unfold byte_eqb in Hs.
    by rewrite Ascii.eqb_refl in Hs.
  - intros c' Hc'. specialize (Hs c' Hc'). simpl in Hs.
    by apply orb_false_elim in Hs as [_ ?].
Qed.

(** *** Atoi *)

Lemma digits_nonneg s : ∀ n v, 0 ≤ n → digits s n = Some v → 0 ≤ v.
Proof.
  induction s as [|c s IH]; intros n v Hn; simpl; [naive_solver|].
  unfold digit. destruct (_ && _) eqn:Hc; [|done].
  apply IH. lia.
Qed.

(** Without a dash there is no minus sign. *)
Lemma Atoi_nonneg s v : Contains s "-" = false → Atoi s = Ok v → 0 ≤ v.
Proof.
  destruct s as [|c rest]; [done|]. simpl.
  intros [Hc _]%orb_false_elim. rewrite Hc. cbn [orb].
  destruct (byte_eqb c "+").
  - destruct rest as [|c' rest']; [done|].
    destruct (digits _ 0) as [n|] eqn:Hn; [|done].
    destruct (_ && _); [|done]. intros [= <-]. by eapply digits_nonneg.
  - destruct (digits _ 0) as [n|] eqn:Hn; [|done].
    destruct (_ && _); [|done]. intros [= <-]. by eapply digits_nonneg.
Qed.

Lemma Atoi_range s v : Atoi s = Ok v → int_min ≤ v ≤ int_max.
Proof.
  unfold Atoi. destruct s as [|c rest]; [done|].
  destruct (if _ : bool then rest else _); [done|].
  destruct (digits _ 0); [|done].
  destruct (_ && _) eqn:Hr; [|done]. intros [= <-].
  apply andb_true_iff in Hr as [?%Z.leb_le ?%Z.leb_le]. done.
Qed.

Lemma Atoi_no_panic s why : Atoi s ≠ Panic why.
Proof. unfold Atoi. by repeat case_match. Qed.

(** *** Itoa *)

Lemma digit_digitChar d : 0 ≤ d ≤ 9 → digit (digitChar d) = Some d.
Proof.
  intros Hd.
  assert (d = 0 ∨ d = 1 ∨ d = 2 ∨ d = 3 ∨ d = 4 ∨ d = 5 ∨ d = 6 ∨ d = 7 ∨
          d = 8 ∨ d = 9) as Hcases by lia.
  repeat (destruct Hcases as [->|Hcases]; [reflexivity|]). by subst.
Qed.

Lemma digitChar_decimal d : 0 ≤ d ≤ 9 → Contains "0123456789" (digitChar d) = true.
Proof.
  intros Hd.
  assert (d = 0 ∨ d = 1 ∨ d = 2 ∨ d = 3 ∨ d = 4 ∨ d = 5 ∨ d = 6 ∨ d = 7 ∨
          d = 8 ∨ d = 9) as Hcases by lia.
  repeat (destruct Hcases as [->|Hcases]; [reflexivity|]). by subst.
Qed.

Lemma digit_not_sign c d :
  digit c = Some d → byte_eqb c "-" = false ∧ byte_eqb c "+" = false.
Proof.
  intros Hc. unfold byte_eqb. split; apply Ascii.eqb_neq; intros ->; discriminate.
Qed.

Lemma formatBits_step fuel u acc :
  formatBits (S fuel) u acc =
    if u <? 10 then String (digitChar (u `mod` 10)) acc
    else formatBits fuel (u `div` 10) (String (digitChar (u `mod` 10)) acc).
Proof. reflexivity. Qed.

(** Reading back what [formatBits] wrote: the digits of [u] in front of
    [acc] extend the number read so far by [u]. *)
Lemma digits_formatBits fuel : ∀ u, 0 ≤ u < 10 ^ Z.of_nat fuel →
  ∃ k, 0 ≤ k ∧ ∀ acc n,
    digits (formatBits (S fuel) u acc) n = digits acc (n * 10 ^ k + u).
Proof.
  induction fuel as [|fuel IH]; intros u Hu.
  - exists 1. split; [done|]. intros acc n.
    assert (u = 0) as -> by (simpl in Hu; lia). reflexivity.
  - pose proof (Z.mod_pos_bound u 10) as Hmod.
    destruct (Z.ltb_spec u 10) as [Hlt|Hge].
    + exists 1. split; [done|]. intros acc n.
      rewrite formatBits_step, (proj2 (Z.ltb_lt u 10)) by done.
      cbn [digits]. rewrite digit_digitChar by lia.
      rewrite Z.mod_small by lia. f_equal; lia.
    + destruct (IH (u `div` 10)) as (k & Hk & Hread).
      { split; [apply Z.div_pos; lia|].
        apply Z.div_lt_upper_bound; [lia|].
        rewrite Nat2Z.inj_succ, Z.pow_succ_r in Hu by lia. lia. }
      exists (k + 1). split; [lia|]. intros acc n.
      rewrite formatBits_step, (proj2 (Z.ltb_ge u 10)) by done.
      rewrite Hread. cbn [digits]. rewrite digit_digitChar by lia.
      f_equal. rewrite Z.pow_add_r by lia.
      pose proof (Z.div_mod u 10). lia.
Qed.

Lemma formatBits_head fuel : ∀ u acc, 0 ≤ u →
  ∃ c rest d, formatBits (S fuel) u acc = String c rest ∧ digit c = Some d.
Proof.
  induction fuel as [|fuel IH]; intros u acc Hu;
    pose proof (Z.mod_pos_bound u 10) as Hmod.
  - exists (digitChar (u `mod` 10)), acc, (u `mod` 10). split.
    + simpl. by destruct (u <? 10).
    + apply digit_digitChar. lia.
  - rewrite formatBits_step. destruct (u <? 10).
    + exists (digitChar (u `mod` 10)), acc, (u `mod` 10). split; [done|].
      apply digit_digitChar. lia.
    + apply IH. apply Z.div_pos; lia.
Qed.

Lemma formatBits_chars fuel c : ∀ u acc,
  Contains (formatBits fuel u acc) c = true →
  Contains "0123456789" c = true ∨ Contains acc c = true.
Proof.
  induction fuel as [|fuel IH]; intros u acc; [by right|].
  assert (Hhead : Contains (String (digitChar (u `mod` 10)) acc) c = true →
                  Contains "0123456789" c = true ∨ Contains acc c = true).
  { rewrite Contains_cons. intros [Hc|Hc]%orb_true_iff; [left|by right].
    apply Ascii.eqb_eq in Hc as <-. apply digitChar_decimal.
    pose proof (Z.mod_pos_bound u 10). lia. }
  rewrite formatBits_step. destruct (u <? 10); [done|].
  intros [?|?]%IH; [by left|by apply Hhead].
Qed.

Lemma Atoi_unsigned u :
  0 ≤ u < 10 ^ 19 →
  ∃ c rest, formatBits 20 u EmptyString = String c rest ∧
    byte_eqb c "-" = false ∧ byte_eqb c "+" = false ∧
    digits (String c rest) 0 = Some u.
Proof.
  intros Hu.
  destruct (formatBits_head 19 u EmptyString) as (c & rest & d & Heq & Hd); [lia|].
  destruct (digits_formatBits 19 u) as (k & Hk & Hread); [done|].
  exists c, rest. destruct (digit_not_sign _ _ Hd) as [? ?].
  repeat split; try done.
  rewrite <- Heq, Hread. simpl. f_equal; lia.
Qed.

(** [Atoi] reads back what [Itoa] writes. *)
Lemma Atoi_Itoa z : int_min ≤ z ≤ int_max → Atoi (Itoa z) = Ok z.
Proof.
  unfold int_min, int_max. intros Hz. unfold Itoa.
  destruct (Z.ltb_spec z 0) as [Hneg|Hpos].
  - destruct (Atoi_unsigned (- z)) as (c & rest & -> & _ & _ & Hread); [lia|].
    unfold Atoi. change (byte_eqb "-" "-") with true. cbn [orb].
    rewrite Hread.
    rewrite (proj2 (andb_true_iff _ _)); [f_equal; lia|].
    unfold int_min, int_max. split; lia.
  - destruct (Atoi_unsigned z) as (c & rest & -> & Hm & Hp & Hread); [lia|].
    unfold Atoi. rewrite Hm, Hp. cbn [orb]. rewrite Hread.
    rewrite (proj2 (andb_true_iff _ _)); [done|].
    unfold int_min, int_max. split; lia.
Qed.

(** [Itoa] writes a minus sign and decimal digits only. *)
Lemma Itoa_chars i c :
  Contains (Itoa i) c = true → Contains "-0123456789" c = true.
Proof.
  rewrite (Contains_cons "-" "0123456789"). unfold Itoa. destruct (i <? 0).
  - rewrite Contains_cons. intros [Hc|Hc]%orb_true_iff; [by rewrite Hc|].
    apply formatBits_chars in Hc as [Hc|Hc]; [|done].
    by rewrite Hc, orb_true_r.
  - intros [Hc|Hc]%formatBits_chars; [|done].
    by rewrite Hc, orb_true_r.
Qed.

Lemma Contains_Itoa i c : Contains "-0123456789" c = false → Contains (Itoa i) c = false.
Proof.
  intros Hc. destruct (Contains (Itoa i) c) eqn:Hi; [|done].
  apply Itoa_chars in Hi. congruence.
Qed.

Lemma ContainsAny_Itoa_hms i : ContainsAny (Itoa i) "hms" = false.
Proof.
  apply ContainsAny_false. intros c Hc. apply Contains_Itoa.
  rewrite !Contains_cons in Hc. unfold byte_eqb in Hc.
  repeat (apply orb_true_iff in Hc as [Hc|Hc];
          [apply Ascii.eqb_eq in Hc as <-; reflexivity|]).
  done.
Qed.

End GoFacts.

(** ** Package scan *)

Module ScanFacts.

Import scan metrics spec GoFacts.

(** *** readPortsRange *)

(** S1 and S2 of the specification. In S1 the range 1000-1002 gives three
    ports, so the expansion has 5 + 1023 elements. *)
Example readPortsRange_S1 :
  (λ ports, (take 5 ports, length ports, last ports)) <$>
    (match readPortsRange "22,80,1000-1002,reserved" with
     | Ok ports => Some ports
     | _ => None
     end)
  = Some (["22"; "80"; "1000"; "1001"; "1002"]%string, 1028%nat, Some "1023"%string).
Proof. vm_compute. reflexivity. Qed.

Example readPortsRange_S2 :
  readPortsRange "80-70" =
    Err (Errorf "lower port %d is higher than high port %d" [AInt 80; AInt 70]).
Proof. reflexivity. Qed.

Lemma fields_no_dash tok : Forall (λ f, Go.Contains f "-" = false) (fields tok).
Proof.
  unfold fields. destruct (Go.Contains tok "-") eqn:Hc; [apply Split_no_sep|].
  by repeat constructor.
Qed.

(** What [readBounds] reads: the first and the last field of the token. *)
Lemma readBounds_fields tok :
  ∃ first final,
    head (fields tok) = Some first ∧ last (fields tok) = Some final ∧
    Go.Contains first "-" = false ∧
    readBounds tok =
      (min ← Go.Atoi first; max ← Go.Atoi final;
       if max <? min then
         Err (Errorf "lower port %d is higher than high port %d" [AInt min; AInt max])
       else if 65535 <? max then
         Err (Errorf "port %d is higher than max port" [AInt max])
       else Ok (min, max)).
Proof.
  pose proof (fields_no_dash tok) as Hnd.
  unfold readBounds, fields in *. destruct (Go.Contains tok "-") eqn:Hc; simpl.
  - destruct (Split_cons tok "-") as (first & rest & Heq). rewrite Heq in *.
    inversion_clear Hnd.
    destruct (last (first :: rest)) as [final|] eqn:Hlast.
    + exists first, final. by simpl.
    + by apply last_None in Hlast.
  - exists tok, tok. by simpl.
Qed.

Lemma readBounds_Ok tok lo hi :
  readBounds tok = Ok (lo, hi) ↔ reads_as tok lo hi ∧ 0 ≤ lo ≤ hi ≤ 65535.
Proof.
  destruct (readBounds_fields tok) as (first & final & Hh & Hl & Hnd & ->).
  unfold reads_as. rewrite Hh, Hl. split.
  - destruct (Go.Atoi first) as [min| |] eqn:Hmin; try done.
    destruct (Go.Atoi final) as [max| |] eqn:Hmax; try done. simpl.
    destruct (Z.ltb_spec max min); [done|]. destruct (Z.ltb_spec 65535 max); [done|].
    intros [= -> ->]. pose proof (Atoi_nonneg _ _ Hnd Hmin). split; [|lia].
    by exists first, final.
  - intros [(f1 & f2 & [= <-] & [= <-] & -> & ->) Hb]. simpl.
    rewrite (proj2 (Z.ltb_ge hi lo)), (proj2 (Z.ltb_ge 65535 hi)) by lia. done.
Qed.

Lemma readBounds_no_panic tok why : readBounds tok ≠ Panic why.
Proof.
  destruct (readBounds_fields tok) as (first & final & _ & _ & _ & ->).
  destruct (Go.Atoi first) as [lo|e|w] eqn:Hlo; simpl;
    [|done|by destruct (Atoi_no_panic first w)].
  destruct (Go.Atoi final) as [hi|e|w] eqn:Hhi; simpl;
    [|done|by destruct (Atoi_no_panic final w)].
  by repeat case_match.
Qed.

Lemma readPortsRange_loop_Ok parts : ∀ ports,
  is_Ok (readPortsRange_loop parts ports) = true ↔ Forall token_ok parts.
Proof.
  induction parts as [|tok parts IH]; intros ports; simpl.
  - split; [constructor|done].
  - rewrite Forall_cons. unfold token_ok at 1, accepted_token.
    destruct (String.eqb_spec tok "") as [->|Hne].
    { rewrite IH. split; [by split; [left|]|by intros [_ ?]]. }
    destruct (String.eqb_spec tok "all") as [->|Hall].
    { rewrite IH. split; [by split; [right; left|]|by intros [_ ?]]. }
    destruct (String.eqb_spec tok "reserved") as [->|Hres].
    { rewrite IH. split; [by split; [right; right; left|]|by intros [_ ?]]. }
    destruct (readBounds tok) as [[lo hi]| |] eqn:Hb; simpl.
    + rewrite IH. apply readBounds_Ok in Hb.
      split; [|by intros [_ ?]]. intros Hparts. split; [|done].
      right; right; right. by exists lo, hi.
    + split; [done|]. intros [[?|[?|[?|(lo & hi & Hr)]]] _]; try done.
      apply readBounds_Ok in Hr. congruence.
    + by apply readBounds_no_panic in Hb.
Qed.

Lemma readPortsRange_loop_no_panic parts : ∀ ports why,
  readPortsRange_loop parts ports ≠ Panic why.
Proof.
  induction parts as [|tok parts IH]; intros ports why; simpl; [done|].
  repeat case_match; try apply IH.
  destruct (readBounds tok) as [[lo hi]| |] eqn:Hb; simpl; [apply IH|done|].
  by apply readBounds_no_panic in Hb.
Qed.

Lemma readPortsRange_no_panic ranges why : readPortsRange ranges ≠ Panic why.
Proof. apply readPortsRange_loop_no_panic. Qed.

(** Every token form of the specification is one the code accepts. *)
Lemma spec_token_accepted tok : spec_token tok = true → accepted_token tok.
Proof.
  unfold spec_token, accepted_token.
  intros [[[Hall|Hres]%orb_true_iff|Hs]%orb_true_iff|Hr]%orb_true_iff.
  - left. by apply String.eqb_eq.
  - right; left. by apply String.eqb_eq.
  - right; right. unfold spec_single in Hs.
    apply andb_true_iff in Hs as [Hnd%negb_true_iff Hs].
    destruct (Go.Atoi tok) as [n| |] eqn:Hn; try done.
    exists n, n. split; [|lia].
    exists tok, tok. unfold fields. by rewrite Hnd.
  - right; right. unfold spec_range in Hr.
    destruct (Go.Split tok "-") as [|a [|b [|]]] eqn:Hsplit; try done.
    destruct (Go.Atoi a) as [lo| |] eqn:Hlo; try done.
    destruct (Go.Atoi b) as [hi| |] eqn:Hhi; try done.
    exists lo, hi. split; [|lia]. exists a, b. unfold fields.
    destruct (Go.Contains tok "-") eqn:Hc.
    + by rewrite Hsplit.
    + by rewrite Split_absent in Hsplit.
Qed.

(** C4, as the code has it. [readPortsRange] succeeds exactly when
    every non-empty comma-separated token is [all], [reserved], or a
    token whose first and last dash-separated fields read (by
    [strconv.Atoi]) as integers [lo] and [hi] with
    [0 ≤ lo ≤ hi ≤ 65535]: a token without a dash is its own first and
    last field, port 0 is accepted and the fields in between are not
    looked at. Otherwise it returns an error and does not panic. Every
    expression the specification accepts is accepted. *)
Theorem readPortsRange_accepts (expr : string) :
  (is_Ok (readPortsRange expr) = true ↔
     Forall (λ tok, tok = ""%string ∨ accepted_token tok) (Go.Split expr ",")) ∧
  (is_Ok (readPortsRange expr) = false → ∃ e, readPortsRange expr = Err e) ∧
  (spec_accepts expr = true → is_Ok (readPortsRange expr) = true).
Proof.
  split; [apply readPortsRange_loop_Ok|split].
  - pose proof (readPortsRange_no_panic expr) as Hnp.
    destruct (readPortsRange expr) as [ports|e|why]; [done|by exists e|].
    by destruct (Hnp why).
  - intros Hs. apply readPortsRange_loop_Ok, Forall_forall.
    intros tok Hin. unfold spec_accepts in Hs. rewrite forallb_forall in Hs.
    apply list_elem_of_In, Hs in Hin. apply orb_true_iff in Hin as [He|Ht].
    + left. by apply String.eqb_eq.
    + right. by apply spec_token_accepted.
Qed.

Lemma readPortsRange_accepts_witness :
  spec_accepts "22,,1000-1002" = true ∧
  is_Ok (readPortsRange "22,,1000-1002") = true.
Proof.
  split; [reflexivity|].
  apply (proj2 (proj2 (readPortsRange_accepts "22,,1000-1002"))). reflexivity.
Defined.

(** Against C4 as stated: the expression ["0"] is none of the token
    forms of the specification, and [readPortsRange] accepts it. *)
Lemma readPortsRange_accepts_port_zero :
  readPortsRange "0" = Ok ["0"%string] ∧ spec_accepts "0" = false.
Proof. split; reflexivity. Qed.

(** *** createJobs *)

Lemma slice_from {A} (s : list A) idx size :
  0 ≤ idx → 0 ≤ size → idx + size ≤ len s →
  slice s idx (idx + size) = Ok (take (Z.to_nat size) (drop (Z.to_nat idx) s)).
Proof.
  intros. unfold slice.
  rewrite (proj2 (Z.leb_le 0 idx)), (proj2 (Z.leb_le idx (idx + size))),
    (proj2 (Z.leb_le (idx + size) (len s))) by lia.
  simpl. do 3 f_equal. lia.
Qed.

Lemma drop_drop_Z {A} (s : list A) idx size :
  0 ≤ idx → 0 ≤ size →
  drop (Z.to_nat size) (drop (Z.to_nat idx) s) = drop (Z.to_nat (idx + size)) s.
Proof. intros. rewrite drop_drop. f_equal. lia. Qed.

Lemma sizes_reshape {A} sizes : ∀ l : list A,
  (sum_list sizes ≤ length l)%nat → length <$> reshape sizes l = sizes.
Proof.
  induction sizes as [|n sizes IH]; intros l Hl; simpl in *; [done|].
  rewrite length_take, IH by (rewrite length_drop; lia). f_equal. lia.
Qed.

Section planner.

Variables (t : Target) (proto : string) (ports : list string) (numBigger : Z).
Hypothesis Hlen : len ports ≤ int_max.

(** Past [numBigger] the loop cuts [todo] slices of the same size. *)
Lemma createJobs_loop_after todo : ∀ i idx size jobs,
  numBigger < i → 0 ≤ i → 0 < size → 0 ≤ idx →
  i + Z.of_nat todo ≤ int_max →
  idx + Z.of_nat todo * size ≤ len ports →
  createJobs_loop t proto ports numBigger todo i idx size jobs =
    Ok (jobs ++ (job_of t proto <$> reshape (replicate todo (Z.to_nat size))
                                 (drop (Z.to_nat idx) ports))).
Proof.
  induction todo as [|todo IH]; intros i idx size jobs Hi Hi0 Hs Hidx Hmax Hfit;
    simpl.
  - by rewrite app_nil_r.
  - rewrite (proj2 (Z.eqb_neq i numBigger)) by lia. simpl.
    assert (0 ≤ Z.of_nat todo * size) by nia.
    assert (Hfit' : idx + size + Z.of_nat todo * size ≤ len ports) by lia.
    assert (Hw : wrap64 (idx + size) = idx + size).
    { apply wrap64_id. unfold int_min, int_max in *. lia. }
    assert (Hi' : wrap64 (i + 1) = i + 1).
    { apply wrap64_id. unfold int_min, int_max in *. lia. }
    rewrite Hw, Hi', slice_from by lia. rewrite bind_Ok.
    clear Hw Hi'. rewrite IH by lia.
    rewrite <- app_assoc. simpl. by rewrite drop_drop_Z by lia.
Qed.

(** Up to [numBigger] the slices have size [d + 1]; at [numBigger]
    the size drops to [d], and the loop stops there when [d] is 0. *)
Lemma createJobs_loop_before (d : Z) k : ∀ m i idx jobs,
  0 ≤ d → 0 ≤ i → i + Z.of_nat k = numBigger → 0 ≤ idx →
  i + Z.of_nat (k + S m) ≤ int_max →
  idx + Z.of_nat k * (d + 1) + Z.of_nat (S m) * d ≤ len ports →
  createJobs_loop t proto ports numBigger (k + S m) i idx (d + 1) jobs =
    Ok (jobs ++
        (job_of t proto <$> reshape (replicate k (Z.to_nat (d + 1)) ++
                          (if d =? 0 then [] else replicate (S m) (Z.to_nat d)))
                   (drop (Z.to_nat idx) ports))).
Proof.
  induction k as [|k IH]; intros m i idx jobs Hd Hi Hnb Hidx Hmax Hfit.
  - cbn [Nat.add createJobs_loop replicate app].
    rewrite (proj2 (Z.eqb_eq i numBigger)) by lia. cbn [andb].
    replace (d + 1 - 1) with d by lia.
    assert (0 ≤ Z.of_nat m * d) by nia.
    rewrite (wrap64_id d) by (unfold int_min, int_max in *; lia).
    destruct (Z.eqb_spec d 0) as [->|Hd0].
    + by rewrite app_nil_r.
    + assert (Hw : wrap64 (idx + d) = idx + d).
      { apply wrap64_id. unfold int_min, int_max in *. lia. }
      assert (Hi' : wrap64 (i + 1) = i + 1).
      { apply wrap64_id. unfold int_min, int_max in *. lia. }
      rewrite Hw, Hi', slice_from by lia. rewrite bind_Ok.
      clear Hw Hi'. rewrite createJobs_loop_after by lia.
      rewrite <- app_assoc. simpl. by rewrite drop_drop_Z by lia.
  - cbn [Nat.add createJobs_loop replicate app].
    rewrite (proj2 (Z.eqb_neq i numBigger)) by lia. cbn [andb].
    assert (0 ≤ Z.of_nat k * (d + 1)) by nia.
    assert (0 ≤ Z.of_nat (S m) * d) by nia.
    assert (Hw : wrap64 (idx + (d + 1)) = idx + (d + 1)).
    { apply wrap64_id. unfold int_min, int_max in *. lia. }
    assert (Hi' : wrap64 (i + 1) = i + 1).
    { apply wrap64_id. unfold int_min, int_max in *. lia. }
    rewrite Hw, Hi', slice_from by lia. rewrite bind_Ok.
    clear Hw Hi'. rewrite IH by lia.
    rewrite <- app_assoc. simpl. by rewrite drop_drop_Z by lia.
Qed.

End planner.

(** S3 and S4 of the specification, and an empty port list. *)
Example createJobs_S3 :
  createJobs wide "tcp"
  = Ok [mkJobMsg "" 0 "10.0.0.2" "tcp" ["1"; "2"; "3"; "4"]%string;
        mkJobMsg "" 0 "10.0.0.2" "tcp" ["5"; "6"; "7"]%string;
        mkJobMsg "" 0 "10.0.0.2" "tcp" ["8"; "9"; "10"]%string].
Proof. reflexivity. Qed.

Example createJobs_S4 :
  createJobs (mkTarget "t" "10.0.0.3" 4 ∅ ∅ (<["udp"%string := ["1"; "2"]%string]> ∅)) "udp"
  = Ok [mkJobMsg "" 0 "10.0.0.3" "udp" ["1"%string];
        mkJobMsg "" 0 "10.0.0.3" "udp" ["2"%string]].
Proof. reflexivity. Qed.

Example createJobs_no_ports :
  createJobs (mkTarget "t" "10.0.0.3" 4 ∅ ∅ (<["udp"%string := []]> ∅)) "udp" = Ok [].
Proof. reflexivity. Qed.

(** C5. For a configured protocol other than ICMP, at least one worker
    and a port list (the two being Go integers), [createJobs] returns
    jobs whose port slices have the sizes the specification gives (r
    slices of size d+1, then workers − r of size d, none of size zero),
    whose slices put end to end are the port list, and whose number is
    the smaller of [workers] and [len(ports)]; every job carries the
    target's address and the protocol. *)
Theorem createJobs_balanced (t : Target) (proto : string) (ports : list string) :
  t_portsToScan t !! proto = Some ports →
  proto ≠ "icmp"%string →
  1 ≤ t_workers t ≤ int_max →
  len ports < int_max →
  ∃ jobs, createJobs t proto = Ok jobs ∧
    (len ∘ j_ports) <$> jobs = spec_sizes (len ports) (t_workers t) ∧
    mjoin (j_ports <$> jobs) = ports ∧
    len jobs = Z.min (t_workers t) (len ports) ∧
    Forall (λ j, j_ip j = t_ip t ∧ j_protocol j = proto) jobs.
Proof.
  intros Hports Hicmp [Hw1 Hw2] Hn.
  unfold createJobs. rewrite Hports, (proj2 (String.eqb_neq _ _)) by done.
  rewrite (proj2 (Z.eqb_neq _ 0)) by lia.
  set (w := t_workers t) in *. set (n := len ports) in *.
  assert (Hn0 : 0 ≤ n) by (unfold n, len; lia).
  rewrite Z.quot_div_nonneg by lia.
  set (d := n `div` w).
  assert (Hd : 0 ≤ d) by (apply Z.div_pos; lia).
  assert (Hdn : d * w ≤ n) by (unfold d; rewrite Z.mul_comm; apply Z.mul_div_le; lia).
  assert (Hr : n - d * w = n `mod` w) by (unfold d; rewrite Z.mod_eq by lia; lia).
  assert (Hrw : 0 ≤ n `mod` w < w) by (apply Z.mod_pos_bound; lia).
  assert (Hdw : 0 ≤ d * w) by nia.
  assert (Hdle : d ≤ n) by nia.
  rewrite (wrap64_id d) by (unfold int_min, int_max in *; lia).
  rewrite (wrap64_id (d * w)) by (unfold int_min, int_max in *; lia).
  rewrite (wrap64_id (n - d * w)) by (unfold int_min, int_max in *; lia).
  rewrite (wrap64_id (d + 1)) by (unfold int_min, int_max in *; lia).
  set (r := n - d * w) in *.
  set (k := Z.to_nat r). set (m := Z.to_nat (w - r - 1)).
  replace (Z.to_nat w) with (k + S m)%nat by lia.
  rewrite (createJobs_loop_before t proto ports r (Z.lt_le_incl _ _ Hn) d k m 0 0 [])
    by (unfold k, m; nia).
  eexists; split; [reflexivity|].
  set (sizes := replicate k (Z.to_nat (d + 1)) ++
                (if d =? 0 then [] else replicate (S m) (Z.to_nat d))).
  assert (Hsum : sum_list sizes = length ports).
  { unfold sizes. rewrite sum_list_with_app, sum_list_replicate.
    destruct (Z.eqb_spec d 0) as [Hd0|Hd0]; simpl.
    - unfold k, r, n, len in *. nia.
    - rewrite sum_list_replicate. unfold k, m, r, n, len in *. nia. }
  simpl. rewrite drop_0. repeat split.
  - rewrite <- list_fmap_compose.
    change (len ∘ j_ports ∘ _) with (Z.of_nat ∘ @length string).
    rewrite list_fmap_compose, sizes_reshape by lia.
    unfold sizes, spec_sizes. rewrite Z.quot_div_nonneg by lia. fold d. fold r.
    rewrite fmap_app, fmap_replicate. f_equal; [f_equal; lia|].
    destruct (d =? 0); [done|]. rewrite fmap_replicate. f_equal; unfold m; lia.
  - rewrite <- list_fmap_compose.
    change (j_ports ∘ _) with (@id (list string)). rewrite list_fmap_id.
    by apply join_reshape.
  - unfold len. rewrite length_fmap, length_reshape. unfold sizes.
    rewrite length_app, length_replicate.
    destruct (Z.eqb_spec d 0) as [Hd0|Hd0]; simpl.
    + unfold k, r. lia.
    + rewrite length_replicate. unfold k, m, r.
      assert (w ≤ n) by nia. lia.
  - apply Forall_fmap, Forall_forall. intros; simpl. done.
Qed.

Lemma createJobs_balanced_witness :
  (t_portsToScan wide !! "tcp"%string = Some (Go.Itoa <$> seqZ 1 10) ∧
   "tcp"%string ≠ "icmp"%string ∧
   1 ≤ t_workers wide ≤ int_max ∧
   len (Go.Itoa <$> seqZ 1 10) < int_max) ∧
  ∃ jobs, createJobs wide "tcp" = Ok jobs ∧
    (len ∘ j_ports) <$> jobs = spec_sizes (len (Go.Itoa <$> seqZ 1 10)) (t_workers wide) ∧
    mjoin (j_ports <$> jobs) = Go.Itoa <$> seqZ 1 10 ∧
    len jobs = Z.min (t_workers wide) (len (Go.Itoa <$> seqZ 1 10)) ∧
    Forall (λ j, j_ip j = t_ip wide ∧ j_protocol j = "tcp"%string) jobs.
Proof.
  assert (H1 : t_portsToScan wide !! "tcp"%string = Some (Go.Itoa <$> seqZ 1 10))
    by reflexivity.
  assert (H2 : "tcp"%string ≠ "icmp"%string) by discriminate.
  assert (H3 : 1 ≤ t_workers wide ≤ int_max) by (cbn; unfold int_max; lia).
  assert (H4 : len (Go.Itoa <$> seqZ 1 10) < int_max) by (vm_compute; reflexivity).
  split; [done|].
  exact (createJobs_balanced wide "tcp" (Go.Itoa <$> seqZ 1 10) H1 H2 H3 H4).
Defined.

(** *** getDuration *)

Lemma getDuration_days pd n rest :
  int_min ≤ n ≤ int_max → Go.ContainsAny rest "hms" = false →
  getDuration pd (Go.Itoa n +:+ String "d" rest) =
    Ok (wrap64 (wrap64 (n * Hour) * 24)).
Proof.
  intros Hn Hrest. unfold getDuration.
  rewrite ContainsAny_app, ContainsAny_Itoa_hms.
  change (Go.ContainsAny (String "d" rest) "hms") with (Go.ContainsAny rest "hms").
  rewrite Hrest. cbn [orb].
  rewrite Split_app_sep by (by apply Contains_Itoa). simpl.
  by rewrite Atoi_Itoa.
Qed.

(** C6, as the code has it. A period containing one of the letters h,
    m, s goes to [time.ParseDuration], whose verdict is returned as it
    is (so every unit that parser knows is accepted, ms, us and ns
    too). Any other period is read as days: the text before its first
    "d" (all of it when there is none) must read as an integer n by
    [strconv.Atoi], the result is n × 24h computed in 64 bits (exact
    for n up to 106751 days either way), and what follows the first "d"
    is not looked at; so <n>d followed by any text without h, m, s is
    accepted. *)
Theorem getDuration_grammar (pd : string → result Z) :
  (∀ period, Go.ContainsAny period "hms" = true →
     getDuration pd period = pd period) ∧
  (∀ n rest, -106751 ≤ n ≤ 106751 → Go.ContainsAny rest "hms" = false →
     getDuration pd (Go.Itoa n +:+ String "d" rest) = Ok (n * (24 * Hour))) ∧
  (∀ period, Go.ContainsAny period "hms" = false →
     ∃ prefix, head (Go.Split period "d") = Some prefix ∧
       getDuration pd period =
         (days ← Go.Atoi prefix; Ok (wrap64 (wrap64 (days * Hour) * 24)))).
Proof.
  split; [|split].
  - intros period Hp. unfold getDuration. rewrite Hp. apply bind_ret.
  - intros n rest Hn Hrest.
    rewrite getDuration_days; [|unfold int_min, int_max; lia|done].
    f_equal. unfold Hour.
    rewrite (wrap64_id (n * _)) by (unfold int_min, int_max; lia).
    rewrite wrap64_id by (unfold int_min, int_max; lia). lia.
  - intros period Hp. unfold getDuration. rewrite Hp, <- head_lookup.
    destruct (Split_cons period "d") as (prefix & rest & ->). by exists prefix.
Qed.

Lemma getDuration_grammar_witness :
  (-106751 ≤ 7 ≤ 106751 ∧ Go.ContainsAny "ay" "hms" = false) ∧
  getDuration (λ _, Err (ErrExternal "time: invalid duration")) "7day" =
    Ok (7 * (24 * Hour)).
Proof.
  assert (H1 : -106751 ≤ 7 ≤ 106751) by lia.
  assert (H2 : Go.ContainsAny "ay" "hms" = false) by reflexivity.
  split; [done|].
  exact (proj1 (proj2 (getDuration_grammar _)) 7 "ay"%string H1 H2).
Defined.

(** Against C6 as stated: the periods ["2dw"] and ["5"] end in none of
    the suffixes h, m, s, d, and [getDuration] accepts both as days,
    whatever [time.ParseDuration] would say. *)
Lemma getDuration_accepts_other_suffix :
  (∀ pd, getDuration pd "2dw" = Ok (2 * (24 * Hour))) ∧
  unit_suffix "2dw" = "dw"%string ∧ spec_suffix "2dw" = false ∧
  (∀ pd, getDuration pd "5" = Ok (5 * (24 * Hour))) ∧
  unit_suffix "5" = ""%string ∧ spec_suffix "5" = false.
Proof. repeat split. Qed.

(** *** sortPorts *)

Lemma atoiAll_Ok ports holder :
  atoiAll ports = Ok holder ↔ Forall2 (λ p v, Go.Atoi p = Ok v) ports holder.
Proof.
  revert holder. induction ports as [|p ports IH]; intros holder; simpl.
  - split; [intros [= <-]; constructor|by inversion 1].
  - destruct (Go.Atoi p) as [v| |] eqn:Hp; simpl.
    + destruct (atoiAll ports) as [vs| |] eqn:Hps; simpl.
      * split; [intros [= <-]; constructor; [done|by apply IH]|].
        inversion 1 as [|? v' ? vs' Hv Hvs]; subst.
        apply IH in Hvs. congruence.
      * split; [done|]. inversion 1 as [|? v' ? vs' Hv Hvs]; subst.
        by apply IH in Hvs.
      * split; [done|]. inversion 1 as [|? v' ? vs' Hv Hvs]; subst.
        by apply IH in Hvs.
    + split; [done|]. inversion 1; congruence.
    + split; [done|]. inversion 1; congruence.
Qed.

Lemma atoiAll_Itoa holder :
  Forall (λ v, int_min ≤ v ≤ int_max) holder → atoiAll (Go.Itoa <$> holder) = Ok holder.
Proof.
  intros Hall. apply atoiAll_Ok, Forall2_fmap_l, Forall_Forall2_diag.
  eapply Forall_impl; [done|]. intros v Hv. by apply Atoi_Itoa.
Qed.

(** What [sortPorts] returns is in numeric-ascending order and holds
    the same port numbers as its argument. *)
Lemma sortPorts_ascending ports sorted :
  sortPorts ports = Ok sorted →
  numeric_ascending sorted ∧
  ∃ holder holder', atoiAll ports = Ok holder ∧ atoiAll sorted = Ok holder' ∧
    holder' ≡ₚ holder.
Proof.
  unfold sortPorts. destruct (atoiAll ports) as [holder| |] eqn:Hh; simpl; try done.
  intros [= <-].
  assert (Hrange : Forall (λ v, int_min ≤ v ≤ int_max) (Go.SortInts holder)).
  { unfold Go.SortInts. rewrite merge_sort_Permutation.
    apply atoiAll_Ok in Hh. clear -Hh.
    induction Hh; constructor; [by eapply Atoi_range|done]. }
  apply atoiAll_Itoa in Hrange. split.
  - exists (Go.SortInts holder). split; [done|]. apply Sorted_merge_sort, _.
  - exists holder, (Go.SortInts holder). repeat split; try done.
    apply merge_sort_Permutation.
Qed.

(** *** receiver *)

(** [receiver_result] by cases: partial result pending or scan complete,
    ICMP or not, accordance with or without an error. *)
Ltac receiver_cases res r :=
  unfold receiver_result, accordance;
  fold (started_after res r); fold (open_after res r);
  destruct (_ =? _); [|done];
  destruct (String.eqb (j_protocol res) "icmp"); simpl; [done|];
  by destruct (checkAccordance _ _ _) as [[? ?] [?|]].

Lemma receiver_result_openPorts now res r :
  recv_openPorts (receiver_result now res r) =
    <[j_id res := open_after res r]> (recv_openPorts r).
Proof. receiver_cases res r. Qed.

Lemma receiver_result_jobsStarted now res r :
  recv_jobsStarted (receiver_result now res r) =
    <[j_id res := started_after res r]> (recv_jobsStarted r).
Proof. receiver_cases res r. Qed.

(** The one place where [receiver] sends on [postScan]. *)
Lemma receiver_result_postScan now res r :
  postScan (receiver_result now res r) =
    if started_after res r =? j_jobCount res then
      postScan r ++
      [mkResMsg (t_name (tgt r)) (j_ip res) (j_protocol res) (open_after res r)
         (accordance (tgt r) (j_protocol res) (open_after res r)).1
         (accordance (tgt r) (j_protocol res) (open_after res r)).2]
    else postScan r.
Proof. receiver_cases res r. Qed.

Lemma receiver_result_target now res r :
  t_name (tgt (receiver_result now res r)) = t_name (tgt r) ∧
  t_protos (tgt (receiver_result now res r)) = t_protos (tgt r).
Proof. receiver_cases res r. Qed.

Lemma receiver_result_emitted now res r out :
  postScan (receiver_result now res r) = postScan r ++ [out] →
  out = mkResMsg (t_name (tgt r)) (j_ip res) (j_protocol res) (open_after res r)
          (accordance (tgt r) (j_protocol res) (open_after res r)).1
          (accordance (tgt r) (j_protocol res) (open_after res r)).2.
Proof.
  rewrite receiver_result_postScan. destruct (_ =? _).
  - intros H%app_inv_head. by simplify_eq.
  - intros H. apply (f_equal length) in H. rewrite length_app in H. simpl in H. lia.
Qed.

Lemma accordance_protos t1 t2 proto open :
  t_protos t1 = t_protos t2 → accordance t1 proto open = accordance t2 proto open.
Proof. intros Hp. unfold accordance, checkAccordance. by rewrite Hp. Qed.

(** While fewer partials than [jobCount] have arrived nothing is
    emitted, and the ports and the count accumulate. *)
Lemma receiver_run_pending sid n arrivals : ∀ r,
  Forall (λ a, j_id a.2 = sid ∧ j_jobCount a.2 = n) arrivals →
  0 ≤ default 0 (recv_jobsStarted r !! sid) →
  default 0 (recv_jobsStarted r !! sid) + len arrivals < n → n ≤ int_max →
  postScan (receiver_run arrivals r) = postScan r ∧
  t_name (tgt (receiver_run arrivals r)) = t_name (tgt r) ∧
  t_protos (tgt (receiver_run arrivals r)) = t_protos (tgt r) ∧
  default 0 (recv_jobsStarted (receiver_run arrivals r) !! sid) =
    default 0 (recv_jobsStarted r !! sid) + len arrivals ∧
  default [] (recv_openPorts (receiver_run arrivals r) !! sid) =
    default [] (recv_openPorts r !! sid) ++ ports_of arrivals.
Proof.
  unfold ports_of.
  induction arrivals as [|[now res] arrivals IH]; intros r Hall Hc Hlt Hn; simpl.
  - rewrite app_nil_r. unfold len. simpl. repeat split; lia.
  - apply Forall_cons in Hall as [[Hid Hcount] Hall]. simpl in Hid, Hcount.
    unfold len in Hlt. simpl length in Hlt.
    assert (Hs : started_after res r = default 0 (recv_jobsStarted r !! sid) + 1).
    { unfold started_after. rewrite Hid. apply wrap64_id.
      unfold int_min, int_max in *. lia. }
    destruct (IH (receiver_result now res r)) as (Hp & Hnm & Hpr & Hj & Ho); try done.
    + rewrite receiver_result_jobsStarted, Hid, lookup_insert_eq. simpl. lia.
    + rewrite receiver_result_jobsStarted, Hid, lookup_insert_eq. simpl.
      unfold len. lia.
    + fold (receiver_run arrivals (receiver_result now res r)).
      rewrite Hp, Hnm, Hpr, Hj, Ho.
      destruct (receiver_result_target now res r) as [-> ->].
      rewrite receiver_result_postScan, receiver_result_jobsStarted,
        receiver_result_openPorts, Hid, !lookup_insert_eq.
      rewrite (proj2 (Z.eqb_neq _ _)) by lia. simpl.
      unfold open_after. rewrite Hid, Hs, <- app_assoc.
      unfold len. simpl length. repeat split; lia.
Qed.

(** When the last partial of a scan arrives one outcome is emitted, with
    the ports of all partials in arrival order; the two map entries of
    the scan stay. *)
Lemma receiver_run_complete sid arrivals r :
  partials_of sid arrivals → unseen sid r →
  arrivals ≠ [] → len arrivals ≤ int_max →
  ∃ now res, last arrivals = Some (now, res) ∧
    postScan (receiver_run arrivals r) = postScan r ++
      [mkResMsg (t_name (tgt r)) (j_ip res) (j_protocol res) (ports_of arrivals)
         (accordance (tgt r) (j_protocol res) (ports_of arrivals)).1
         (accordance (tgt r) (j_protocol res) (ports_of arrivals)).2] ∧
    recv_jobsStarted (receiver_run arrivals r) !! sid = Some (len arrivals) ∧
    recv_openPorts (receiver_run arrivals r) !! sid = Some (ports_of arrivals).
Proof.
  intros Hall [Hj Ho] Hne Hmax.
  destruct arrivals as [|a0 arrivals0] using rev_ind; [done|]. clear IHarrivals0 Hne.
  destruct a0 as [now res]. exists now, res.
  unfold partials_of in Hall. set (n := len (arrivals0 ++ [(now, res)])) in *.
  assert (Hn : n = len arrivals0 + 1).
  { unfold n, len. rewrite length_app. simpl. lia. }
  apply Forall_app in Hall as [Hinit Hlast].
  apply Forall_singleton in Hlast as [Hid Hcount]. simpl in Hid, Hcount.
  destruct (receiver_run_pending sid n arrivals0 r Hinit)
    as (Hp & Hnm & Hpr & Hc & Hop); rewrite ?Hj; simpl; try lia.
  rewrite Hj in Hc. rewrite Ho in Hop. simpl in Hc, Hop.
  unfold receiver_run in *. rewrite foldl_app. simpl.
  set (r1 := foldl _ r arrivals0) in *.
  assert (Hs : started_after res r1 = n).
  { unfold started_after. rewrite Hid, Hc, wrap64_id; [lia|].
    unfold int_min, int_max, len in *. lia. }
  assert (Hopen : open_after res r1 = ports_of (arrivals0 ++ [(now, res)])).
  { unfold open_after, ports_of in *. rewrite Hid, Hop, fmap_app, join_app. simpl.
    by rewrite app_nil_r. }
  rewrite last_snoc, receiver_result_postScan, receiver_result_jobsStarted,
    receiver_result_openPorts, Hs, Hopen, Hcount, Z.eqb_refl, Hid, !lookup_insert_eq.
  rewrite Hp, Hnm, (accordance_protos (tgt r1) (tgt r)) by done. done.
Qed.

Lemma ports_of_elem_of arrivals p :
  p ∈ ports_of arrivals ↔ ∃ res, res ∈ arrivals.*2 ∧ p ∈ j_ports res.
Proof.
  unfold ports_of. rewrite list_elem_of_join. split.
  - intros (l & Hp & (a & -> & Ha)%list_elem_of_fmap).
    exists a.2. split; [|done]. apply list_elem_of_fmap. by exists a.
  - intros (res & (a & -> & Ha)%list_elem_of_fmap & Hp).
    exists (j_ports a.2). split; [done|]. apply list_elem_of_fmap. by exists a.
Qed.

Lemma ports_of_Permutation arrivals arrivals' :
  arrivals'.*2 ≡ₚ arrivals.*2 → ports_of arrivals' ≡ₚ ports_of arrivals.
Proof.
  intros Hperm. unfold ports_of. rewrite !list_fmap_compose.
  by rewrite Hperm.
Qed.

Lemma partials_of_Permutation sid arrivals arrivals' :
  arrivals'.*2 ≡ₚ arrivals.*2 → partials_of sid arrivals → partials_of sid arrivals'.
Proof.
  unfold partials_of. intros Hperm Hall.
  assert (Hlen : len arrivals' = len arrivals).
  { unfold len. f_equal. apply Permutation_length in Hperm.
    by rewrite !length_fmap in Hperm. }
  rewrite Hlen.
  apply (Forall_fmap snd (λ res, j_id res = sid ∧ j_jobCount res = len arrivals)).
  rewrite Hperm. by apply Forall_fmap.
Qed.

(** C8. When the partial results of one scan, as many as its job count,
    arrive at a receiver that has not seen the scan, exactly one
    outcome is emitted, and its open ports are the ports of the
    partials: a port is in the outcome exactly when it is in some
    partial. Had the same partials arrived in any other order, the
    outcome would hold the same ports (as a rearrangement of the same
    list). *)
Theorem aggregation_order_independent sid arrivals arrivals' r :
  partials_of sid arrivals → unseen sid r →
  arrivals ≠ [] → len arrivals ≤ int_max →
  arrivals'.*2 ≡ₚ arrivals.*2 →
  ∃ out out',
    postScan (receiver_run arrivals r) = postScan r ++ [out] ∧
    postScan (receiver_run arrivals' r) = postScan r ++ [out'] ∧
    (∀ p, p ∈ OpenPorts out ↔ ∃ res, res ∈ arrivals.*2 ∧ p ∈ j_ports res) ∧
    (∀ p, p ∈ OpenPorts out' ↔ p ∈ OpenPorts out) ∧
    OpenPorts out' ≡ₚ OpenPorts out.
Proof.
  intros Hall Hfresh Hne Hmax Hperm.
  assert (Hlen : length arrivals' = length arrivals).
  { apply Permutation_length in Hperm. by rewrite !length_fmap in Hperm. }
  destruct (receiver_run_complete sid arrivals r) as (now & res & _ & Hp & _); try done.
  destruct (receiver_run_complete sid arrivals' r) as (now' & res' & _ & Hp' & _);
    try done.
  { by eapply partials_of_Permutation. }
  { intros ->. by destruct arrivals. }
  { unfold len in *. by rewrite Hlen. }
  eexists _, _. split; [exact Hp|]. split; [exact Hp'|]. simpl.
  pose proof (ports_of_Permutation _ _ Hperm) as Hports.
  split; [apply ports_of_elem_of|]. split; [|done].
  intros p. by rewrite Hports.
Qed.

Lemma aggregation_order_independent_witness :
  let a := (1000, mkJobMsg "scanAAAAAA" 2 "10.0.0.1" "tcp" ["1337"%string]) in
  let b := (2000, mkJobMsg "scanAAAAAA" 2 "10.0.0.1" "tcp" ["23"%string]) in
  (partials_of "scanAAAAAA" [a; b] ∧ unseen "scanAAAAAA" (start web) ∧
   [a; b] ≠ [] ∧ len [a; b] ≤ int_max ∧ [b; a].*2 ≡ₚ [a; b].*2) ∧
  ∃ out out',
    postScan (receiver_run [a; b] (start web)) = postScan (start web) ++ [out] ∧
    postScan (receiver_run [b; a] (start web)) = postScan (start web) ++ [out'] ∧
    (∀ p, p ∈ OpenPorts out ↔ ∃ res, res ∈ [a; b].*2 ∧ p ∈ j_ports res) ∧
    (∀ p, p ∈ OpenPorts out' ↔ p ∈ OpenPorts out) ∧
    OpenPorts out' ≡ₚ OpenPorts out.
Proof.
  intros a b.
  assert (H1 : partials_of "scanAAAAAA" [a; b]) by (by repeat constructor).
  assert (H2 : unseen "scanAAAAAA" (start web)) by (by split).
  assert (H3 : [a; b] ≠ []) by discriminate.
  assert (H4 : len [a; b] ≤ int_max) by (unfold len, int_max; simpl; lia).
  assert (H5 : [b; a].*2 ≡ₚ [a; b].*2) by apply perm_swap.
  split; [done|].
  exact (aggregation_order_independent "scanAAAAAA" [a; b] [b; a] (start web)
           H1 H2 H3 H4 H5).
Defined.

(** C2, as the code has it. When the partial results of one scan, as
    many as its job count, have arrived and the outcome is emitted, the
    receiver still holds both entries of the scan: [openPorts[id]] is
    the list of all its ports and [jobsStarted[id]] its job count. No
    later partial result, of whatever scan, removes an entry from
    either map. *)
Theorem aggregator_state_retained sid arrivals r :
  partials_of sid arrivals → unseen sid r →
  arrivals ≠ [] → len arrivals ≤ int_max →
  (∃ out, postScan (receiver_run arrivals r) = postScan r ++ [out]) ∧
  recv_openPorts (receiver_run arrivals r) !! sid = Some (ports_of arrivals) ∧
  recv_jobsStarted (receiver_run arrivals r) !! sid = Some (len arrivals) ∧
  (∀ now res k,
     (is_Some (recv_openPorts (receiver_run arrivals r) !! k) →
      is_Some (recv_openPorts
                 (receiver_result now res (receiver_run arrivals r)) !! k)) ∧
     (is_Some (recv_jobsStarted (receiver_run arrivals r) !! k) →
      is_Some (recv_jobsStarted
                 (receiver_result now res (receiver_run arrivals r)) !! k))).
Proof.
  intros Hall Hfresh Hne Hmax.
  destruct (receiver_run_complete sid arrivals r) as (now & res & _ & Hp & Hj & Ho);
    try done.
  split; [by eexists|]. split; [done|]. split; [done|].
  intros now' res' k.
  rewrite receiver_result_openPorts, receiver_result_jobsStarted.
  split; intros Hk; (destruct (decide (j_id res' = k)) as [<-|Hne'];
    [by rewrite lookup_insert_eq|by rewrite lookup_insert_ne]).
Qed.

Lemma aggregator_state_retained_witness :
  let a := (1000, mkJobMsg "scanAAAAAA" 2 "10.0.0.1" "tcp" ["1337"%string]) in
  let b := (2000, mkJobMsg "scanAAAAAA" 2 "10.0.0.1" "tcp" ["23"%string]) in
  (partials_of "scanAAAAAA" [a; b] ∧ unseen "scanAAAAAA" (start web) ∧
   [a; b] ≠ [] ∧ len [a; b] ≤ int_max) ∧
  recv_openPorts (receiver_run [a; b] (start web)) !! "scanAAAAAA"%string =
    Some (ports_of [a; b]) ∧
  recv_jobsStarted (receiver_run [a; b] (start web)) !! "scanAAAAAA"%string =
    Some (len [a; b]).
Proof.
  intros a b.
  assert (H1 : partials_of "scanAAAAAA" [a; b]) by (by repeat constructor).
  assert (H2 : unseen "scanAAAAAA" (start web)) by (by split).
  assert (H3 : [a; b] ≠ []) by discriminate.
  assert (H4 : len [a; b] ≤ int_max) by (unfold len, int_max; simpl; lia).
  split; [done|].
  destruct (aggregator_state_retained "scanAAAAAA" [a; b] (start web) H1 H2 H3 H4)
    as (_ & Ho & Hj & _).
  by split.
Defined.

(** Against C2 as stated: a scan of one job completes with its first
    partial result; the outcome is emitted and both map entries of the
    scan are still there. *)
Lemma aggregator_state_not_released :
  let res := mkJobMsg "scanAAAAAA" 1 "10.0.0.1" "tcp" ["23"%string] in
  let r := receiver_result 1000 res (start web) in
  length (postScan r) = 1%nat ∧
  recv_openPorts r !! "scanAAAAAA"%string = Some ["23"%string] ∧
  recv_jobsStarted r !! "scanAAAAAA"%string = Some 1.
Proof. repeat split. Qed.

(** C7, as the code has it. In an emitted non-ICMP outcome whose
    expected expression parses, the unexpected list is the open ports
    that are not expected, in the order of the open list (the order
    the partial results arrived in), and the closed list is the
    expected ports that are not open, in the order the expected
    expression lists them. [sortPorts] does return its argument in
    numeric-ascending order (["22"] before ["1337"]), but [recap]
    sorts copies for the log; the outcome keeps the unsorted lists. *)
Theorem emitted_lists_keep_accordance_order :
  (∀ now res r out exp,
     postScan (receiver_result now res r) = postScan r ++ [out] →
     Protocol out ≠ "icmp"%string →
     readPortsRange
       (expected (default protocol_zero (t_protos (tgt r) !! Protocol out))) = Ok exp →
     UnexpectedPorts out = filter (λ p, p ∉ exp) (OpenPorts out) ∧
     ClosedPorts out = filter (λ p, p ∉ OpenPorts out) exp) ∧
  (∀ ports sorted, sortPorts ports = Ok sorted →
     numeric_ascending sorted ∧
     ∃ holder holder', atoiAll ports = Ok holder ∧ atoiAll sorted = Ok holder' ∧
       holder' ≡ₚ holder) ∧
  sortPorts ["1337"; "22"]%string = Ok ["22"; "1337"]%string.
Proof.
  split; [|split; [apply sortPorts_ascending|reflexivity]].
  intros now res r out exp Hout Hicmp Hexp.
  apply receiver_result_emitted in Hout as ->. simpl in *.
  unfold accordance, checkAccordance.
  rewrite (proj2 (String.eqb_neq _ _)) by done. rewrite Hexp. simpl.
  split; apply list_filter_iff; intros p; unfold common.StringInSlice;
    by rewrite bool_decide_eq_false.
Qed.

Lemma emitted_lists_keep_accordance_order_witness :
  let res := mkJobMsg "scanAAAAAA" 1 "10.0.0.1" "tcp" ["1337"; "23"]%string in
  let out := mkResMsg "web" "10.0.0.1" "tcp" ["1337"; "23"]%string
               ["1337"; "23"]%string ["80"; "22"]%string in
  (postScan (receiver_result 1000 res (start web)) = postScan (start web) ++ [out] ∧
   Protocol out ≠ "icmp"%string ∧
   readPortsRange
     (expected (default protocol_zero (t_protos (tgt (start web)) !! Protocol out)))
     = Ok ["80"; "22"]%string) ∧
  UnexpectedPorts out = filter (λ p, p ∉ ["80"; "22"]%string) (OpenPorts out) ∧
  ClosedPorts out = filter (λ p, p ∉ OpenPorts out) ["80"; "22"]%string.
Proof.
  intros res out.
  assert (H1 : postScan (receiver_result 1000 res (start web)) =
               postScan (start web) ++ [out]) by reflexivity.
  assert (H2 : Protocol out ≠ "icmp"%string) by discriminate.
  assert (H3 : readPortsRange
                 (expected (default protocol_zero
                              (t_protos (tgt (start web)) !! Protocol out)))
               = Ok ["80"; "22"]%string) by reflexivity.
  split; [done|].
  exact (proj1 emitted_lists_keep_accordance_order 1000 res (start web) out _ H1 H2 H3).
Defined.

(** Against C7 as stated: two partial results with the open ports 1337
    and 23, arriving in that order at a target expecting "80,22", give
    an outcome whose unexpected list is 1337, 23 and whose closed list
    is 80, 22; neither ascends. *)
Lemma emitted_lists_not_sorted :
  let a := (1000, mkJobMsg "scanAAAAAA" 2 "10.0.0.1" "tcp" ["1337"%string]) in
  let b := (2000, mkJobMsg "scanAAAAAA" 2 "10.0.0.1" "tcp" ["23"%string]) in
  let r := receiver_run [a; b] (start web) in
  UnexpectedPorts <$> postScan r = [["1337"; "23"]%string] ∧
  ClosedPorts <$> postScan r = [["80"; "22"]%string] ∧
  ¬ numeric_ascending ["1337"; "23"]%string ∧
  ¬ numeric_ascending ["80"; "22"]%string.
Proof.
  split; [reflexivity|]. split; [reflexivity|].
  split; intros (holder & [= <-] & Hs); inversion_clear Hs as [|? ? _ Hhd];
    inversion_clear Hhd as [|? ? Hle]; by apply Hle.
Qed.

(** *** The trigger loop *)

Example web_is_New :
  New true "web" "10.0.0.1" 2 [("tcp", "1h", "1337,23", "80,22")]%string = Ok web.
Proof. reflexivity. Qed.

(** A trigger that finds the zero instant is dropped with the warning. *)
Lemma Run_trigger_idle jobID proto r :
  IsZero (default zeroTime (t_startTime (tgt r) !! proto)) = true →
  Run_trigger jobID proto r =
    Ok (log [Msgf WarnLevel "%s: a scan already started" [AStr (t_name (tgt r))]] r).
Proof. intros H. unfold Run_trigger. by rewrite H. Qed.

(** A trigger that finds a start time plans and enqueues, and logs
    nothing. *)
Lemma Run_trigger_started jobID proto r jobs :
  IsZero (default zeroTime (t_startTime (tgt r) !! proto)) = false →
  createJobs (tgt r) proto = Ok jobs →
  ∃ r', Run_trigger jobID proto r = Ok r' ∧
    logger r' = logger r ∧
    jobsChan r' = jobsChan r ++
      ((λ j, mkJobMsg jobID (len jobs) (j_ip j) (j_protocol j) (j_ports j)) <$> jobs).
Proof. intros H Hj. unfold Run_trigger. rewrite H, Hj. by eexists. Qed.

(** After a firing of the ticker the start time is what the clock
    showed. *)
Lemma ticker_startTime now proto r :
  t_startTime (tgt (ticker now proto r)) !! proto = Some now ∧
  trigger (ticker now proto r) = trigger r ++ [proto].
Proof. split; [apply lookup_insert_eq|done]. Qed.

(** C1 fails on the code: the test of the trigger loop is the other way
    round. The ticker fires for tcp (S5: twice, no partial result in
    between), each time setting the start time before it sends the
    trigger; the loop finds the start time non-zero both times and
    plans and enqueues both times, so the jobs of two scans of tcp are
    in the queue and nothing is logged. A trigger that finds the zero
    instant, when no scan is in flight, is the one that is dropped with
    "a scan already started". *)
Theorem Run_trigger_guard_inverted :
  ∃ r1 r2,
    Run_step "scanAAAAAA" (ticker 100 "tcp" (start web)) = Ok r1 ∧
    Run_step "scanBBBBBB" (ticker 200 "tcp" r1) = Ok r2 ∧
    j_id <$> jobsChan r2 =
      ["scanAAAAAA"; "scanAAAAAA"; "scanBBBBBB"; "scanBBBBBB"]%string ∧
    logger r2 = [] ∧
    Run_step "scanCCCCCC" (set_trigger ["tcp"%string] (start web)) =
      Ok (log [Msgf WarnLevel "%s: a scan already started" [AStr "web"]] (start web)).
Proof.
  eexists _, _. split; [vm_compute; reflexivity|].
  split; [vm_compute; reflexivity|]. repeat split.
Qed.

(** *** The worker *)

Lemma worker_job_tcp_udp pr name job :
  j_protocol job = "tcp"%string ∨ j_protocol job = "udp"%string →
  ∃ lg res, worker_job pr name job = (lg, Some res) ∧
    j_id res = j_id job ∧ j_jobCount res = j_jobCount job.
Proof.
  unfold worker_job. intros [->| ->]; simpl.
  - destruct (worker_tcp _ _ _ _ _ _) as [open lg]. by eexists _, _.
  - destruct (worker_udp _ _ _ _ _ _) as [open lg]. by eexists _, _.
Qed.

Lemma worker_job_icmp pr name job success :
  j_protocol job = "icmp"%string → icmpScan pr (j_ip job) = (success, None) →
  ∃ lg res, worker_job pr name job = (lg, Some res) ∧
    j_id res = j_id job ∧ j_jobCount res = j_jobCount job.
Proof.
  unfold worker_job. intros -> Hscan; simpl. rewrite Hscan.
  destruct success; by eexists _, _.
Qed.

(** The branch of the worker for an error of [icmpScan]: the warning is
    logged and nothing is sent. ([icmpScan] returns an error only when
    the address does not resolve, which does not happen for the
    addresses [New] lets through.) *)
Lemma worker_job_icmp_error pr name job success err :
  j_protocol job = "icmp"%string → icmpScan pr (j_ip job) = (success, Some err) →
  worker_job pr name job =
    ([Msgf WarnLevel "error while scanning tcp: %v" [AErr err]], None).
Proof.
  unfold worker_job. intros -> Hscan. simpl. rewrite Hscan. by destruct success.
Qed.

(** ** Further properties: package scan *)

(** *** readPortsRange, token by token *)

Lemma Split_app s1 s2 sep :
  Go.Split (s1 +:+ String sep s2) sep = Go.Split s1 sep ++ Go.Split s2 sep.
Proof.
  induction s1 as [|c s1 IH]; simpl.
  - unfold Go.byte_eqb. by rewrite Ascii.eqb_refl.
  - rewrite IH. destruct (Go.byte_eqb c sep); [done|].
    by destruct (Split_cons s1 sep) as (tok & rest & ->).
Qed.

Lemma readPortsRange_loop_acc parts : ∀ acc,
  readPortsRange_loop parts acc = (p ← readPortsRange_loop parts []; Ok (acc ++ p)).
Proof.
  induction parts as [|tok parts IH]; intros acc; simpl.
  - by rewrite app_nil_r.
  - destruct (String.eqb tok ""); [apply IH|].
    assert (Hstep : ∀ extra,
      readPortsRange_loop parts (acc ++ extra) =
      (p ← readPortsRange_loop parts ([] ++ extra); Ok (acc ++ p))).
    { intros extra. rewrite (IH (acc ++ extra)), (IH ([] ++ extra)).
      destruct (readPortsRange_loop parts []); simpl; [|done..].
      by rewrite app_assoc. }
    destruct (String.eqb tok "all"); [apply Hstep|].
    destruct (String.eqb tok "reserved"); [apply Hstep|].
    destruct (readBounds tok) as [[lo hi]| |]; simpl; [apply Hstep|done..].
Qed.

Lemma readPortsRange_loop_app parts1 parts2 : ∀ acc,
  readPortsRange_loop (parts1 ++ parts2) acc =
  (p ← readPortsRange_loop parts1 acc; readPortsRange_loop parts2 p).
Proof.
  induction parts1 as [|tok parts1 IH]; intros acc; simpl; [done|].
  repeat case_match; try apply IH.
  destruct (readBounds tok) as [[lo hi]| |]; simpl; [apply IH|done..].
Qed.

(** X1. Reading two expressions joined by a comma is reading the first,
    then the second, and putting the two port lists end to end; the
    first error met, if any, is the one returned. *)
Theorem readPortsRange_concat (e1 e2 : string) :
  readPortsRange (e1 +:+ String "," e2) =
    (p1 ← readPortsRange e1; p2 ← readPortsRange e2; Ok (p1 ++ p2)).
Proof.
  unfold readPortsRange. rewrite Split_app, readPortsRange_loop_app.
  destruct (readPortsRange_loop (Go.Split e1 ",") []) as [p1| |]; simpl; [|done..].
  apply readPortsRange_loop_acc.
Qed.

Lemma portsFromTo_port_string lo hi :
  0 ≤ lo → hi ≤ 65535 → Forall port_string (portsFromTo lo hi).
Proof.
  intros Hlo Hhi. unfold portsFromTo. apply Forall_fmap, Forall_forall.
  intros n [Hn1 Hn2]%elem_of_seqZ. exists n. split; [lia|done].
Qed.

Lemma readPortsRange_loop_port_string parts : ∀ acc ports,
  Forall port_string acc → readPortsRange_loop parts acc = Ok ports →
  Forall port_string ports.
Proof.
  induction parts as [|tok parts IH]; intros acc ports Hacc; simpl.
  - by intros [= <-].
  - destruct (String.eqb tok ""); [by apply IH|].
    destruct (String.eqb tok "all").
    { apply IH, Forall_app. split; [done|]. by apply portsFromTo_port_string. }
    destruct (String.eqb tok "reserved").
    { apply IH, Forall_app. split; [done|]. by apply portsFromTo_port_string. }
    destruct (readBounds tok) as [[lo hi]| |] eqn:Hb; simpl; [|done..].
    apply readBounds_Ok in Hb as [_ Hb].
    apply IH, Forall_app. split; [done|]. apply portsFromTo_port_string; lia.
Qed.

Lemma readPortsRange_port_string expr ports :
  readPortsRange expr = Ok ports → Forall port_string ports.
Proof. by apply readPortsRange_loop_port_string. Qed.

Lemma port_string_Atoi p :
  port_string p → ∃ n, 0 ≤ n ≤ 65535 ∧ Go.Atoi p = Ok n ∧ p = Go.Itoa n.
Proof.
  intros (n & Hn & ->). exists n. split; [done|]. split; [|done].
  apply Atoi_Itoa. unfold int_min, int_max. lia.
Qed.

(** X2. Every port [readPortsRange] returns is the decimal form
    [strconv.Itoa] gives of an integer between 0 and 65535, and
    [strconv.Atoi] reads it back as that integer: whatever the tokens
    looked like (["007"], ["+80"]), the ports come out canonical and
    in range. *)
Theorem readPortsRange_ports (expr : string) (ports : list string) :
  readPortsRange expr = Ok ports →
  Forall (λ p, ∃ n, 0 ≤ n ≤ 65535 ∧ Go.Atoi p = Ok n ∧ p = Go.Itoa n) ports.
Proof.
  intros H. eapply Forall_impl; [|apply port_string_Atoi].
  by eapply readPortsRange_port_string.
Qed.

Lemma readPortsRange_ports_witness :
  readPortsRange "007,1000-1002" = Ok ["7"; "1000"; "1001"; "1002"]%string ∧
  Forall (λ p, ∃ n, 0 ≤ n ≤ 65535 ∧ Go.Atoi p = Ok n ∧ p = Go.Itoa n)
    ["7"; "1000"; "1001"; "1002"]%string.
Proof.
  assert (H : readPortsRange "007,1000-1002" = Ok ["7"; "1000"; "1001"; "1002"]%string)
    by reflexivity.
  split; [exact H|]. exact (readPortsRange_ports _ _ H).
Defined.

(** *** sortPorts, recap and checkAccordance on port lists *)

Lemma atoiAll_is_Ok ports :
  is_Ok (atoiAll ports) = true ↔ Forall (λ p, is_Ok (Go.Atoi p) = true) ports.
Proof.
  induction ports as [|p ports IH]; simpl; [by split|].
  rewrite Forall_cons, <- IH.
  destruct (Go.Atoi p); simpl; [|by split; [|intros []]..].
  destruct (atoiAll ports); simpl; by split; [|intros []].
Qed.

Lemma SortInts_sorted holder : Sorted Z.le holder → Go.SortInts holder = holder.
Proof.
  intros Hs. apply (Sorted_unique Z.le); [|done|apply merge_sort_Permutation].
  apply Sorted_merge_sort, _.
Qed.

Lemma SortInts_range ports holder :
  atoiAll ports = Ok holder →
  Forall (λ v, int_min ≤ v ≤ int_max) (Go.SortInts holder).
Proof.
  intros Hh. unfold Go.SortInts. rewrite merge_sort_Permutation.
  apply atoiAll_Ok in Hh.
  induction Hh; constructor; [by eapply Atoi_range|done].
Qed.

(** X3. [sortPorts] succeeds exactly when [strconv.Atoi] reads every
    port; it then returns as many ports as it was given, and sorting
    its result again changes nothing. *)
Theorem sortPorts_idempotent (ports : list string) :
  (is_Ok (sortPorts ports) = true ↔ Forall (λ p, is_Ok (Go.Atoi p) = true) ports) ∧
  (∀ sorted, sortPorts ports = Ok sorted →
     length sorted = length ports ∧ sortPorts sorted = Ok sorted).
Proof.
  split.
  - rewrite <- atoiAll_is_Ok. unfold sortPorts. by destruct (atoiAll ports).
  - intros sorted Hs. unfold sortPorts in *.
    destruct (atoiAll ports) as [holder| |] eqn:Hh; simpl in Hs; try done.
    injection Hs as <-.
    pose proof (SortInts_range _ _ Hh) as Hrange.
    split.
    + pose proof (Forall2_length _ _ _ (proj1 (atoiAll_Ok _ _) Hh)) as Hlen.
      rewrite length_fmap. unfold Go.SortInts.
      by rewrite (Permutation_length (merge_sort_Permutation Z.le holder)).
    + rewrite (atoiAll_Itoa _ Hrange). simpl.
      rewrite (SortInts_sorted (Go.SortInts holder)); [done|].
      apply Sorted_merge_sort, _.
Qed.

(** On ports as [readPortsRange] writes them [sortPorts] does not fail,
    and it rearranges the strings themselves. *)
Lemma sortPorts_port_strings ports :
  Forall port_string ports →
  ∃ sorted, sortPorts ports = Ok sorted ∧ sorted ≡ₚ ports ∧ numeric_ascending sorted.
Proof.
  intros Hall.
  assert (∃ holder, ports = Go.Itoa <$> holder ∧
                    Forall (λ v, int_min ≤ v ≤ int_max) holder) as (holder & -> & Hr).
  { induction Hall as [|p ports (n & Hn & ->) _ (holder & -> & Hr)].
    - by exists [].
    - exists (n :: holder). split; [done|]. constructor; [|done].
      unfold int_min, int_max. lia. }
  exists (Go.Itoa <$> Go.SortInts holder). unfold sortPorts.
  rewrite atoiAll_Itoa by done. simpl. split; [done|]. split.
  - unfold Go.SortInts. by rewrite merge_sort_Permutation.
  - eapply sortPorts_ascending. unfold sortPorts. by rewrite atoiAll_Itoa.
Qed.

(** X4. Given lists of ports as [readPortsRange] writes them, [recap]
    never logs a sorting error: it logs one warning for each list that
    is not empty, and the ports in the warning are those of the list,
    rearranged in ascending numeric order. *)
Theorem recap_of_port_strings (name : string) (unexpected closed : list string) :
  Forall port_string unexpected → Forall port_string closed →
  ∃ sorted_u sorted_c,
    sortPorts unexpected = Ok sorted_u ∧ sortPorts closed = Ok sorted_c ∧
    sorted_u ≡ₚ unexpected ∧ sorted_c ≡ₚ closed ∧
    numeric_ascending sorted_u ∧ numeric_ascending sorted_c ∧
    recap name unexpected closed =
      (if decide (unexpected = []) then []
       else [Msgf WarnLevel "[%s] %s unexpected" [AStr name; AStrs sorted_u]]) ++
      (if decide (closed = []) then []
       else [Msgf WarnLevel "[%s] %s closed" [AStr name; AStrs sorted_c]]).
Proof.
  intros (su & Hsu & Hpu & Hau)%sortPorts_port_strings
         (sc & Hsc & Hpc & Hac)%sortPorts_port_strings.
  exists su, sc. repeat (split; [done|]).
  unfold recap. rewrite Hsu, Hsc.
  f_equal; [destruct unexpected|destruct closed]; done.
Qed.

Lemma recap_of_port_strings_witness :
  (Forall port_string ["1337"; "23"]%string ∧ Forall port_string ["80"; "22"]%string) ∧
  ∃ sorted_u sorted_c,
    sortPorts ["1337"; "23"]%string = Ok sorted_u ∧
    sortPorts ["80"; "22"]%string = Ok sorted_c ∧
    sorted_u ≡ₚ ["1337"; "23"]%string ∧ sorted_c ≡ₚ ["80"; "22"]%string ∧
    numeric_ascending sorted_u ∧ numeric_ascending sorted_c ∧
    recap "web" ["1337"; "23"]%string ["80"; "22"]%string =
      (if decide (["1337"; "23"]%string = []) then []
       else [Msgf WarnLevel "[%s] %s unexpected" [AStr "web"; AStrs sorted_u]]) ++
      (if decide (["80"; "22"]%string = []) then []
       else [Msgf WarnLevel "[%s] %s closed" [AStr "web"; AStrs sorted_c]]).
Proof.
  assert (H1 : Forall port_string ["1337"; "23"]%string).
  { repeat constructor; [exists 1337|exists 23]; (split; [lia|reflexivity]). }
  assert (H2 : Forall port_string ["80"; "22"]%string).
  { repeat constructor; [exists 80|exists 22]; (split; [lia|reflexivity]). }
  split; [done|].
  exact (recap_of_port_strings "web" _ _ H1 H2).
Defined.

Lemma recap_nil name unexpected closed :
  recap name unexpected closed = [] ↔ unexpected = [] ∧ closed = [].
Proof.
  assert (Hpos : ∀ (x : string) l, (0 <? Z.of_nat (length (x :: l))) = true).
  { intros. apply Z.ltb_lt. simpl. lia. }
  unfold recap, len. split; [|by intros [-> ->]].
  destruct unexpected as [|u unexpected].
  - destruct closed as [|c closed]; [done|].
    rewrite Hpos. destruct (sortPorts (c :: closed)); cbn; intros H; discriminate H.
  - rewrite Hpos. destruct (sortPorts _); cbn [app]; intros H; discriminate H.
Qed.

(** X5. When the expected ports of the protocol read as a port
    expression, [checkAccordance] returns no error; a port is reported
    unexpected exactly when it is open and not expected, closed exactly
    when it is expected and not open; and [recap] logs nothing exactly
    when the open ports and the expected ports are the same ports. *)
Theorem accordance_silent (t : Target) (proto name : string) (open exp : list string) :
  readPortsRange (expected (default protocol_zero (t_protos t !! proto))) = Ok exp →
  ∃ unexpected closed,
    checkAccordance t proto open = (unexpected, closed, None) ∧
    (∀ p, p ∈ unexpected ↔ p ∈ open ∧ p ∉ exp) ∧
    (∀ p, p ∈ closed ↔ p ∈ exp ∧ p ∉ open) ∧
    (recap name unexpected closed = [] ↔ ∀ p, p ∈ open ↔ p ∈ exp).
Proof.
  intros Hexp. unfold checkAccordance. rewrite Hexp.
  eexists _, _. split; [reflexivity|].
  assert (Hu : ∀ p, p ∈ filter (λ port, common.StringInSlice port exp = false) open
                    ↔ p ∈ open ∧ p ∉ exp).
  { intros p. rewrite list_elem_of_filter. unfold common.StringInSlice.
    rewrite bool_decide_eq_false. tauto. }
  assert (Hc : ∀ p, p ∈ filter (λ port, common.StringInSlice port open = false) exp
                    ↔ p ∈ exp ∧ p ∉ open).
  { intros p. rewrite list_elem_of_filter. unfold common.StringInSlice.
    rewrite bool_decide_eq_false. tauto. }
  split; [exact Hu|]. split; [exact Hc|]. split.
  - intros [Hun Hcn]%recap_nil p. split; intros Hp.
    + destruct (decide (p ∈ exp)) as [|Hn]; [done|].
      assert (p ∈ filter (λ port, common.StringInSlice port exp = false) open)
        as Hin by by apply Hu.
      rewrite Hun in Hin. by apply elem_of_nil in Hin.
    + destruct (decide (p ∈ open)) as [|Hn]; [done|].
      assert (p ∈ filter (λ port, common.StringInSlice port open = false) exp)
        as Hin by by apply Hc.
      rewrite Hcn in Hin. by apply elem_of_nil in Hin.
  - intros Hsame. apply recap_nil. split; apply elem_of_nil_inv; intros p.
    + rewrite Hu. intros [Ho Hn]. by apply Hn, Hsame.
    + rewrite Hc. intros [Ho Hn]. by apply Hn, Hsame.
Qed.

Lemma accordance_silent_witness :
  readPortsRange (expected (default protocol_zero (t_protos web !! "tcp"%string)))
    = Ok ["80"; "22"]%string ∧
  ∃ unexpected closed,
    checkAccordance web "tcp" ["1337"; "23"]%string = (unexpected, closed, None) ∧
    (∀ p, p ∈ unexpected ↔ p ∈ ["1337"; "23"]%string ∧ p ∉ ["80"; "22"]%string) ∧
    (∀ p, p ∈ closed ↔ p ∈ ["80"; "22"]%string ∧ p ∉ ["1337"; "23"]%string) ∧
    (recap "web" unexpected closed = [] ↔
     ∀ p, p ∈ ["1337"; "23"]%string ↔ p ∈ ["80"; "22"]%string).
Proof.
  assert (H : readPortsRange (expected (default protocol_zero
                (t_protos web !! "tcp"%string))) = Ok ["80"; "22"]%string)
    by reflexivity.
  split; [exact H|].
  exact (accordance_silent web "tcp" "web" ["1337"; "23"]%string _ H).
Defined.

(** *** New and setPorts *)

Lemma setPorts_Ok proto period rng exp t :
  option_ok (proto, period, rng, exp) →
  ∃ ports, readPortsRange rng = Ok ports ∧
    setPorts proto period rng exp t =
      Ok (mkTarget (t_name t) (t_ip t) (t_workers t)
            (<[proto := mkProtocol period rng exp]> (t_protos t))
            (t_startTime t)
            (<[proto := ports]> (t_portsToScan t))).
Proof.
  intros [Hproto Hrng]. unfold setPorts, common.StringInSlice.
  rewrite bool_decide_eq_true_2 by done. simpl.
  destruct (readPortsRange rng) as [ports| |]; [|done..]. by exists ports.
Qed.

Lemma setPorts_inv proto period rng exp t t' :
  setPorts proto period rng exp t = Ok t' →
  option_ok (proto, period, rng, exp).
Proof.
  unfold setPorts, common.StringInSlice, option_ok, known_protocols.
  case_bool_decide; simpl; [|done].
  by destruct (readPortsRange rng).
Qed.

Lemma applyPorts_Ok o : ∀ t,
  is_Ok (applyPorts o t) = true ↔ Forall option_ok o.
Proof.
  induction o as [|[[[proto period] rng] exp] o IH]; intros t; simpl; [done|].
  rewrite Forall_cons. split.
  - destruct (setPorts proto period rng exp t) as [t'| |] eqn:Hset; [|done..].
    simpl. intros Ho. split; [by eapply setPorts_inv|by eapply IH].
  - intros [Hopt Ho].
    destruct (setPorts_Ok proto period rng exp t Hopt) as (ports & _ & ->).
    simpl. by apply IH.
Qed.

Lemma applyPorts_configured o : ∀ t0 t,
  applyPorts o t0 = Ok t → configured t0 →
  t_name t = t_name t0 ∧ t_ip t = t_ip t0 ∧ t_workers t = t_workers t0 ∧
  t_startTime t = t_startTime t0 ∧ configured t ∧
  ∀ proto pr, t_protos t !! proto = Some pr →
    t_protos t0 !! proto = Some pr ∨ (proto, period pr, rng pr, expected pr) ∈ o.
Proof.
  induction o as [|[[[proto period] rng] exp] o IH]; intros t0 t; simpl.
  - intros [= <-] Hc. repeat split; try done. by left.
  - destruct (setPorts proto period rng exp t0) as [t1| |] eqn:Hset; [|done..].
    simpl. intros Happly Hc.
    pose proof (setPorts_inv _ _ _ _ _ _ Hset) as Hopt.
    destruct (setPorts_Ok proto period rng exp t0 Hopt) as (ports & Hports & Heq).
    rewrite Heq in Hset. injection Hset as <-.
    destruct (IH _ _ Happly) as (-> & -> & -> & -> & Hc' & Hprotos).
    { intros proto'. simpl. destruct (decide (proto = proto')) as [<-|Hne].
      - rewrite !lookup_insert_eq. split; [apply Hopt|]. by exists ports.
      - rewrite !lookup_insert_ne by done. apply Hc. }
    repeat split; try done.
    intros proto' pr Hpr. destruct (Hprotos _ _ Hpr) as [Hin|Hin].
    + simpl in Hin. destruct (decide (proto = proto')) as [<-|Hne].
      * rewrite lookup_insert_eq in Hin. injection Hin as <-. right. simpl. by left.
      * rewrite lookup_insert_ne in Hin by done. by left.
    + right. by right.
Qed.

(** X6. [New] returns a target exactly when the address parses and
    every option names one of ["udp"], ["tcp"], ["icmp"] with a range
    [readPortsRange] reads. Neither the period nor the expected ports of
    an option are looked at. *)
Theorem New_accepts (validIP : bool) (name ip : string) (workers : Z)
    (o : list (string * string * string * string)) :
  is_Ok (New validIP name ip workers o) = true ↔
  validIP = true ∧
  Forall (λ opt, opt.1.1.1 ∈ ["udp"; "tcp"; "icmp"]%string ∧
                 is_Ok (readPortsRange opt.1.2) = true) o.
Proof.
  unfold New. destruct validIP; simpl; [|by split; [|intros []]].
  rewrite applyPorts_Ok. split.
  - intros Ho. split; [done|]. eapply Forall_impl; [done|].
    by intros [[[proto period] rng] exp].
  - intros [_ Ho]. eapply Forall_impl; [done|].
    by intros [[[proto period] rng] exp].
Qed.

(** X7. The target [New] returns carries the name, the address and the
    number of workers it was given and no start time; each protocol it
    has a configuration for is one of the three, comes from one of the
    options, and has for port list what its range reads as; a protocol
    without a configuration has no port list. *)
Theorem New_configured (validIP : bool) (name ip : string) (workers : Z)
    (o : list (string * string * string * string)) (t : Target) :
  New validIP name ip workers o = Ok t →
  t_name t = name ∧ t_ip t = ip ∧ t_workers t = workers ∧ t_startTime t = ∅ ∧
  configured t ∧
  ∀ proto pr, t_protos t !! proto = Some pr →
    (proto, period pr, rng pr, expected pr) ∈ o.
Proof.
  unfold New. destruct validIP; simpl; [|done]. intros Happly.
  destruct (applyPorts_configured o _ _ Happly) as (? & ? & ? & ? & ? & Hp).
  { intros proto. simpl. by rewrite !lookup_empty. }
  repeat split; try done. intros proto pr Hpr.
  destruct (Hp _ _ Hpr) as [Hin|Hin]; [|done]. simpl in Hin.
  by rewrite lookup_empty in Hin.
Qed.

Lemma New_configured_witness :
  New true "web" "10.0.0.1" 2 [("tcp", "1h", "1337,23", "80,22")]%string = Ok web ∧
  (t_name web = "web"%string ∧ t_ip web = "10.0.0.1"%string ∧ t_workers web = 2 ∧
   t_startTime web = ∅ ∧ configured web ∧
   ∀ proto pr, t_protos web !! proto = Some pr →
     (proto, period pr, rng pr, expected pr)
       ∈ [("tcp", "1h", "1337,23", "80,22")]%string).
Proof.
  assert (H : New true "web" "10.0.0.1" 2 [("tcp", "1h", "1337,23", "80,22")]%string
              = Ok web) by reflexivity.
  split; [exact H|].
  exact (New_configured true "web" "10.0.0.1" 2 _ web H).
Defined.

(** *** Run and scheduler on the wanted protocols *)

Lemma getWantedProto_filter t :
  getWantedProto t =
    filter (λ proto, period_of t proto ≠ ""%string) ["tcp"; "udp"; "icmp"]%string.
Proof.
  unfold getWantedProto, period_of. rewrite !filter_cons, filter_nil.
  repeat case_decide;
    repeat match goal with
           | H : _ = ""%string |- _ => rewrite H
           | H : _ ≠ ""%string |- _ => rewrite (proj2 (String.eqb_neq _ _) H)
           end; done.
Qed.

(** [createJobs] cuts the port list into consecutive slices, one job
    for each. *)
Lemma createJobs_chunks t proto ports :
  t_portsToScan t !! proto = Some ports →
  proto ≠ "icmp"%string →
  1 ≤ t_workers t ≤ int_max →
  len ports < int_max →
  ∃ chunks, createJobs t proto = Ok (job_of t proto <$> chunks) ∧
    mjoin chunks = ports ∧ len chunks = Z.min (t_workers t) (len ports).
Proof.
  intros Hports Hicmp [Hw1 Hw2] Hn.
  unfold createJobs. rewrite Hports, (proj2 (String.eqb_neq _ _)) by done.
  rewrite (proj2 (Z.eqb_neq _ 0)) by lia.
  set (w := t_workers t) in *. set (n := len ports) in *.
  assert (Hn0 : 0 ≤ n) by (unfold n, len; lia).
  rewrite Z.quot_div_nonneg by lia.
  set (d := n `div` w).
  assert (Hd : 0 ≤ d) by (apply Z.div_pos; lia).
  assert (Hdn : d * w ≤ n) by (unfold d; rewrite Z.mul_comm; apply Z.mul_div_le; lia).
  assert (Hr : n - d * w = n `mod` w) by (unfold d; rewrite Z.mod_eq by lia; lia).
  assert (Hrw : 0 ≤ n `mod` w < w) by (apply Z.mod_pos_bound; lia).
  assert (Hdw : 0 ≤ d * w) by nia.
  assert (Hdle : d ≤ n) by nia.
  rewrite (wrap64_id d) by (unfold int_min, int_max in *; lia).
  rewrite (wrap64_id (d * w)) by (unfold int_min, int_max in *; lia).
  rewrite (wrap64_id (n - d * w)) by (unfold int_min, int_max in *; lia).
  rewrite (wrap64_id (d + 1)) by (unfold int_min, int_max in *; lia).
  set (r := n - d * w) in *.
  set (k := Z.to_nat r). set (m := Z.to_nat (w - r - 1)).
  replace (Z.to_nat w) with (k + S m)%nat by lia.
  rewrite (createJobs_loop_before t proto ports r (Z.lt_le_incl _ _ Hn) d k m 0 0 [])
    by (unfold k, m; nia).
  eexists; split; [reflexivity|].
  set (sizes := replicate k (Z.to_nat (d + 1)) ++
                (if d =? 0 then [] else replicate (S m) (Z.to_nat d))).
  assert (Hsum : sum_list sizes = length ports).
  { unfold sizes. rewrite sum_list_with_app, sum_list_replicate.
    destruct (Z.eqb_spec d 0) as [Hd0|Hd0]; simpl.
    - unfold k, r, n, len in *. nia.
    - rewrite sum_list_replicate. unfold k, m, r, n, len in *. nia. }
  simpl. rewrite drop_0. split; [by apply join_reshape|].
  unfold len. rewrite length_reshape. unfold sizes.
  rewrite length_app, length_replicate.
  destruct (Z.eqb_spec d 0) as [Hd0|Hd0]; simpl.
  - unfold k, r. lia.
  - rewrite length_replicate. unfold k, m, r.
    assert (w ≤ n) by nia. lia.
Qed.

Lemma web_configured : configured web.
Proof.
  intros proto. unfold web. simpl.
  destruct (decide (proto = "tcp"%string)) as [->|Hne].
  - rewrite !lookup_insert_eq. split; [by right; left|].
    by exists ["1337"; "23"]%string.
  - rewrite !lookup_insert_ne by done. by rewrite !lookup_empty.
Qed.

(** X8. On a target whose maps are as [setPorts] leaves them, with at
    least one worker, a trigger for a protocol of [getWantedProto] never
    makes [Run] return: [createJobs] does not fail, the trigger loop goes
    on, and no error is logged. *)
Theorem Run_trigger_never_stops (jobID proto : string) (r : runtime) :
  configured (tgt r) →
  proto ∈ getWantedProto (tgt r) →
  1 ≤ t_workers (tgt r) ≤ int_max →
  len (default [] (t_portsToScan (tgt r) !! proto)) < int_max →
  ∃ r', Run_trigger jobID proto r = Ok r' ∧ running r' = running r ∧
        Forall (λ e, lvl e ≠ ErrorLevel) (drop (length (logger r)) (logger r')).
Proof.
  intros Hc Hwanted Hw Hlen. unfold Run_trigger.
  destruct (IsZero _).
  { eexists. split; [done|]. split; [done|]. simpl.
    rewrite drop_app_length. by repeat constructor. }
  rewrite getWantedProto_filter in Hwanted.
  apply list_elem_of_filter in Hwanted as [Hperiod _]. unfold period_of in Hperiod.
  specialize (Hc proto).
  destruct (t_protos (tgt r) !! proto) as [pr|] eqn:Hpr; [|done].
  destruct Hc as (_ & ports & Hports & _). rewrite Hports in Hlen. simpl in Hlen.
  destruct (decide (proto = "icmp"%string)) as [->|Hicmp].
  - unfold createJobs. rewrite Hports. simpl.
    eexists. split; [done|]. split; [done|]. simpl.
    by rewrite drop_ge.
  - destruct (createJobs_chunks _ _ _ Hports Hicmp Hw Hlen) as (chunks & -> & _).
    eexists. split; [done|]. split; [done|]. simpl. by rewrite drop_ge.
Qed.

Lemma Run_trigger_never_stops_witness :
  let r := ticker 1 "tcp" (start web) in
  (configured (tgt r) ∧ "tcp"%string ∈ getWantedProto (tgt r) ∧
   1 ≤ t_workers (tgt r) ≤ int_max ∧
   len (default [] (t_portsToScan (tgt r) !! "tcp"%string)) < int_max) ∧
  ∃ r', Run_trigger "scanAAAAAA" "tcp" r = Ok r' ∧ running r' = running r ∧
        Forall (λ e, lvl e ≠ ErrorLevel) (drop (length (logger r)) (logger r')).
Proof.
  intros r.
  assert (H1 : configured (tgt r)) by exact web_configured.
  assert (H2 : "tcp"%string ∈ getWantedProto (tgt r)) by (by left).
  assert (H3 : 1 ≤ t_workers (tgt r) ≤ int_max) by (cbn; unfold int_max; lia).
  assert (H4 : len (default [] (t_portsToScan (tgt r) !! "tcp"%string)) < int_max)
    by (vm_compute; reflexivity).
  split; [done|].
  exact (Run_trigger_never_stops "scanAAAAAA" "tcp" r H1 H2 H3 H4).
Defined.

(** *** scheduler *)

Lemma scheduler_cons PD t proto protocols :
  scheduler PD t (proto :: protocols) =
    if bool_decide (proto ∈ ["tcp"; "udp"; "icmp"]%string) then
      match getDuration PD (period_of t proto) with
      | Ok d =>
          if 0 <? d then
            '(lg, tickers) ← scheduler PD t protocols; Ok (lg, (proto, d) :: tickers)
          else Panic "non-positive interval for NewTicker"
      | Err _ => Panic "non-positive interval for NewTicker"
      | Panic why => Panic why
      end
    else scheduler PD t protocols.
Proof.
  cbn [scheduler]. fold (period_of t proto).
  assert (String.eqb proto "tcp" || String.eqb proto "udp" || String.eqb proto "icmp"
          = bool_decide (proto ∈ ["tcp"; "udp"; "icmp"]%string)) as ->.
  { destruct (String.eqb_spec proto "tcp") as [->|?]; [done|].
    destruct (String.eqb_spec proto "udp") as [->|?]; [done|].
    destruct (String.eqb_spec proto "icmp") as [->|?]; [done|].
    simpl. symmetry. apply bool_decide_eq_false. intros Hin.
    repeat (apply elem_of_cons in Hin as [?|Hin]; [done|]).
    by apply elem_of_nil in Hin. }
  case_bool_decide; [|done].
  destruct (getDuration PD (period_of t proto)) as [d|e|why]; [|done..].
  unfold Go.NewTicker. destruct (0 <? d); [|done]. simpl.
  by destruct (scheduler PD t protocols) as [[lg tickers]| |].
Qed.

(** X9. [scheduler] gets through its list exactly when the period of
    every listed protocol among ["tcp"], ["udp"], ["icmp"] reads as a
    positive duration: a period that does not read, or reads as zero
    or less, ends in the panic of [time.NewTicker]. When it gets
    through, it has logged nothing and has started one ticker for each
    listed protocol of the three, in the order of the list, each with
    the duration of its period; protocols it does not know are passed
    over. It never reports an error. *)
Theorem scheduler_tickers (ParseDuration : string → result Z) (t : Target)
    (protocols : list string) :
  (is_Ok (scheduler ParseDuration t protocols) = true ↔
   Forall (schedulable ParseDuration t) protocols) ∧
  (∀ lg tickers, scheduler ParseDuration t protocols = Ok (lg, tickers) →
     lg = [] ∧
     tickers.*1 = filter (λ proto, proto ∈ ["tcp"; "udp"; "icmp"]%string) protocols ∧
     Forall (λ pt, getDuration ParseDuration (period_of t pt.1) = Ok pt.2 ∧ 0 < pt.2)
       tickers) ∧
  (∀ e, scheduler ParseDuration t protocols ≠ Err e).
Proof.
  induction protocols as [|proto protocols (IHok & IHres & IHerr)].
  { split; [done|]. split; [|done]. by intros lg tickers [= <- <-]. }
  rewrite scheduler_cons, filter_cons, Forall_cons. unfold schedulable at 1.
  destruct (decide (proto ∈ _)) as [Hin|Hnot].
  2:{ rewrite bool_decide_eq_false_2 by done. split; [|done].
      rewrite IHok. split; [|by intros [_ ?]].
      intros Hall. split; [by intros ?|done]. }
  rewrite bool_decide_eq_true_2 by done.
  destruct (getDuration ParseDuration (period_of t proto)) as [d|e|why] eqn:Hd.
  2,3: split; [|done]; split; [done|]; intros [Hs _];
       by destruct (Hs Hin) as (? & ? & _).
  destruct (Z.ltb_spec 0 d) as [Hpos|Hneg].
  2:{ split; [|done]. split; [done|]. intros [Hs _].
      destruct (Hs Hin) as (d' & [= <-] & ?). lia. }
  destruct (scheduler ParseDuration t protocols) as [[lg tickers]| |] eqn:Hs; simpl.
  - split; [|split; [|done]].
    + split; [|done]. intros _. split; [by exists d|by apply IHok].
    + intros lg' tickers' [= <- <-].
      destruct (IHres lg tickers eq_refl) as (-> & Hfst & Hall).
      split; [done|]. split; [simpl; by f_equal|]. by constructor.
  - by destruct (IHerr e).
  - split; [|done]. split; [done|]. intros [_ Hall]. by apply IHok in Hall.
Qed.

(** *** tcpScan and udpScan against the network *)

(** X10. [tcpScan] retries for as long as the dial fails for want of
    file descriptors, without bound: it returns only at the first dial
    that connects or fails otherwise, [true] for a connection and
    [false] for a failure, having slept once for each dial before. *)
Theorem tcpScan_net_retries (answers : list dialAnswer) :
  (tcpScan_net answers = None ↔ Forall exhausted answers) ∧
  (∀ retried a rest, Forall exhausted retried → ¬ exhausted a →
     tcpScan_net (retried ++ a :: rest) = Some (connected a, length retried)).
Proof.
  split.
  - induction answers as [|[|msg] answers IH]; simpl.
    + done.
    + split; [done|]. by intros [[] _]%Forall_cons.
    + rewrite Forall_cons. simpl.
      destruct (Go.ContainsString msg _); [|by split; [|intros []]].
      destruct (tcpScan_net answers) as [[responds slept]|]; simpl.
      * split; [done|]. intros [_ Hall]. by apply IH in Hall.
      * split; [|done]. intros _. split; [done|]. by apply IH.
  - clear answers. intros retried a rest Hall Ha.
    induction Hall as [|[|msg] retried Hx Hall IH]; simpl.
    + destruct a as [|msg]; simpl in *; [done|].
      by destruct (Go.ContainsString msg _).
    + done.
    + simpl in Hx. rewrite Hx, IH. done.
Qed.

Lemma udpScan_writes_count n todo : ∀ i errorCount,
  0 ≤ errorCount → errorCount + Z.of_nat todo ≤ int_max →
  errorCount ≤ udpScan_writes n todo i errorCount ≤ errorCount + Z.of_nat todo ∧
  (udpScan_writes n todo i errorCount = errorCount ↔
   ∀ j, (i ≤ j < i + todo)%nat → write_err n j = None).
Proof.
  induction todo as [|todo IH]; intros i errorCount H0 Hmax; simpl.
  - split; [lia|]. split; [intros _ j; lia|done].
  - destruct (write_err n i) as [err|] eqn:Hi.
    + rewrite wrap64_id by (unfold int_min, int_max in *; lia).
      destruct (IH (S i) (errorCount + 1)) as [Hb _]; [lia..|].
      split; [lia|]. split; [lia|]. intros Hall.
      specialize (Hall i). rewrite Hi in Hall. discriminate Hall. lia.
    + destruct (IH (S i) errorCount) as [Hb Hiff]; [lia..|].
      split; [lia|]. rewrite Hiff. split; intros Hall j Hj.
      * destruct (decide (j = i)) as [->|]; [done|]. apply Hall. lia.
      * apply Hall. lia.
Qed.

(** X11. [udpScan] returns an error, with [false], exactly when
    resolving the address or dialling fails, and then no connection is
    closed. Otherwise it closes the connection and reports the port
    open exactly when each of its three writes went through. *)
Theorem udpScan_net_open (n : udpAnswers) :
  match udpScan_net n with
  | ((responds, Some err), closed) =>
      responds = false ∧ closed = false ∧
      (resolve_err n = Some err ∨ resolve_err n = None ∧ dial_err n = Some err)
  | ((responds, None), closed) =>
      closed = true ∧ resolve_err n = None ∧ dial_err n = None ∧
      (responds = true ↔ ∀ i, (i < 3)%nat → write_err n i = None)
  end.
Proof.
  unfold udpScan_net.
  destruct (resolve_err n) as [err|]; [by auto|].
  destruct (dial_err n) as [err|]; [by auto|].
  repeat split; try done.
  - intros Hle%Z.leb_le.
    destruct (udpScan_writes_count n 3 0 0) as [Hb Hiff]; [done|unfold int_max; lia|].
    intros i Hi. apply Hiff; lia.
  - intros Hall. apply Z.leb_le.
    destruct (udpScan_writes_count n 3 0 0) as [_ Hiff]; [done|unfold int_max; lia|].
    rewrite (proj2 Hiff); [done|]. intros j Hj. apply Hall. lia.
Qed.

Example scheduler_hourly :
  scheduler (λ _, Ok Hour) web (getWantedProto web) = Ok ([], [("tcp"%string, Hour)]).
Proof. reflexivity. Qed.

Example scheduler_zero_days :
  scheduler (λ _, Ok Hour)
    (mkTarget "web" "10.0.0.1" 2 (<["tcp"%string := mkProtocol "0d" "80" ""]> ∅) ∅ ∅)
    ["tcp"%string]
  = Panic "non-positive interval for NewTicker".
Proof. reflexivity. Qed.

Example tcpScan_net_busy :
  tcpScan_net [DialError "dial tcp 10.0.0.1:80: socket: too many open files";
               DialError "dial tcp 10.0.0.1:80: socket: too many open files";
               Connected]
  = Some (true, 2%nat).
Proof. reflexivity. Qed.

(** *** worker *)

Lemma worker_tcp_filter pr ip ports : ∀ open lg,
  worker_tcp pr ip "tcp" ports open lg =
    (open ++ filter (λ p, responds pr "tcp" ip p = true) ports,
     lg ++ mjoin (port_log pr "tcp" ip <$> ports)).
Proof.
  induction ports as [|p ports IH]; intros open lg; simpl.
  - by rewrite !app_nil_r.
  - rewrite filter_cons.
    assert (Hr : responds pr "tcp" ip p = tcpScan pr ip p) by done.
    assert (Hl : port_log pr "tcp" ip p =
                 if tcpScan pr ip p
                 then [Msgf DebugLevel "%s/%s open" [AStr p; AStr "tcp"]] else [])
      by done.
    rewrite Hl. clear Hl.
    destruct (tcpScan pr ip p); rewrite IH.
    + rewrite decide_True by done. by rewrite <- !app_assoc.
    + rewrite decide_False by (by rewrite Hr). done.
Qed.

Lemma worker_udp_filter pr ip ports : ∀ open lg,
  worker_udp pr ip "udp" ports open lg =
    (open ++ filter (λ p, responds pr "udp" ip p = true) ports,
     lg ++ mjoin (port_log pr "udp" ip <$> ports)).
Proof.
  induction ports as [|p ports IH]; intros open lg; simpl.
  - by rewrite !app_nil_r.
  - rewrite filter_cons.
    assert (Hr : responds pr "udp" ip p =
                 match udpScan pr ip p with (true, None) => true | _ => false end)
      by done.
    assert (Hl : port_log pr "udp" ip p =
                 match udpScan pr ip p with
                 | (_, Some err) => [Msgf WarnLevel "error while scanning udp: %v" [AErr err]]
                 | (true, None) => [Msgf DebugLevel "%s/%s open" [AStr p; AStr "udp"]]
                 | (false, None) => []
                 end) by done.
    rewrite Hl. clear Hl.
    destruct (udpScan pr ip p) as [[|] [err|]]; rewrite IH.
    + rewrite decide_False by (by rewrite Hr). by rewrite <- !app_assoc.
    + rewrite decide_True by done. by rewrite <- !app_assoc.
    + rewrite decide_False by (by rewrite Hr). by rewrite <- !app_assoc.
    + rewrite decide_False by (by rewrite Hr). done.
Qed.

Lemma worker_job_ports pr name job :
  j_protocol job = "tcp"%string ∨ j_protocol job = "udp"%string →
  worker_job pr name job =
    (mjoin (port_log pr (j_protocol job) (j_ip job) <$> j_ports job),
     Some (worker_res pr job)).
Proof.
  unfold worker_job, worker_res. intros [-> | ->]; simpl.
  - by rewrite worker_tcp_filter.
  - by rewrite worker_udp_filter.
Qed.

(** X12. For a TCP or a UDP job the worker always sends one partial
    result. It carries the identifier, the job count, the address and
    the protocol of the job, and for ports those of the job the probe
    found open (for UDP: open and without error), in the order of the
    job; what the worker logs is what it logs for each port in turn. *)
Theorem worker_job_reports (pr : probes) (name : string) (job : jobMsg) :
  j_protocol job = "tcp"%string ∨ j_protocol job = "udp"%string →
  ∃ res, worker_job pr name job =
           (mjoin (port_log pr (j_protocol job) (j_ip job) <$> j_ports job), Some res) ∧
    j_id res = j_id job ∧ j_jobCount res = j_jobCount job ∧ j_ip res = j_ip job ∧
    j_protocol res = j_protocol job ∧
    j_ports res = filter (λ p, responds pr (j_protocol job) (j_ip job) p = true)
                    (j_ports job) ∧
    j_ports res `sublist_of` j_ports job.
Proof.
  intros Hproto. rewrite worker_job_ports by done.
  eexists. split; [done|]. simpl. repeat split. apply sublist_filter.
Qed.

Lemma worker_job_reports_witness :
  let job := mkJobMsg "scanAAAAAA" 1 "10.0.0.1" "tcp" ["1337"; "23"]%string in
  (j_protocol job = "tcp"%string ∨ j_protocol job = "udp"%string) ∧
  ∃ res, worker_job only23 "web" job =
           (mjoin (port_log only23 (j_protocol job) (j_ip job) <$> j_ports job), Some res) ∧
    j_id res = j_id job ∧ j_jobCount res = j_jobCount job ∧ j_ip res = j_ip job ∧
    j_protocol res = j_protocol job ∧
    j_ports res = filter (λ p, responds only23 (j_protocol job) (j_ip job) p = true)
                    (j_ports job) ∧
    j_ports res `sublist_of` j_ports job.
Proof.
  intros job.
  assert (H : j_protocol job = "tcp"%string ∨ j_protocol job = "udp"%string)
    by (left; reflexivity).
  split; [exact H|].
  exact (worker_job_reports only23 "web" job H).
Defined.

(** *** One partial result for each job *)









Example worker_pushes_tcp_udp :
  worker_job only23 "web" (mkJobMsg "scanAAAAAA" 2 "10.0.0.1" "tcp" ["1337"; "23"]%string)
    = ([Msgf DebugLevel "%s/%s open" [AStr "23"; AStr "tcp"]],
       Some (mkJobMsg "scanAAAAAA" 2 "10.0.0.1" "tcp" ["23"%string])) ∧
  worker_job only23 "web" (mkJobMsg "scanBBBBBB" 1 "10.0.0.1" "udp" ["53"%string])
    = ([], Some (mkJobMsg "scanBBBBBB" 1 "10.0.0.1" "udp" [])).
Proof. split; reflexivity. Qed.

(** *** One scan, from the tick to the outcome *)

Lemma receiver_result_set_resChan now res q r :
  receiver_result now res (set_resChan q r) = set_resChan q (receiver_result now res r).
Proof.
  unfold receiver_result. simpl.
  destruct (_ =? _); [|done].
  destruct (String.eqb (j_protocol res) "icmp"); simpl; [done|].
  by destruct (checkAccordance _ _ _) as [[? ?] [?|]].
Qed.

Lemma receiver_result_tgt now res r :
  tgt (receiver_result now res r) =
    if started_after res r =? j_jobCount res
    then setTimeTo (j_protocol res) zeroTime (tgt r) else tgt r.
Proof.
  unfold receiver_result. fold (started_after res r).
  destruct (_ =? _); [|done].
  destruct (String.eqb (j_protocol res) "icmp"); simpl; [done|].
  by destruct (checkAccordance _ _ _) as [[? ?] [?|]].
Qed.

Lemma receiver_run_pending_tgt sid n arrivals r :
  Forall (λ a, j_id a.2 = sid ∧ j_jobCount a.2 = n) arrivals →
  0 ≤ default 0 (recv_jobsStarted r !! sid) →
  default 0 (recv_jobsStarted r !! sid) + len arrivals < n → n ≤ int_max →
  tgt (receiver_run arrivals r) = tgt r.
Proof.
  induction arrivals as [|[now res] arrivals IH] using rev_ind; [done|].
  intros [Hall [Hid Hn]%Forall_singleton]%Forall_app H0 Hlt Hmax. simpl in Hid, Hn.
  unfold len in Hlt. rewrite length_app in Hlt. simpl in Hlt.
  destruct (receiver_run_pending sid n arrivals r) as (_ & _ & _ & Hc & _);
    [done|done|unfold len; lia|done|].
  unfold receiver_run in *. rewrite foldl_app. simpl.
  rewrite receiver_result_tgt.
  assert (started_after res (foldl (λ r a, receiver_result a.1 a.2 r) r arrivals)
          = default 0 (recv_jobsStarted r !! sid) + len arrivals + 1) as ->.
  { unfold started_after. rewrite Hid, Hc. apply wrap64_id.
    unfold int_min, int_max, len in *. lia. }
  rewrite (proj2 (Z.eqb_neq _ _)) by (unfold len; lia).
  apply IH; try done. unfold len. lia.
Qed.

Lemma receiver_run_complete_tgt sid arrivals now res r :
  partials_of sid (arrivals ++ [(now, res)]) → unseen sid r →
  len (arrivals ++ [(now, res)]) ≤ int_max →
  tgt (receiver_run (arrivals ++ [(now, res)]) r) =
    setTimeTo (j_protocol res) zeroTime (tgt r).
Proof.
  intros Hall [Hj Ho] Hmax. unfold partials_of in Hall.
  set (n := len (arrivals ++ [(now, res)])) in *.
  assert (Hn : n = len arrivals + 1).
  { unfold n, len. rewrite length_app. simpl. lia. }
  apply Forall_app in Hall as [Hinit [Hid Hcount]%Forall_singleton].
  simpl in Hid, Hcount.
  destruct (receiver_run_pending sid n arrivals r Hinit)
    as (_ & _ & _ & Hc & _); rewrite ?Hj; simpl; try lia.
  pose proof (receiver_run_pending_tgt sid n arrivals r Hinit) as Ht.
  rewrite Hj in Hc, Ht. simpl in Hc, Ht.
  unfold receiver_run in *. rewrite foldl_app. simpl.
  rewrite receiver_result_tgt.
  assert (started_after res (foldl (λ r a, receiver_result a.1 a.2 r) r arrivals) = n)
    as ->.
  { unfold started_after. rewrite Hid, Hc, wrap64_id; [lia|].
    unfold int_min, int_max, len in *. lia. }
  rewrite Hcount, Z.eqb_refl, Ht by lia. done.
Qed.

Lemma filter_join {A} (P : A → Prop) `{∀ x, Decision (P x)} (ls : list (list A)) :
  mjoin (filter P <$> ls) = filter P (mjoin ls).
Proof.
  induction ls as [|l ls IH]; [done|].
  change (filter P l ++ mjoin (filter P <$> ls) = filter P (l ++ mjoin ls)).
  by rewrite filter_app, IH.
Qed.

Lemma tick_Run_step now jobID proto r ports :
  idle r → now ≠ zeroTime →
  t_portsToScan (tgt r) !! proto = Some ports →
  proto ≠ "icmp"%string →
  1 ≤ t_workers (tgt r) ≤ int_max → len ports < int_max →
  ∃ chunks, mjoin chunks = ports ∧ len chunks = Z.min (t_workers (tgt r)) (len ports) ∧
    Run_step jobID (ticker now proto r) =
      Ok (mkRuntime (setTimeTo proto now (tgt r)) (logger r) []
            ((λ c, mkJobMsg jobID (len chunks) (t_ip (tgt r)) proto c) <$> chunks)
            [] (postScan r) (recv_openPorts r) (recv_jobsStarted r) true).
Proof.
  intros (Htr & Hjobs & Hres & Hrun) Hnow Hports Hicmp Hw Hlen.
  destruct (createJobs_chunks (setTimeTo proto now (tgt r)) proto ports)
    as (chunks & Hcreate & Hjoin & Hcount); try done.
  exists chunks. split; [done|]. split; [done|].
  unfold Run_step, ticker. simpl. rewrite Htr, Hrun. simpl.
  unfold Run_trigger. simpl. rewrite lookup_insert_eq. simpl.
  unfold IsZero. rewrite (proj2 (Z.eqb_neq now 0)) by done.
  rewrite Hcreate. unfold set_jobsChan. simpl. rewrite Hjobs, Hres. simpl.
  do 2 f_equal; [|done]. rewrite <- list_fmap_compose. unfold len.
  by rewrite length_fmap.
Qed.

Lemma receiver_result_frame now res r :
  trigger (receiver_result now res r) = trigger r ∧
  jobsChan (receiver_result now res r) = jobsChan r ∧
  resChan (receiver_result now res r) = resChan r ∧
  running (receiver_result now res r) = running r.
Proof.
  unfold receiver_result.
  destruct (_ =? _); [|done].
  destruct (String.eqb (j_protocol res) "icmp"); simpl; [done|].
  by destruct (checkAccordance _ _ _) as [[? ?] [?|]].
Qed.

(** What a worker does leaves alone what the receiver works on, and
    the other way round. *)
Lemma receiver_result_view now res r R :
  recv_view r = recv_view R →
  recv_view (receiver_result now res r) = recv_view (receiver_result now res R).
Proof.
  destruct r, R. unfold recv_view. simpl. intros [= -> -> -> ->].
  unfold receiver_result. simpl.
  destruct (_ =? _); [|done].
  destruct (String.eqb (j_protocol res) "icmp"); simpl; [done|].
  by destruct (checkAccordance _ _ _) as [[? ?] [?|]].
Qed.

Lemma worker_step_head pr job q r :
  jobsChan r = job :: q →
  worker_step pr r =
    let r' := log (worker_job pr (t_name (tgt r)) job).1 (set_jobsChan q r) in
    match (worker_job pr (t_name (tgt r)) job).2 with
    | Some res => set_resChan (resChan r ++ [res]) r'
    | None => r'
    end.
Proof.
  intros Hq. unfold worker_step. rewrite Hq.
  by destruct (worker_job pr (t_name (tgt r)) job) as [lg [res|]].
Qed.

Lemma worker_step_frame pr job q r :
  jobsChan r = job :: q →
  recv_view (worker_step pr r) = recv_view r ∧
  trigger (worker_step pr r) = trigger r ∧
  running (worker_step pr r) = running r ∧
  jobsChan (worker_step pr r) = q ∧
  resChan (worker_step pr r) =
    resChan r ++ sent_for pr (t_name (tgt r)) [job].
Proof.
  intros Hq. rewrite (worker_step_head pr job q r Hq). unfold sent_for. simpl.
  destruct (worker_job pr (t_name (tgt r)) job) as [lg [res|]]; simpl;
    by rewrite ?app_nil_r.
Qed.

Lemma sent_for_app pr name q1 q2 :
  sent_for pr name (q1 ++ q2) = sent_for pr name q1 ++ sent_for pr name q2.
Proof. apply omap_app. Qed.

Lemma scan_step_invariant pr r0 r r' (recd : list (Time * jobMsg)) :
  scan_step pr r r' →
  t_name (tgt r) = t_name (tgt r0) →
  recv_view r = recv_view (receiver_run recd r0) →
  ∃ recd',
    recd'.*2 ++ resChan r' ++ sent_for pr (t_name (tgt r0)) (jobsChan r')
      ≡ₚ recd.*2 ++ resChan r ++ sent_for pr (t_name (tgt r0)) (jobsChan r) ∧
    recv_view r' = recv_view (receiver_run recd' r0) ∧
    t_name (tgt r') = t_name (tgt r0) ∧
    t_workers (tgt r') = t_workers (tgt r) ∧
    trigger r' = trigger r ∧ running r' = running r.
Proof.
  intros Hstep Hname Hview. destruct Hstep as [r q1 job q2 Hq Hfree|r now Hres].
  - destruct (worker_step_frame pr job (q1 ++ q2)
                (set_jobsChan (job :: q1 ++ q2) r) eq_refl)
      as (Hv & Ht & Hr & Hj & Hs).
    exists recd. rewrite Hj, Hs, Hq. simpl tgt. rewrite Hname.
    assert (Htgt : tgt (worker_step pr (set_jobsChan (job :: q1 ++ q2) r)) = tgt r).
    { by injection Hv. }
    rewrite Htgt, Ht, Hr.
    split; [|split; [by rewrite Hv|done]].
    simpl resChan.
    change (job :: q2) with ([job] ++ q2). rewrite !sent_for_app.
    apply Permutation_app_head. rewrite <- !app_assoc.
    apply Permutation_app_head.
    rewrite (app_assoc (sent_for _ _ q1)).
    rewrite (app_assoc (sent_for _ _ [job])).
    apply Permutation_app_tail, Permutation_app_comm.
  - destruct (resChan r) as [|res q] eqn:Hq; [done|].
    unfold receiver_step. rewrite Hq.
    exists (recd ++ [(now, res)]).
    rewrite receiver_result_set_resChan. simpl.
    destruct (receiver_result_frame now res r) as (Ht & Hj & _ & Hr).
    rewrite Hj, Ht, Hr.
    destruct (receiver_result_target now res r) as [Hnm _]. rewrite Hnm.
    assert (Hw : t_workers (tgt (receiver_result now res r)) = t_workers (tgt r)).
    { rewrite receiver_result_tgt. by destruct (_ =? _). }
    rewrite Hw.
    split; [|split; [|done]].
    + rewrite fmap_app. simpl. rewrite <- !app_assoc. simpl.
      apply Permutation_app_head. done.
    + unfold receiver_run. rewrite foldl_app. simpl.
      change (recv_view (receiver_result now res r) =
              recv_view (receiver_result now res (receiver_run recd r0))).
      by apply receiver_result_view.
Qed.

Lemma scan_run_invariant pr r0 r' :
  rtc (scan_step pr) r0 r' →
  ∃ recd,
    recd.*2 ++ resChan r' ++ sent_for pr (t_name (tgt r0)) (jobsChan r')
      ≡ₚ resChan r0 ++ sent_for pr (t_name (tgt r0)) (jobsChan r0) ∧
    recv_view r' = recv_view (receiver_run recd r0) ∧
    t_name (tgt r') = t_name (tgt r0) ∧
    t_workers (tgt r') = t_workers (tgt r0) ∧
    trigger r' = trigger r0 ∧ running r' = running r0.
Proof.
  revert r'. apply rtc_ind_r.
  - by exists [].
  - intros r r' Hrun Hstep IH. destruct IH as (recd & Hperm & Hview & Hname & Hw & Ht & Hr).
    destruct (scan_step_invariant pr r0 r r' recd Hstep Hname Hview)
      as (recd' & Hperm' & Hview' & Hname' & Hw' & Ht' & Hr').
    exists recd'. rewrite Hperm', Hw', Ht', Hr'. done.
Qed.

Lemma scan_quiesces pr (n : nat) : ∀ r,
  (2 * length (jobsChan r) + length (resChan r) ≤ n)%nat →
  1 ≤ t_workers (tgt r) →
  ∃ r', rtc (scan_step pr) r r' ∧ quiescent r'.
Proof.
  induction n as [|n IH]; intros r Hn Hw.
  - exists r. split; [done|].
    split; [destruct (jobsChan r)|destruct (resChan r)]; simpl in *; try done; lia.
  - destruct (jobsChan r) as [|job q] eqn:Hq.
    + destruct (resChan r) as [|res q'] eqn:Hres; [by exists r|].
      assert (Hstep : scan_step pr r (receiver_step 0 r)).
      { constructor. by rewrite Hres. }
      destruct (scan_step_invariant pr r r _ [] Hstep eq_refl eq_refl)
        as (_ & _ & _ & _ & Hw' & _).
      destruct (IH (receiver_step 0 r)) as (r' & Hrun & Hquiet).
      * unfold receiver_step. rewrite Hres, receiver_result_set_resChan. simpl.
        destruct (receiver_result_frame 0 res r) as (_ & -> & _ & _).
        rewrite Hq. simpl in *. lia.
      * by rewrite Hw'.
      * exists r'. split; [|done]. by eapply rtc_l.
    + assert (Hstep : scan_step pr r (worker_step pr (set_jobsChan (job :: [] ++ q) r))).
      { apply (worker_completes pr r [] job q); [done|]. unfold len. simpl. lia. }
      destruct (scan_step_invariant pr r r _ [] Hstep eq_refl eq_refl)
        as (_ & _ & _ & _ & Hw' & _).
      destruct (worker_step_frame pr job q (set_jobsChan (job :: [] ++ q) r) eq_refl)
        as (_ & _ & _ & Hj & Hs).
      destruct (IH (worker_step pr (set_jobsChan (job :: [] ++ q) r)))
        as (r' & Hrun & Hquiet).
      * rewrite Hj, Hs. simpl resChan. rewrite length_app.
        assert (length (sent_for pr (t_name (tgt (set_jobsChan (job :: [] ++ q) r)))
                  [job]) ≤ 1)%nat.
        { unfold sent_for. simpl. destruct (worker_job _ _ _) as [lg [res|]]; simpl; lia. }
        simpl in *. lia.
      * by rewrite Hw'.
      * exists r'. split; [|done]. by eapply rtc_l.
Qed.

Lemma scan_completes sid proto ip (sent : list jobMsg) recd r :
  recd.*2 ≡ₚ sent → sent ≠ [] → len sent ≤ int_max →
  Forall (λ res, j_id res = sid ∧ j_jobCount res = len sent ∧
                 j_ip res = ip ∧ j_protocol res = proto) sent →
  unseen sid r →
  postScan (receiver_run recd r) =
    postScan r ++
    [mkResMsg (t_name (tgt r)) ip proto (ports_of recd)
       (accordance (tgt r) proto (ports_of recd)).1
       (accordance (tgt r) proto (ports_of recd)).2] ∧
  tgt (receiver_run recd r) = setTimeTo proto zeroTime (tgt r) ∧
  ports_of recd ≡ₚ mjoin (j_ports <$> sent).
Proof.
  intros Hperm Hne Hmax Hall Hunseen.
  assert (Hlen : len recd = len sent).
  { unfold len. f_equal. apply Permutation_length in Hperm.
    by rewrite length_fmap in Hperm. }
  assert (Hrecd : Forall (λ a, j_id a.2 = sid ∧ j_jobCount a.2 = len recd ∧
                               j_ip a.2 = ip ∧ j_protocol a.2 = proto) recd).
  { rewrite Hlen.
    apply (Forall_fmap snd (λ res, j_id res = sid ∧ j_jobCount res = len sent ∧
                                    j_ip res = ip ∧ j_protocol res = proto)).
    by rewrite Hperm. }
  assert (Hpartials : partials_of sid recd).
  { unfold partials_of. eapply Forall_impl; [done|]. by intros a (? & ? & _). }
  assert (Hports : ports_of recd ≡ₚ mjoin (j_ports <$> sent)).
  { unfold ports_of. by rewrite list_fmap_compose, Hperm. }
  destruct recd as [|[now res] recd _] using rev_ind.
  { apply Permutation_nil_l in Hperm. by subst. }
  apply Forall_app in Hrecd as [_ (_ & _ & Hip & Hproto)%Forall_singleton].
  simpl in Hip, Hproto.
  destruct (receiver_run_complete sid (recd ++ [(now, res)]) r)
    as (now' & res' & Hlast & Hpost & _); try done.
  { by destruct recd. }
  { by rewrite Hlen. }
  rewrite last_snoc in Hlast. injection Hlast as <- <-.
  rewrite Hip, Hproto in Hpost. split; [done|]. split; [|done].
  rewrite (receiver_run_complete_tgt sid recd now res r); try done.
  - by rewrite Hproto.
  - by rewrite Hlen.
Qed.

Lemma sent_for_ports pr name jobs :
  Forall (λ job, j_protocol job = "tcp"%string ∨ j_protocol job = "udp"%string) jobs →
  sent_for pr name jobs = worker_res pr <$> jobs.
Proof.
  induction 1 as [|job jobs Hjob _ IH]; [done|].
  change (job :: jobs) with ([job] ++ jobs).
  rewrite sent_for_app, IH. unfold sent_for. simpl.
  by rewrite worker_job_ports.
Qed.

(** X13. One scan of a TCP or UDP protocol, on a target at rest with
    at least one worker and at least one port to scan, while no other
    trigger arrives. After the tick [Run] queues the jobs; the workers
    and the receiver then run side by side, in whatever order. Some run
    gets to the point where nothing is queued, and every run that gets
    there has sent exactly one outcome: it carries the name and the
    address of the target, the protocol, and for open ports the ports of
    the protocol's list that the probe found open, each as often as the
    list has it, in the order in which the partial results arrived; its
    two accordance lists are those of these open ports. [Run] is still
    running and the start time of the protocol is back to the zero
    instant. *)
Theorem scan_reports_open_ports (pr : probes) (now : Time)
    (jobID proto : string) (r : runtime) (ports : list string) :
  idle r → unseen jobID r → now ≠ zeroTime →
  proto = "tcp"%string ∨ proto = "udp"%string →
  t_portsToScan (tgt r) !! proto = Some ports → ports ≠ [] →
  1 ≤ t_workers (tgt r) ≤ int_max → len ports < int_max →
  let open := filter (λ p, responds pr proto (t_ip (tgt r)) p = true) ports in
  ∃ r1, Run_step jobID (ticker now proto r) = Ok r1 ∧
    (∃ r', rtc (scan_step pr) r1 r' ∧ quiescent r') ∧
    ∀ r', rtc (scan_step pr) r1 r' → quiescent r' →
      ∃ open', open' ≡ₚ open ∧
        postScan r' = postScan r ++
          [mkResMsg (t_name (tgt r)) (t_ip (tgt r)) proto open'
             (accordance (tgt r) proto open').1 (accordance (tgt r) proto open').2] ∧
        idle r' ∧ t_startTime (tgt r') !! proto = Some zeroTime.
Proof.
  intros Hidle Hunseen Hnow Hproto Hports Hne Hw Hlen open.
  assert (Hicmp : proto ≠ "icmp"%string) by (by destruct Hproto as [-> | ->]).
  destruct (tick_Run_step now jobID proto r ports) as (chunks & Hjoin & Hcount & Hrun);
    try done.
  eexists. split; [exact Hrun|].
  set (jobs := (λ c, mkJobMsg jobID (len chunks) (t_ip (tgt r)) proto c) <$> chunks).
  set (r1 := mkRuntime _ _ _ _ _ _ _ _ _).
  split; [apply (scan_quiesces pr _ r1 (Nat.le_refl _)); simpl; lia|].
  intros r' Hreach [Hjobs' Hres'].
  destruct (scan_run_invariant pr r1 r' Hreach)
    as (recd & Hperm & Hview & Hname & _ & Htr & Hrunning).
  rewrite Hjobs', Hres' in Hperm. simpl in Hperm. rewrite app_nil_r in Hperm.
  rewrite (sent_for_ports pr _ jobs) in Hperm.
  2:{ apply Forall_fmap, Forall_forall. by intros c _. }
  assert (Hchunks : chunks ≠ []).
  { intros ->. unfold len in Hcount. simpl in Hcount.
    destruct ports; [done|]. simpl in Hcount. lia. }
  destruct (scan_completes jobID proto (t_ip (tgt r)) (worker_res pr <$> jobs) recd r1)
    as (Hpost & Htgt & Hopen); try done.
  { unfold jobs. by destruct chunks. }
  { unfold jobs, len in *. rewrite !length_fmap. lia. }
  { unfold jobs. rewrite <- list_fmap_compose. apply Forall_fmap, Forall_forall.
    intros c _. simpl. unfold len. by rewrite !length_fmap. }
  injection Hview as Hvt Hvp _ _.
  exists (ports_of recd). split; [|split; [|split]].
  - rewrite Hopen. unfold jobs, open. rewrite <- !list_fmap_compose.
    rewrite <- Hjoin, <- filter_join. done.
  - rewrite Hvp, Hpost. simpl. do 3 f_equal.
    all: by rewrite (accordance_protos _ (tgt r)).
  - destruct Hidle as (_ & _ & _ & Hr). by repeat split.
  - rewrite Hvt, Htgt. simpl. by rewrite lookup_insert_eq.
Qed.

Lemma scan_reports_open_ports_witness :
  let r := start web in
  let ports := ["1337"; "23"]%string in
  (idle r ∧ unseen "scanAAAAAA" r ∧ 1 ≠ zeroTime ∧
   ("tcp"%string = "tcp"%string ∨ "tcp"%string = "udp"%string) ∧
   t_portsToScan (tgt r) !! "tcp"%string = Some ports ∧ ports ≠ [] ∧
   1 ≤ t_workers (tgt r) ≤ int_max ∧ len ports < int_max) ∧
  let open := filter (λ p, responds only23 "tcp" (t_ip (tgt r)) p = true) ports in
  ∃ r1, Run_step "scanAAAAAA" (ticker 1 "tcp" r) = Ok r1 ∧
    (∃ r', rtc (scan_step only23) r1 r' ∧ quiescent r') ∧
    ∀ r', rtc (scan_step only23) r1 r' → quiescent r' →
      ∃ open', open' ≡ₚ open ∧
        postScan r' = postScan r ++
          [mkResMsg (t_name (tgt r)) (t_ip (tgt r)) "tcp" open'
             (accordance (tgt r) "tcp" open').1 (accordance (tgt r) "tcp" open').2] ∧
        idle r' ∧ t_startTime (tgt r') !! "tcp"%string = Some zeroTime.
Proof.
  intros r ports.
  assert (H1 : idle r) by (repeat split).
  assert (H2 : unseen "scanAAAAAA" r) by (split; reflexivity).
  assert (H3 : 1 ≠ zeroTime) by discriminate.
  assert (H4 : "tcp"%string = "tcp"%string ∨ "tcp"%string = "udp"%string)
    by (left; reflexivity).
  assert (H5 : t_portsToScan (tgt r) !! "tcp"%string = Some ports) by reflexivity.
  assert (H6 : ports ≠ []) by discriminate.
  assert (H7 : 1 ≤ t_workers (tgt r) ≤ int_max) by (cbn; unfold int_max; lia).
  assert (H8 : len ports < int_max) by (vm_compute; reflexivity).
  split; [exact (conj H1 (conj H2 (conj H3 (conj H4 (conj H5 (conj H6 (conj H7 H8)))))))|].
  exact (scan_reports_open_ports only23 1 "scanAAAAAA" "tcp" r ports
           H1 H2 H3 H4 H5 H6 H7 H8).
Defined.

(** The second worker done first: the ports come out in the order of
    arrival, not in that of the list. *)
Example scan_second_worker_first :
  let r := receiver_run
             [(2, mkJobMsg "scanAAAAAA" 2 "10.0.0.1" "tcp" ["23"%string]);
              (3, mkJobMsg "scanAAAAAA" 2 "10.0.0.1" "tcp" ["1337"%string])]
             (start web) in
  OpenPorts <$> postScan r = [["23"; "1337"]%string].
Proof. reflexivity. Qed.

(** X14. A protocol other than ICMP whose port list is empty, on a
    target at rest with at least one worker: the tick sets the start
    time and [Run] takes the trigger, but no job is made. Nothing is
    queued then, so that neither a worker nor the receiver has anything
    to do, whatever the order they run in: nothing is scanned, nothing
    is logged, no outcome is ever sent, and the start time stays at the
    instant of the tick. *)
Theorem empty_range_scan_reports_nothing (pr : probes) (now : Time)
    (jobID proto : string) (r : runtime) :
  idle r → now ≠ zeroTime → proto ≠ "icmp"%string →
  t_portsToScan (tgt r) !! proto = Some [] →
  1 ≤ t_workers (tgt r) ≤ int_max →
  ∃ r1, Run_step jobID (ticker now proto r) = Ok r1 ∧
    (∀ r', rtc (scan_step pr) r1 r' → r' = r1) ∧
    postScan r1 = postScan r ∧ logger r1 = logger r ∧ idle r1 ∧
    t_startTime (tgt r1) !! proto = Some now.
Proof.
  intros Hidle Hnow Hicmp Hports Hw.
  destruct (tick_Run_step now jobID proto r []) as (chunks & Hjoin & Hcount & Hrun);
    try done.
  assert (chunks = []) as ->.
  { destruct chunks; [done|]. unfold len in Hcount. simpl in Hcount. lia. }
  eexists. split; [exact Hrun|]. simpl.
  split; [|by rewrite lookup_insert_eq].
  intros r' Hreach. apply rtc_inv in Hreach as [<-|(r2 & Hstep & _)]; [done|].
  inversion Hstep as [? q1 job q2 Hq|? ? Hres]; simpl in *; [|done].
  by destruct q1.
Qed.

Lemma empty_range_scan_reports_nothing_witness :
  let r := start quiet in
  (idle r ∧ 1 ≠ zeroTime ∧ "udp"%string ≠ "icmp"%string ∧
   t_portsToScan (tgt r) !! "udp"%string = Some [] ∧
   1 ≤ t_workers (tgt r) ≤ int_max) ∧
  ∃ r1, Run_step "scanAAAAAA" (ticker 1 "udp" r) = Ok r1 ∧
    (∀ r', rtc (scan_step only23) r1 r' → r' = r1) ∧
    postScan r1 = postScan r ∧ logger r1 = logger r ∧ idle r1 ∧
    t_startTime (tgt r1) !! "udp"%string = Some 1.
Proof.
  intros r.
  assert (H1 : idle r) by (repeat split).
  assert (H2 : 1 ≠ zeroTime) by discriminate.
  assert (H3 : "udp"%string ≠ "icmp"%string) by discriminate.
  assert (H4 : t_portsToScan (tgt r) !! "udp"%string = Some []) by reflexivity.
  assert (H5 : 1 ≤ t_workers (tgt r) ≤ int_max) by (cbn; unfold int_max; lia).
  split; [exact (conj H1 (conj H2 (conj H3 (conj H4 H5))))|].
  exact (empty_range_scan_reports_nothing only23 1 "scanAAAAAA" "udp" r
           H1 H2 H3 H4 H5).
Defined.

(** X15. One ICMP scan on a target at rest with at least one worker,
    when [icmpScan] returns no error, while no other trigger arrives:
    whatever the port list there is one job; some run of the workers
    and the receiver gets to the point where nothing is queued, and
    every run that gets there has sent exactly one outcome, whose open
    ports are ["1"] when the host answered and none when it did not,
    and whose accordance lists are empty; [Run] is still running and the
    start time is back to the zero instant. *)
Theorem icmp_scan_reports (pr : probes) (now : Time) (jobID : string)
    (r : runtime) (ports : list string) (success : bool) :
  idle r → unseen jobID r → now ≠ zeroTime →
  t_portsToScan (tgt r) !! "icmp"%string = Some ports →
  1 ≤ t_workers (tgt r) →
  icmpScan pr (t_ip (tgt r)) = (success, None) →
  ∃ r1, Run_step jobID (ticker now "icmp" r) = Ok r1 ∧
    (∃ r', rtc (scan_step pr) r1 r' ∧ quiescent r') ∧
    ∀ r', rtc (scan_step pr) r1 r' → quiescent r' →
      postScan r' = postScan r ++
        [mkResMsg (t_name (tgt r)) (t_ip (tgt r)) "icmp"
           (if success then ["1"%string] else []) [] []] ∧
      idle r' ∧ t_startTime (tgt r') !! "icmp"%string = Some zeroTime.
Proof.
  intros (Htr & Hjobs & Hres & Hrun) Hunseen Hnow Hports Hw Hscan.
  assert (Hstep : Run_step jobID (ticker now "icmp" r) =
            Ok (mkRuntime (setTimeTo "icmp" now (tgt r)) (logger r) []
                  [mkJobMsg jobID 1 (t_ip (tgt r)) "icmp" []] []
                  (postScan r) (recv_openPorts r) (recv_jobsStarted r) true)).
  { unfold Run_step, ticker. simpl. rewrite Htr, Hrun. simpl.
    unfold Run_trigger. simpl. rewrite lookup_insert_eq. simpl.
    unfold IsZero. rewrite (proj2 (Z.eqb_neq now 0)) by done.
    unfold createJobs. simpl. rewrite Hports. simpl. rewrite Hjobs.
    unfold set_jobsChan. simpl. by rewrite Hres, Hrun. }
  eexists. split; [exact Hstep|].
  set (r1 := mkRuntime _ _ _ _ _ _ _ _ _).
  split; [apply (scan_quiesces pr _ r1 (Nat.le_refl _)); simpl; lia|].
  intros r' Hreach [Hjobs' Hres'].
  destruct (scan_run_invariant pr r1 r' Hreach)
    as (recd & Hperm & Hview & Hname & _ & Htr' & Hrunning).
  set (res := mkJobMsg jobID 1 (t_ip (tgt r)) "icmp"
                (if success then ["1"%string] else [])).
  assert (Hsent : sent_for pr (t_name (tgt r1)) (jobsChan r1) = [res]).
  { unfold sent_for, worker_job. simpl. rewrite Hscan. by destruct success. }
  rewrite Hjobs', Hres', Hsent in Hperm. simpl in Hperm. rewrite app_nil_r in Hperm.
  destruct (scan_completes jobID "icmp" (t_ip (tgt r)) [res] recd r1)
    as (Hpost & Htgt & Hopen); try done.
  { by repeat constructor. }
  injection Hview as Hvt Hvp _ _.
  assert (Hports' : ports_of recd = if success then ["1"%string] else []).
  { simpl in Hopen. rewrite app_nil_r in Hopen.
    destruct success; [by apply Permutation_singleton_r|by apply Permutation_nil_r]. }
  split; [|split].
  - rewrite Hvp, Hpost, Hports'. done.
  - by repeat split.
  - rewrite Hvt, Htgt. simpl. by rewrite lookup_insert_eq.
Qed.

Lemma icmp_scan_reports_witness :
  let r := start gateway in
  (idle r ∧ unseen "scanAAAAAA" r ∧ 1 ≠ zeroTime ∧
   t_portsToScan (tgt r) !! "icmp"%string = Some [] ∧
   1 ≤ t_workers (tgt r) ∧
   icmpScan only23 (t_ip (tgt r)) = (true, None)) ∧
  ∃ r1, Run_step "scanAAAAAA" (ticker 1 "icmp" r) = Ok r1 ∧
    (∃ r', rtc (scan_step only23) r1 r' ∧ quiescent r') ∧
    ∀ r', rtc (scan_step only23) r1 r' → quiescent r' →
      postScan r' = postScan r ++
        [mkResMsg (t_name (tgt r)) (t_ip (tgt r)) "icmp"
           (if true then ["1"%string] else []) [] []] ∧
      idle r' ∧ t_startTime (tgt r') !! "icmp"%string = Some zeroTime.
Proof.
  intros r.
  assert (H1 : idle r) by (repeat split).
  assert (H2 : unseen "scanAAAAAA" r) by (split; reflexivity).
  assert (H3 : 1 ≠ zeroTime) by discriminate.
  assert (H4 : t_portsToScan (tgt r) !! "icmp"%string = Some []) by reflexivity.
  assert (H5 : 1 ≤ t_workers (tgt r)) by (cbn; lia).
  assert (H6 : icmpScan only23 (t_ip (tgt r)) = (true, None)) by reflexivity.
  split; [exact (conj H1 (conj H2 (conj H3 (conj H4 (conj H5 H6)))))|].
  exact (icmp_scan_reports only23 1 "scanAAAAAA" r [] true H1 H2 H3 H4 H5 H6).
Defined.

(** *** Expected ports that do not read *)

(** X16. When the scan of a protocol other than ICMP completes and the
    expected ports of the protocol do not read as a port expression
    (nothing checked them when the target was made), the receiver logs
    the error and still sends the outcome: it carries the open ports,
    and its lists of unexpected and of closed ports are both empty. *)
Theorem unreadable_expected_hides_ports (now : Time) (res : jobMsg) (r : runtime)
    (e : error) :
  started_after res r = j_jobCount res →
  j_protocol res ≠ "icmp"%string →
  readPortsRange (expected (default protocol_zero (t_protos (tgt r) !! j_protocol res)))
    = Err e →
  postScan (receiver_result now res r) =
    postScan r ++
    [mkResMsg (t_name (tgt r)) (j_ip res) (j_protocol res) (open_after res r) [] []] ∧
  logger (receiver_result now res r) =
    logger r ++
    [Msgf InfoLevel "%s/%s scan duration %s"
       [AStr (t_name (tgt r)); AStr (j_protocol res);
        ADuration (Since now (default zeroTime (t_startTime (tgt r) !! j_protocol res)))];
     Msgf ErrorLevel "error occured while checking port accordance: %s" [AErr e]].
Proof.
  intros Hdone Hicmp Hexp. unfold receiver_result.
  fold (started_after res r). fold (open_after res r).
  rewrite Hdone, Z.eqb_refl, (proj2 (String.eqb_neq _ _)) by done.
  simpl. unfold checkAccordance. rewrite Hexp. simpl.
  by rewrite <- !app_assoc, app_nil_r.
Qed.

Lemma unreadable_expected_hides_ports_witness :
  let res := mkJobMsg "scanAAAAAA" 1 "10.0.0.5" "tcp" ["80"%string] in
  let r := start mistyped in
  let e := ErrSyntax "Atoi" "http" in
  (New true "mistyped" "10.0.0.5" 1 [("tcp", "1h", "80", "http")]%string = Ok mistyped ∧
   started_after res r = j_jobCount res ∧
   j_protocol res ≠ "icmp"%string ∧
   readPortsRange (expected (default protocol_zero (t_protos (tgt r) !! j_protocol res)))
     = Err e) ∧
  postScan (receiver_result 5 res r) =
    postScan r ++
    [mkResMsg (t_name (tgt r)) (j_ip res) (j_protocol res) (open_after res r) [] []] ∧
  logger (receiver_result 5 res r) =
    logger r ++
    [Msgf InfoLevel "%s/%s scan duration %s"
       [AStr (t_name (tgt r)); AStr (j_protocol res);
        ADuration (Since 5 (default zeroTime (t_startTime (tgt r) !! j_protocol res)))];
     Msgf ErrorLevel "error occured while checking port accordance: %s" [AErr e]].
Proof.
  intros res r e.
  assert (H0 : New true "mistyped" "10.0.0.5" 1 [("tcp", "1h", "80", "http")]%string
               = Ok mistyped) by reflexivity.
  assert (H1 : started_after res r = j_jobCount res) by reflexivity.
  assert (H2 : j_protocol res ≠ "icmp"%string) by discriminate.
  assert (H3 : readPortsRange (expected (default protocol_zero
                 (t_protos (tgt r) !! j_protocol res))) = Err e) by reflexivity.
  split; [done|].
  exact (unreadable_expected_hides_ports 5 res r e H1 H2 H3).
Defined.

(** *** Scans in flight together *)

(** While fewer partials of scan [sid] than its job count have arrived,
    whatever partials of other scans arrive in between, the counter and
    the ports held for [sid] are those of its own partials. *)
Lemma receiver_run_interleaved sid n arrivals : ∀ r,
  Forall (λ a, j_id a.2 = sid ∧ j_jobCount a.2 = n) (of_scan sid arrivals) →
  0 ≤ default 0 (recv_jobsStarted r !! sid) →
  default 0 (recv_jobsStarted r !! sid) + len (of_scan sid arrivals) < n →
  n ≤ int_max →
  t_name (tgt (receiver_run arrivals r)) = t_name (tgt r) ∧
  t_protos (tgt (receiver_run arrivals r)) = t_protos (tgt r) ∧
  default 0 (recv_jobsStarted (receiver_run arrivals r) !! sid) =
    default 0 (recv_jobsStarted r !! sid) + len (of_scan sid arrivals) ∧
  default [] (recv_openPorts (receiver_run arrivals r) !! sid) =
    default [] (recv_openPorts r !! sid) ++ ports_of (of_scan sid arrivals).
Proof.
  unfold of_scan, ports_of.
  induction arrivals as [|[now res] arrivals IH]; intros r Hall Hc Hlt Hn.
  - simpl. rewrite app_nil_r. unfold len. simpl. repeat split; lia.
  - rewrite filter_cons in *. simpl in *.
    destruct (receiver_result_target now res r) as [Hname Hprotos].
    fold (receiver_run arrivals (receiver_result now res r)).
    destruct (decide (j_id res = sid)) as [Hid|Hid].
    + apply Forall_cons in Hall as [[_ Hcount] Hall]. simpl in Hcount.
      unfold len in Hlt. simpl length in Hlt.
      assert (Hs : started_after res r = default 0 (recv_jobsStarted r !! sid) + 1).
      { unfold started_after. rewrite Hid. apply wrap64_id.
        unfold int_min, int_max in *. lia. }
      destruct (IH (receiver_result now res r)) as (Hnm & Hpr & Hj & Ho); try done.
      * rewrite receiver_result_jobsStarted, Hid, lookup_insert_eq. simpl. lia.
      * rewrite receiver_result_jobsStarted, Hid, lookup_insert_eq. simpl.
        unfold len. lia.
      * rewrite Hnm, Hpr, Hj, Ho, Hname, Hprotos.
        rewrite receiver_result_jobsStarted, receiver_result_openPorts, Hid,
          !lookup_insert_eq. simpl.
        unfold open_after. rewrite Hid, Hs, <- app_assoc.
        unfold len. simpl length. repeat split; lia.
    + destruct (IH (receiver_result now res r)) as (Hnm & Hpr & Hj & Ho); try done.
      * by rewrite receiver_result_jobsStarted, lookup_insert_ne.
      * by rewrite receiver_result_jobsStarted, lookup_insert_ne.
      * rewrite Hnm, Hpr, Hj, Ho, Hname, Hprotos.
        rewrite receiver_result_jobsStarted, receiver_result_openPorts,
          !lookup_insert_ne by done. done.
Qed.

(** X17. Scans share one receiver (the TCP and the UDP scan of a
    target run side by side). When the last partial result of a scan
    arrives, whatever partial results of other scans have arrived in
    between, the outcome sent then carries as open ports the ports of
    the partials of this scan alone, in their order of arrival, and the
    accordance lists of these ports. *)
Theorem receiver_isolates_scans (sid : string) (before : list (Time * jobMsg))
    (now : Time) (res : jobMsg) (r : runtime) :
  let mine := of_scan sid before ++ [(now, res)] in
  partials_of sid mine → unseen sid r → len mine ≤ int_max →
  postScan (receiver_run (before ++ [(now, res)]) r) =
    postScan (receiver_run before r) ++
    [mkResMsg (t_name (tgt r)) (j_ip res) (j_protocol res) (ports_of mine)
       (accordance (tgt r) (j_protocol res) (ports_of mine)).1
       (accordance (tgt r) (j_protocol res) (ports_of mine)).2].
Proof.
  intros mine Hall [Hj Ho] Hmax. unfold partials_of in Hall.
  set (n := len mine) in *.
  assert (Hn : n = len (of_scan sid before) + 1).
  { unfold n, mine, len. rewrite length_app. simpl. lia. }
  apply Forall_app in Hall as [Hinit [Hid Hcount]%Forall_singleton].
  simpl in Hid, Hcount.
  destruct (receiver_run_interleaved sid n before r Hinit)
    as (Hnm & Hpr & Hc & Hop); rewrite ?Hj; simpl; try lia.
  rewrite Hj in Hc. rewrite Ho in Hop. simpl in Hc, Hop.
  unfold receiver_run in *. rewrite foldl_app. simpl.
  set (r1 := foldl _ r before) in *.
  assert (Hs : started_after res r1 = n).
  { unfold started_after. rewrite Hid, Hc, wrap64_id; [lia|].
    unfold int_min, int_max, len in *. lia. }
  assert (Hopen : open_after res r1 = ports_of mine).
  { unfold open_after, ports_of, mine in *. rewrite Hid, Hop, fmap_app, join_app.
    simpl. by rewrite app_nil_r. }
  rewrite receiver_result_postScan, Hs, Hopen, Hcount, Z.eqb_refl.
  by rewrite Hnm, (accordance_protos (tgt r1) (tgt r)).
Qed.

Lemma receiver_isolates_scans_witness :
  let before := [(1, mkJobMsg "scanAAAAAA" 2 "10.0.0.1" "tcp" ["1337"%string]);
                 (2, mkJobMsg "scanBBBBBB" 1 "10.0.0.1" "udp" ["53"%string])] in
  let res := mkJobMsg "scanAAAAAA" 2 "10.0.0.1" "tcp" ["23"%string] in
  let r := start web in
  let mine := of_scan "scanAAAAAA" before ++ [(3, res)] in
  (partials_of "scanAAAAAA" mine ∧ unseen "scanAAAAAA" r ∧ len mine ≤ int_max) ∧
  postScan (receiver_run (before ++ [(3, res)]) r) =
    postScan (receiver_run before r) ++
    [mkResMsg (t_name (tgt r)) (j_ip res) (j_protocol res) (ports_of mine)
       (accordance (tgt r) (j_protocol res) (ports_of mine)).1
       (accordance (tgt r) (j_protocol res) (ports_of mine)).2].
Proof.
  intros before res r mine.
  assert (H1 : partials_of "scanAAAAAA" mine) by (repeat constructor).
  assert (H2 : unseen "scanAAAAAA" r) by (split; reflexivity).
  assert (H3 : len mine ≤ int_max) by (vm_compute; discriminate).
  split; [exact (conj H1 (conj H2 H3))|].
  exact (receiver_isolates_scans "scanAAAAAA" before 3 res r H1 H2 H3).
Defined.

Example two_scans_interleaved :
  OpenPorts <$>
    postScan (receiver_run
      [(1, mkJobMsg "scanAAAAAA" 2 "10.0.0.1" "tcp" ["1337"%string]);
       (2, mkJobMsg "scanBBBBBB" 1 "10.0.0.1" "udp" ["53"%string]);
       (3, mkJobMsg "scanAAAAAA" 2 "10.0.0.1" "tcp" ["23"%string])] (start web))
  = [["53"]; ["1337"; "23"]]%string.
Proof. reflexivity. Qed.

End ScanFacts.

(** ** Package metrics *)

Module MetricsFacts.

Import metrics spec.

(** *** ICMP down-host tracking *)

(** S7: one host answers, fails twice, answers again. *)
Example icmp_single_host :
  (s1 ← icmpNotResponding ["1"%string] "10.0.0.1" pkg_init;
   s2 ← icmpNotResponding [] "10.0.0.1" s1;
   s3 ← icmpNotResponding [] "10.0.0.1" s2;
   s4 ← icmpNotResponding ["1"%string] "10.0.0.1" s3;
   Ok (numOfDownTargets <$> [s1; s2; s3; s4], notRespondingList <$> [s1; s2; s3; s4]))
  = Ok ([0; 1; 1; 0], [[]; ["10.0.0.1"]; ["10.0.0.1"]; []]%string).
Proof. reflexivity. Qed.

(** The host that recovers is the last of the list: it is removed. *)
Example icmp_last_host_recovers :
  (s1 ← icmpNotResponding [] "10.0.0.1" pkg_init;
   s2 ← icmpNotResponding [] "10.0.0.2" s1;
   s3 ← icmpNotResponding ["1"%string] "10.0.0.2" s2;
   Ok (numOfDownTargets s3, notRespondingList s3))
  = Ok (1, ["10.0.0.1"%string]).
Proof. reflexivity. Qed.

(** Past the host looked for, the loop reads on until it runs out of
    indices or of list. *)
Lemma remove_loop_rest IP todo : ∀ index l,
  (index ≤ length l)%nat →
  (∀ i x, (index ≤ i)%nat → l !! i = Some x → x ≠ IP) →
  remove_loop IP todo index l =
    if decide (index + todo ≤ length l)%nat then Ok l
    else Panic "index out of range".
Proof.
  induction todo as [|todo IH]; intros index l Hlen Hrest; simpl.
  - by rewrite decide_True by lia.
  - destruct (l !! index) as [x|] eqn:Hx.
    + apply lookup_lt_Some in Hx as Hlt.
      rewrite (proj2 (String.eqb_neq x IP)) by (apply (Hrest index x); [lia|done]).
      rewrite IH; [|lia|intros i y Hi; apply Hrest; lia].
      destruct (decide (S index + todo ≤ length l)%nat);
        [by rewrite decide_True by lia|by rewrite decide_False by lia].
    + apply lookup_ge_None in Hx. by rewrite decide_False by lia.
Qed.

(** Before the host looked for, the loop reads on. *)
Lemma remove_loop_skip IP l1 l2 k : ∀ index todo,
  IP ∉ l1 → (index + k = length l1)%nat →
  remove_loop IP (k + todo) index (l1 ++ l2) =
  remove_loop IP todo (length l1) (l1 ++ l2).
Proof.
  induction k as [|k IH]; intros index todo Hnot Hk; simpl.
  - by replace index with (length l1) by lia.
  - rewrite lookup_app_l by lia.
    destruct (l1 !! index) as [x|] eqn:Hx; [|apply lookup_ge_None in Hx; lia].
    rewrite (proj2 (String.eqb_neq x IP)).
    + apply IH; [done|lia].
    + intros ->. apply Hnot. by eapply list_elem_of_lookup_2.
Qed.

Lemma insert_middle {A} (l1 l2 : list A) x y :
  <[length l1 := y]> (l1 ++ x :: l2) = l1 ++ y :: l2.
Proof.
  replace (length l1) with (length l1 + 0)%nat at 1 by lia.
  by rewrite insert_app_r.
Qed.

(** The three assignments that delete the element at [index]: the last
    element takes its place and the list loses its last position. *)
Lemma swap_remove (l1 l2 : list string) x final :
  last (x :: l2) = Some final →
  let l := l1 ++ x :: l2 in
  l !! (length l - 1)%nat = Some final ∧
  take (length (<[(length (<[length l1 := final]> l) - 1)%nat := ""%string]>
                  (<[length l1 := final]> l)) - 1)
       (<[(length (<[length l1 := final]> l) - 1)%nat := ""%string]>
          (<[length l1 := final]> l))
  = l1 ++ take (length l2) (final :: l2).
Proof.
  intros Hlast l. unfold l. rewrite !length_insert, insert_middle.
  assert (Hlen : (length (l1 ++ x :: l2) - 1 = length l1 + length l2)%nat)
    by (rewrite length_app; simpl; lia).
  rewrite Hlen. split.
  - rewrite lookup_app_r by lia.
    replace (length l1 + length l2 - length l1)%nat with (length l2) by lia.
    rewrite last_lookup in Hlast. exact Hlast.
  - rewrite take_insert_ge by lia.
    by rewrite take_app_add.
Qed.

(** Removing a host from the down-set: when it is the last of the list
    the rest is left; when hosts follow it, the call panics. *)
Lemma remove_loop_found IP l1 l2 :
  IP ∉ l1 → IP ∉ l2 →
  remove_loop IP (length (l1 ++ IP :: l2)) 0 (l1 ++ IP :: l2) =
    match l2 with
    | [] => Ok l1
    | _ :: _ => Panic "index out of range"
    end.
Proof.
  intros Hl1 Hl2.
  replace (length (l1 ++ IP :: l2)) with (length l1 + S (length l2))%nat
    by (rewrite length_app; simpl; lia).
  rewrite (remove_loop_skip IP l1 (IP :: l2) (length l1) 0) by done.
  cbn [remove_loop]. rewrite list_lookup_middle by done.
  rewrite String.eqb_refl.
  destruct (last (IP :: l2)) as [final|] eqn:Hlast; [|by apply last_None in Hlast].
  destruct (swap_remove l1 l2 IP final Hlast) as [-> ->].
  destruct l2 as [|y l2]; [simpl; by rewrite app_nil_r|].
  assert (Hlen : length (l1 ++ take (length (y :: l2)) (final :: y :: l2)) =
                 (length l1 + length (y :: l2))%nat).
  { rewrite length_app, length_take. simpl. lia. }
  rewrite remove_loop_rest.
  - rewrite decide_False; [done|]. rewrite Hlen. simpl. lia.
  - rewrite Hlen. simpl. lia.
  - intros i x Hi Hx. rewrite lookup_app_r in Hx by lia.
    apply lookup_take_Some in Hx as [Hx _].
    destruct (i - length l1)%nat as [|j] eqn:Hj; [lia|]. simpl in Hx.
    intros ->. apply Hl2. by eapply list_elem_of_lookup_2.
Qed.

(** A host of the down-set answers again: it is taken out when it is
    the last of the list, and the call panics when hosts follow it. *)
Lemma icmpNotResponding_recovery ports IP s l1 l2 :
  ports ≠ [] → NoDup (notRespondingList s) →
  notRespondingList s = l1 ++ IP :: l2 →
  icmpNotResponding ports IP s =
    match l2 with
    | [] => Ok (set_down (numOfDownTargets s - 1) l1 s)
    | _ :: _ => Panic "index out of range"
    end.
Proof.
  intros Hports Hnodup Hl. unfold icmpNotResponding.
  assert ((len ports =? 0) = false) as ->.
  { apply Z.eqb_neq. unfold len. destruct ports; [done|]. simpl. lia. }
  unfold common.StringInSlice. rewrite Hl in *.
  rewrite bool_decide_eq_true_2 by (apply elem_of_app; right; constructor).
  cbn [negb andb].
  apply NoDup_app in Hnodup as (_ & Hl1 & [Hl2 _]%NoDup_cons).
  rewrite remove_loop_found; [by destruct l2|..|done].
  intros Hin. by apply (Hl1 IP Hin); constructor.
Qed.

(** Whenever the call returns, the gauge still counts the down-set. *)
Lemma icmpNotResponding_consistent ports IP s s' :
  down_consistent s → icmpNotResponding ports IP s = Ok s' → down_consistent s'.
Proof.
  intros [Hg Hnodup] Hcall.
  destruct (decide (IP ∈ notRespondingList s)) as [Hin|Hnot];
    destruct ports as [|p ports].
  - unfold icmpNotResponding, common.StringInSlice in Hcall. simpl in Hcall.
    rewrite bool_decide_eq_true_2 in Hcall by done. simpl in Hcall.
    by simplify_eq.
  - apply list_elem_of_split in Hin as (l1 & l2 & Hl).
    rewrite (icmpNotResponding_recovery _ IP s l1 l2) in Hcall by done.
    destruct l2; [|done]. simplify_eq. rewrite Hl in *. split; simpl.
    + rewrite Hg. unfold len. rewrite length_app. simpl. lia.
    + by apply NoDup_app in Hnodup as (? & _ & _).
  - unfold icmpNotResponding, common.StringInSlice in Hcall. simpl in Hcall.
    rewrite bool_decide_eq_false_2 in Hcall by done. simpl in Hcall.
    simplify_eq. split; simpl.
    + rewrite Hg. unfold len. rewrite length_app. simpl. lia.
    + apply NoDup_app. repeat split; [done| |apply NoDup_singleton].
      intros x Hx ->%list_elem_of_singleton. done.
  - unfold icmpNotResponding, common.StringInSlice in Hcall.
    assert ((len (p :: ports) =? 0) = false) as Hne.
    { apply Z.eqb_neq. unfold len. simpl. lia. }
    rewrite Hne in Hcall.
    rewrite bool_decide_eq_false_2 in Hcall by done. simpl in Hcall.
    by simplify_eq.
Qed.
(** C9 fails on the code. Two hosts stop answering, then the first one
    answers again: the gauge is decremented, the host is found at
    index 0 and removed, which shortens the list to one element, and
    the loop, which still runs over the two indices the list had, reads
    index 1 of it: the call panics instead of leaving the down-set
    with the second host and the gauge at 1. ([icmpNotResponding_recovery]
    is the general statement; [icmpNotResponding_consistent] says that
    the gauge counts the down-set after every call that returns.) *)
Theorem icmp_recovery_panics :
  (s1 ← icmpNotResponding [] "10.0.0.1" pkg_init;
   s2 ← icmpNotResponding [] "10.0.0.2" s1;
   Ok (numOfDownTargets s2, notRespondingList s2))
  = Ok (2, ["10.0.0.1"; "10.0.0.2"]%string) ∧
  (s1 ← icmpNotResponding [] "10.0.0.1" pkg_init;
   s2 ← icmpNotResponding [] "10.0.0.2" s1;
   icmpNotResponding ["1"%string] "10.0.0.1" s2)
  = Panic "index out of range".
Proof. split; reflexivity. Qed.

(** *** The package-level client pointer *)

Lemma initRedisClient_frame w s s' err :
  initRedisClient w s = Ok (s', err) → s' = s.
Proof. unfold initRedisClient. repeat case_match; by intros [= <- <-]. Qed.

Lemma StartServ_rdb w n s s' lg : StartServ w n s = Ok (s', lg) → rdb s' = rdb s.
Proof.
  unfold StartServ.
  destruct (initRedisClient w _) as [[s1 err]| |] eqn:Hinit; simpl; try done.
  apply initRedisClient_frame in Hinit as ->.
  destruct err; by intros [= <- <-].
Qed.

Lemma icmpNotResponding_rdb ports ip s s' :
  icmpNotResponding ports ip s = Ok s' → rdb s' = rdb s.
Proof.
  unfold icmpNotResponding. repeat case_match; try (by intros [= <-]).
  destruct (remove_loop _ _ _ _); simpl; try done. by intros [= <-].
Qed.

Lemma Handle_rdb w res s s' err : Handle w res s = Ok (s', err) → rdb s' = rdb s.
Proof.
  unfold Handle. destruct (String.eqb _ _).
  - destruct (icmpNotResponding _ _ _) as [s1| |] eqn:Hicmp; simpl; try done.
    intros [= <- <-]. by eapply icmpNotResponding_rdb.
  - destruct (readSet _ _ _); try done; [|by intros [= <- <-]].
    destruct (wipeSet _ _ _); try done. simpl.
    destruct (writeSet _ _ _ _); try done; by intros [= <- <-].
Qed.

Lemma reachable_rdb w s : reachable w s → rdb s = None.
Proof.
  induction 1 as [|s n s' lg _ IH HS|s res s' err _ IH HH]; [done|..].
  - apply StartServ_rdb in HS. congruence.
  - apply Handle_rdb in HH. congruence.
Qed.

Lemma writeSet_nil w w' k items :
  same_on_nil w w' → writeSet w None k items = writeSet w' None k items.
Proof.
  intros (_ & _ & Hadd). induction items as [|item items IH]; simpl; [done|].
  by rewrite Hadd, IH.
Qed.

Lemma Handle_nil w w' res s :
  rdb s = None → same_on_nil w w' → Handle w res s = Handle w' res s.
Proof.
  intros Hnil Hsame. pose proof Hsame as (Hmem & Hdel & _).
  unfold Handle, readSet, wipeSet. simpl. rewrite Hnil.
  destruct (String.eqb _ _); [done|].
  rewrite Hmem, Hdel. destruct (SMembers w' None _); try done.
  destruct (Del w' None _); simpl; by rewrite ?(writeSet_nil w w').
Qed.

(** C10. In every state the package variables reach (from their initial
    values, through completed calls of [StartServ] and [Handle]) [rdb]
    is [nil]: [initRedisClient] leaves every package variable as it
    was, its client being a local variable, so [StartServ] leaves
    [rdb] [nil] too, and what [Handle] does depends on the Redis
    library only through calls on a [nil] client. *)
Theorem rdb_stays_nil (w : world) (s : pkg) :
  reachable w s →
  rdb s = None ∧
  (∀ s' err, initRedisClient w s = Ok (s', err) → s' = s) ∧
  (∀ n s' lg, StartServ w n s = Ok (s', lg) → rdb s' = None) ∧
  (∀ w' res, same_on_nil w w' → Handle w res s = Handle w' res s).
Proof.
  intros Hs. pose proof (reachable_rdb w s Hs) as Hnil.
  split; [done|]. split; [apply initRedisClient_frame|].
  split; [intros n s' lg HS; apply StartServ_rdb in HS; congruence|].
  intros w' res Hsame. by apply Handle_nil.
Qed.

(** With a Redis server that answers: [StartServ] creates and pings a
    client without an error, and [rdb] is [nil] afterwards. *)
Lemma rdb_stays_nil_witness :
  let s := mkPkg 3 0 ∅ ∅ ∅ ∅ [] None in
  StartServ live 3 pkg_init = Ok (s, []) ∧
  reachable live s ∧
  rdb s = None ∧
  (∀ s' err, initRedisClient live s = Ok (s', err) → s' = s) ∧
  (∀ n s' lg, StartServ live n s = Ok (s', lg) → rdb s' = None) ∧
  (∀ w' res, same_on_nil live w' → Handle live res s = Handle w' res s).
Proof.
  intros s.
  assert (H0 : StartServ live 3 pkg_init = Ok (s, [])) by reflexivity.
  assert (H : reachable live s) by exact (reach_StartServ _ _ _ _ _ (reach_init _) H0).
  split; [exact H0|]. split; [exact H|].
  exact (rdb_stays_nil live s H).
Defined.

(** ** Further properties: package metrics *)

(** Whenever [icmpNotResponding] returns, the host it was called for is
    in the down-set exactly when it was called with no open port, and
    the other hosts are where they were. *)
Lemma icmpNotResponding_down ports IP s s' :
  down_consistent s → icmpNotResponding ports IP s = Ok s' →
  ∀ ip, ip ∈ notRespondingList s' ↔
        if String.eqb IP ip then ports = [] else ip ∈ notRespondingList s.
Proof.
  intros [Hg Hnodup] Hcall ip.
  destruct (decide (IP ∈ notRespondingList s)) as [Hin|Hnot];
    destruct ports as [|p ports].
  - unfold icmpNotResponding, common.StringInSlice in Hcall. simpl in Hcall.
    rewrite bool_decide_eq_true_2 in Hcall by done. simpl in Hcall.
    simplify_eq. by destruct (String.eqb_spec IP ip) as [<-|].
  - apply list_elem_of_split in Hin as (l1 & l2 & Hl).
    rewrite (icmpNotResponding_recovery _ IP s l1 l2) in Hcall by done.
    destruct l2; [|done]. simplify_eq. rewrite Hl in *. simpl.
    apply NoDup_app in Hnodup as (_ & Hdisj & _).
    destruct (String.eqb_spec IP ip) as [<-|Hne].
    + split; [|done]. intros Hin. destruct (Hdisj IP Hin). by left.
    + rewrite elem_of_app, list_elem_of_singleton. split; [by left|].
      by intros [?|?].
  - unfold icmpNotResponding, common.StringInSlice in Hcall. simpl in Hcall.
    rewrite bool_decide_eq_false_2 in Hcall by done. simpl in Hcall.
    simplify_eq. simpl.
    destruct (String.eqb_spec IP ip) as [<-|Hne];
      rewrite elem_of_app, list_elem_of_singleton.
    + split; [done|]. by right.
    + split; [by intros [?|?]|by left].
  - unfold icmpNotResponding, common.StringInSlice in Hcall.
    assert ((len (p :: ports) =? 0) = false) as Hne.
    { apply Z.eqb_neq. unfold len. simpl. lia. }
    rewrite Hne in Hcall.
    rewrite bool_decide_eq_false_2 in Hcall by done. simpl in Hcall.
    simplify_eq. destruct (String.eqb_spec IP ip) as [<-|]; [|done].
    split; [done|]. intros [=].
Qed.

(** What [Handle] leaves when it returns from a result that is not an
    ICMP one. *)
Lemma Handle_other w res s s' err :
  String.eqb (Protocol res) "icmp" = false →
  Handle w res s = Ok (s', err) →
  numOfTargets s' = numOfTargets s ∧ numOfDownTargets s' = numOfDownTargets s ∧
  notRespondingList s' = notRespondingList s ∧
  unexpectedPorts s' =
    <[(Protocol res, Name res) := len (UnexpectedPorts res)]> (unexpectedPorts s) ∧
  openPorts s' = <[(Protocol res, Name res) := len (OpenPorts res)]> (openPorts s) ∧
  closedPorts s' =
    <[(Protocol res, Name res) := len (ClosedPorts res)]> (closedPorts s) ∧
  match readSet w (rdb s) (IP res +:+ "/" +:+ Protocol res) with
  | Ok prev =>
      diffPorts s' =
        <[(Protocol res, Name res) := common.CompareStringSlices prev (OpenPorts res)]>
          (diffPorts s)
  | _ => diffPorts s' = diffPorts s ∧ is_Some err
  end.
Proof.
  intros Hproto. unfold Handle. rewrite Hproto. simpl.
  destruct (readSet w (rdb s) _) as [prev|e|why]; [|by intros [= <- <-]|done].
  destruct (wipeSet w (rdb s) _) as [[]| |]; simpl; [|done..].
  destruct (writeSet w (rdb s) _ _) as [[]|e|why]; [| |done]; by intros [= <- <-].
Qed.

Lemma Handle_down w res s s' err :
  down_consistent s → Handle w res s = Ok (s', err) →
  down_consistent s' ∧
  ∀ ip, ip ∈ notRespondingList s' ↔
        if String.eqb (Protocol res) "icmp" && String.eqb (IP res) ip
        then OpenPorts res = [] else ip ∈ notRespondingList s.
Proof.
  intros Hc Hcall.
  destruct (String.eqb (Protocol res) "icmp") eqn:Hproto.
  - unfold Handle in Hcall. rewrite Hproto in Hcall.
    destruct (icmpNotResponding _ _ s) as [s1| |] eqn:Hicmp; [|done..].
    simpl in Hcall. injection Hcall as <- <-.
    split; [by eapply icmpNotResponding_consistent|].
    intros ip. simpl. by eapply icmpNotResponding_down.
  - destruct (Handle_other _ _ _ _ _ Hproto Hcall) as (_ & Hd & Hl & _).
    unfold down_consistent. by rewrite Hd, Hl.
Qed.

(** X18. Results handled one after the other, from a state in which
    the gauge of down hosts counts a down-set without repetition: when
    every call of [Handle] returns, the gauge still counts the down-set,
    and a host is in the down-set exactly when the latest ICMP result
    about it had no open port (or, with no ICMP result about it, when
    it was in the set before). Results of other protocols do not touch
    the down-set. *)
Theorem icmp_down_set_tracks (w : world) (msgs : list ResMsg) (s s' : pkg) :
  down_consistent s → Handle_all w msgs s = Ok s' →
  down_consistent s' ∧
  ∀ ip, ip ∈ notRespondingList s' ↔
        reported_down msgs ip (bool_decide (ip ∈ notRespondingList s)) = true.
Proof.
  revert s. induction msgs as [|res msgs IH]; intros s Hc; simpl.
  - intros [= <-]. split; [done|]. intros ip. by rewrite bool_decide_eq_true.
  - destruct (Handle w res s) as [[s1 err]| |] eqn:Hres; [|done..]. simpl.
    intros Hall. destruct (Handle_down _ _ _ _ _ Hc Hres) as [Hc1 Hdown].
    destruct (IH s1 Hc1 Hall) as [Hc' Hiff]. split; [done|].
    intros ip. rewrite Hiff. unfold reported_down. simpl.
    assert (bool_decide (ip ∈ notRespondingList s1) =
            if String.eqb (Protocol res) "icmp" && String.eqb (IP res) ip
            then bool_decide (OpenPorts res = [])
            else bool_decide (ip ∈ notRespondingList s)) as ->; [|done].
    specialize (Hdown ip).
    destruct (_ && _); by apply bool_decide_ext.
Qed.

Lemma icmp_down_set_tracks_witness :
  let msgs := [mkResMsg "gateway" "10.0.0.4" "icmp" [] [] [];
               mkResMsg "web" "10.0.0.1" "icmp" ["1"%string] [] []] in
  let s' := mkPkg 0 1 ∅ ∅ ∅ ∅ ["10.0.0.4"%string] None in
  (down_consistent pkg_init ∧ Handle_all live msgs pkg_init = Ok s') ∧
  down_consistent s' ∧
  ∀ ip, ip ∈ notRespondingList s' ↔
        reported_down msgs ip (bool_decide (ip ∈ notRespondingList pkg_init)) = true.
Proof.
  intros msgs s'.
  assert (H1 : down_consistent pkg_init) by (split; [reflexivity|constructor]).
  assert (H2 : Handle_all live msgs pkg_init = Ok s') by reflexivity.
  split; [done|].
  exact (icmp_down_set_tracks live msgs pkg_init s' H1 H2).
Defined.

(** X19. In every state the package variables reach, [Handle] goes
    through the [nil] client for a result that is not an ICMP one (the
    package-level [rdb] is never assigned): its first Redis call is
    [SMembers] on that client, and when that call panics, as a method
    called through a [nil] [*redis.Client] does, [Handle] panics with
    it and returns nothing. *)
Theorem Handle_panics_without_client (w : world) (res : ResMsg) (s : pkg)
    (why : string) :
  reachable w s →
  Protocol res ≠ "icmp"%string →
  SMembers w None (IP res +:+ "/" +:+ Protocol res) = Panic why →
  Handle w res s = Panic why.
Proof.
  intros Hs Hproto%String.eqb_neq Hpanic.
  pose proof (reachable_rdb w s Hs) as Hnil.
  unfold Handle. rewrite Hproto. simpl. unfold readSet. by rewrite Hnil, Hpanic.
Qed.

Lemma Handle_panics_without_client_witness :
  let res := mkResMsg "web" "10.0.0.1" "tcp" ["1337"; "23"]%string
               ["1337"; "23"]%string ["80"; "22"]%string in
  let s := mkPkg 3 0 ∅ ∅ ∅ ∅ [] None in
  (reachable live s ∧ Protocol res ≠ "icmp"%string ∧
   SMembers live None (IP res +:+ "/" +:+ Protocol res)
     = Panic "nil pointer dereference") ∧
  Handle live res s = Panic "nil pointer dereference".
Proof.
  intros res s.
  assert (H0 : StartServ live 3 pkg_init = Ok (s, [])) by reflexivity.
  assert (H1 : reachable live s) by exact (reach_StartServ _ _ _ _ _ (reach_init _) H0).
  assert (H2 : Protocol res ≠ "icmp"%string) by discriminate.
  assert (H3 : SMembers live None (IP res +:+ "/" +:+ Protocol res)
               = Panic "nil pointer dereference") by reflexivity.
  split; [exact (conj H1 (conj H2 H3))|].
  exact (Handle_panics_without_client live res s "nil pointer dereference" H1 H2 H3).
Defined.

End MetricsFacts.

(** ** Further properties: the [Server] variant of package metrics *)

Module ServerFacts.

Import server spec.

Lemma appendMissing_filter l other : ∀ acc,
  appendMissing l other acc = acc ++ filter (λ port, port ∉ other) l.
Proof.
  induction l as [|port l IH]; intros acc; simpl.
  - by rewrite app_nil_r.
  - rewrite filter_cons. unfold common.StringInSlice.
    case_bool_decide; rewrite IH.
    + by rewrite decide_False by (by intros ?).
    + rewrite decide_True by done. by rewrite <- app_assoc.
Qed.

(** One message handled by an [Updater] whose two slices are empty. *)
Lemma Updater_msg_gauges nm u k :
  loc_unexpectedPorts u = [] → loc_closedPorts u = [] →
  loc_unexpectedPorts (Updater_msg nm u) = [] ∧
  loc_closedPorts (Updater_msg nm u) = [] ∧
  gauges (srv (Updater_msg nm u)) k =
    if decide ((Name nm, IP nm) = k)
    then (Some (Diff nm), Some (len (Open nm)),
          Some (len (unexpected_of nm)), Some (len (closed_of nm)))
    else gauges (srv u) k.
Proof.
  intros Hu Hc. split; [done|]. split; [done|].
  unfold gauges, Updater_msg. simpl. rewrite Hu, Hc, !appendMissing_filter. simpl.
  case_decide as Hk.
  - subst k. by rewrite !lookup_insert_eq.
  - by rewrite !lookup_insert_ne.
Qed.

(** X20. After [Updater] has handled any sequence of messages, its two
    working slices are empty again, and the four gauges for a pair of
    labels hold what the latest message with these labels gives: its
    diff, the number of its open ports, the number of its open ports
    that are not expected and the number of its expected ports that are
    not open. Nothing of an earlier message is left in them, and the
    [Closed] field of a message is not read. With no message for the
    labels the gauges are as they were. *)
Theorem Updater_last_message (s : Server) (nms : list NewMetrics) (k : string * string) :
  loc_unexpectedPorts (Updater s nms) = [] ∧
  loc_closedPorts (Updater s nms) = [] ∧
  gauges (srv (Updater s nms)) k =
    match last (filter (λ nm, (Name nm, IP nm) = k) nms) with
    | Some nm => (Some (Diff nm), Some (len (Open nm)),
                  Some (len (unexpected_of nm)), Some (len (closed_of nm)))
    | None => gauges s k
    end.
Proof.
  induction nms as [|nm nms (Hu & Hc & IH)] using rev_ind; [done|].
  unfold Updater in *. rewrite foldl_app. cbn [foldl].
  destruct (Updater_msg_gauges nm (foldl (λ u nm, Updater_msg nm u)
                                      (mkUpdater s [] [] []) nms) k Hu Hc)
    as (Hu' & Hc' & ->).
  split; [done|]. split; [done|]. rewrite IH.
  rewrite filter_app, filter_cons, filter_nil.
  case_decide.
  - by rewrite last_snoc.
  - by rewrite app_nil_r.
Qed.

End ServerFacts.
